(** * check_vector_safety: a regex scanner for C++ vector accesses

    Shallow embedding of [check_vector_safety.py] and proofs of the
    properties that its specification states.  The program is three
    regular expressions, two passes over the lines of a file, and a walk
    over the files of a directory.  The embedding has three layers:

    - [Chars]: the character classes [\w], [\s], [\d] of Python's [re] on
      [str] patterns, for text whose code points are below 256 (a Rocq
      [ascii] is one such code point);
    - [Re]: the fragment of Python's [re] module that the program uses: a
      pattern compiler from the pattern text, a backtracking matcher with
      greedy repetition, [search], [finditer] and match objects;
    - the program itself, in an error monad ([re.compile] and
      [match.group] may raise), with the iteration order of its [set] and
      the file system as explicit parameters.

    The definitions come first; the properties follow, from the matcher
    up to the statements of the specification, and then properties of
    the code that the specification does not state. *)

From Stdlib Require Import String Ascii List Bool Arith Lia Permutation.
From Stdlib Require Decimal DecimalNat DecimalString.
Import ListNotations.

(* ------------------------------------------------------------------ *)
(** ** Exceptions and the error monad *)

Inductive exn : Type :=
| re_error            (* re.compile on a malformed pattern *)
| IndexError          (* match.group(i) for a group that does not exist *)
| OSError             (* open() failed *)
| UnicodeDecodeError. (* readlines() met bytes that are not UTF-8 *)

Inductive result (A : Type) : Type :=
| Ok (a : A)
| Raise (e : exn).
Arguments Ok {A} a.
Arguments Raise {A} e.

Definition bind {A B} (r : result A) (k : A -> result B) : result B :=
  match r with
  | Ok a => k a
  | Raise e => Raise e
  end.

Notation "x <- r ;; k" := (bind r (fun x => k))
  (at level 61, r at next level, right associativity).

(** A [for] loop whose body updates the loop state [st] and may raise. *)
Fixpoint for_each {A S} (l : list A) (st : S) (body : A -> S -> result S)
  : result S :=
  match l with
  | [] => Ok st
  | x :: l' => st' <- body x st ;; for_each l' st' body
  end.

(** [not l] for a list [l]. *)
Definition is_empty {A} (l : list A) : bool :=
  match l with
  | [] => true
  | _ => false
  end.

(* ------------------------------------------------------------------ *)
(** ** Character classes *)

Module Chars.

Definition code (c : ascii) : nat := nat_of_ascii c.

Definition between (lo hi : nat) (c : ascii) : bool :=
  (lo <=? code c) && (code c <=? hi).

(** [\d]: Unicode decimal digits; below 256 these are [0-9]. *)
Definition is_digit (c : ascii) : bool := between 48 57 c.

(** [\s]: Unicode whitespace; below 256 these are TAB..CR, FS..US, space,
    NEL and the no-break space. *)
Definition is_space (c : ascii) : bool :=
  between 9 13 c || between 28 32 c || between 133 133 c
  || between 160 160 c.

(** [\w]: Unicode alphanumerics and the underscore; below 256 these are
    the ASCII ones and the letters and numerics of Latin-1. *)
Definition is_word (c : ascii) : bool :=
  between 48 57 c || between 65 90 c || between 95 95 c
  || between 97 122 c || between 170 170 c || between 178 179 c
  || between 181 181 c || between 185 186 c || between 188 190 c
  || between 192 214 c || between 216 246 c || between 248 255 c.

(** ASCII letters and digits: after a backslash these are escapes with a
    meaning of their own, every other character stands for itself. *)
Definition is_ascii_alnum (c : ascii) : bool :=
  between 48 57 c || between 65 90 c || between 97 122 c.

End Chars.
Import Chars.

(* ------------------------------------------------------------------ *)
(** ** The fragment of [re] used by the program *)

Module Re.

(** A set of characters: a class escape, one character, or a bracketed
    set of ranges. *)
Inductive charset : Type :=
| CsWord
| CsSpace
| CsDigit
| CsChar (c : ascii)
| CsRanges (rs : list (ascii * ascii)).

Definition in_charset (cs : charset) (c : ascii) : bool :=
  match cs with
  | CsWord => is_word c
  | CsSpace => is_space c
  | CsDigit => is_digit c
  | CsChar d => Ascii.eqb d c
  | CsRanges rs =>
      existsb (fun r => (code (fst r) <=? code c) && (code c <=? code (snd r))) rs
  end.

(** A compiled pattern is a sequence of nodes.  Groups are not nested and
    repetition applies to one character set, which is all the program's
    patterns need. *)
Inductive node : Type :=
| Boundary                (* \b *)
| GroupOpen               (* (  *)
| GroupClose              (* )  *)
| One (cs : charset)
| Star (cs : charset)     (* greedy * *)
| Plus (cs : charset).    (* greedy + *)

Definition regex : Type := list node.

(** *** Compiling a pattern

    The compiler reads the pattern one character at a time.  [None] is a
    pattern that [re.compile] rejects or that lies outside the fragment. *)

Inductive pmode : Type :=
| InPattern
| AfterBackslash
| InSet (rs : list (ascii * ascii)) (pending : option ascii) (dash : bool).

Record pstate : Type := mk_pstate {
  p_mode : pmode;
  p_nodes : list node;   (* most recent first *)
  p_open : bool          (* inside a group *)
}.

Definition push (n : node) (st : pstate) : pstate :=
  mk_pstate InPattern (n :: p_nodes st) (p_open st).

Definition repeat_last (f : charset -> node) (st : pstate) : option pstate :=
  match p_nodes st with
  | One cs :: ns => Some (mk_pstate InPattern (f cs :: ns) (p_open st))
  | _ => None                                   (* nothing to repeat *)
  end.

Definition step_pattern (st : pstate) (c : ascii) : option pstate :=
  match c with
  | "\"%char => Some (mk_pstate AfterBackslash (p_nodes st) (p_open st))
  | "["%char => Some (mk_pstate (InSet [] None false) (p_nodes st) (p_open st))
  | "("%char =>
      if p_open st then None
      else Some (mk_pstate InPattern (GroupOpen :: p_nodes st) true)
  | ")"%char =>
      if p_open st
      then Some (mk_pstate InPattern (GroupClose :: p_nodes st) false)
      else None                                 (* unbalanced parenthesis *)
  | "*"%char => repeat_last Star st
  | "+"%char => repeat_last Plus st
  | "?"%char | "{"%char | "}"%char | "|"%char | "^"%char | "$"%char
  | "."%char | "]"%char => None
  | _ => Some (push (One (CsChar c)) st)
  end.

Definition step_escape (st : pstate) (c : ascii) : option pstate :=
  match c with
  | "b"%char => Some (push Boundary st)
  | "w"%char => Some (push (One CsWord) st)
  | "s"%char => Some (push (One CsSpace) st)
  | "d"%char => Some (push (One CsDigit) st)
  | _ => if is_ascii_alnum c then None          (* bad or unsupported escape *)
         else Some (push (One (CsChar c)) st)
  end.

Definition step_set (st : pstate) (rs : list (ascii * ascii))
  (pending : option ascii) (dash : bool) (c : ascii) : option pstate :=
  let continue m := Some (mk_pstate m (p_nodes st) (p_open st)) in
  match c with
  | "]"%char =>
      match pending, dash with
      | None, _ => match rs with
                   | [] => None
                   | _ => Some (push (One (CsRanges rs)) st)
                   end
      | Some a, false => Some (push (One (CsRanges (rs ++ [(a, a)]))) st)
      | Some _, true => None
      end
  | "\"%char | "["%char | "^"%char => None
  | "-"%char =>
      match pending, dash with
      | Some a, false => continue (InSet rs (Some a) true)
      | _, _ => None
      end
  | _ =>
      match pending, dash with
      | None, _ => continue (InSet rs (Some c) false)
      | Some a, false => continue (InSet (rs ++ [(a, a)]) (Some c) false)
      | Some a, true =>
          if code a <=? code c
          then continue (InSet (rs ++ [(a, c)]) None false)
          else None                             (* bad character range *)
      end
  end.

Definition step (st : pstate) (c : ascii) : option pstate :=
  match p_mode st with
  | InPattern => step_pattern st c
  | AfterBackslash => step_escape st c
  | InSet rs pending dash => step_set st rs pending dash c
  end.

Fixpoint steps (st : pstate) (pattern : list ascii) : option pstate :=
  match pattern with
  | [] => Some st
  | c :: pattern' =>
      match step st c with
      | Some st' => steps st' pattern'
      | None => None
      end
  end.

Definition finish (st : pstate) : option regex :=
  match p_mode st, p_open st with
  | InPattern, false => Some (rev (p_nodes st))
  | _, _ => None
  end.

Definition compile (pattern : string) : result regex :=
  match steps (mk_pstate InPattern [] false) (list_ascii_of_string pattern) with
  | Some st => match finish st with
               | Some re => Ok re
               | None => Raise re_error
               end
  | None => Raise re_error
  end.

(** *** Matching

    [prev] is the character before the current position ([None] at the
    start of the string), [s] the text from the current position on and
    [pos] the number of characters consumed since the attempt began. *)

Definition word_before (prev : option ascii) : bool :=
  match prev with
  | Some c => is_word c
  | None => false
  end.

Definition word_here (s : list ascii) : bool :=
  match s with
  | c :: _ => is_word c
  | [] => false
  end.

Definition at_boundary (prev : option ascii) (s : list ascii) : bool :=
  xorb (word_before prev) (word_here s).

Definition outcome : Type := option (nat * list nat).
Definition cont : Type := option ascii -> list ascii -> nat -> outcome.

(** Greedy repetition: take one more character when possible and come
    back to the shorter repetition when the rest of the pattern fails. *)
Fixpoint star (p : ascii -> bool) (k : cont) (prev : option ascii)
  (s : list ascii) (pos : nat) : outcome :=
  match s with
  | c :: s' =>
      if p c then
        match star p k (Some c) s' (S pos) with
        | Some r => Some r
        | None => k prev s pos
        end
      else k prev s pos
  | [] => k prev s pos
  end.

(** [marks] are the group boundaries met so far, most recent first. *)
Fixpoint match_nodes (re : regex) (marks : list nat) (prev : option ascii)
  (s : list ascii) (pos : nat) : outcome :=
  match re with
  | [] => Some (pos, rev marks)
  | Boundary :: re' =>
      if at_boundary prev s then match_nodes re' marks prev s pos else None
  | GroupOpen :: re' => match_nodes re' (pos :: marks) prev s pos
  | GroupClose :: re' => match_nodes re' (pos :: marks) prev s pos
  | One cs :: re' =>
      match s with
      | c :: s' =>
          if in_charset cs c then match_nodes re' marks (Some c) s' (S pos)
          else None
      | [] => None
      end
  | Star cs :: re' => star (in_charset cs) (match_nodes re' marks) prev s pos
  | Plus cs :: re' =>
      match s with
      | c :: s' =>
          if in_charset cs c
          then star (in_charset cs) (match_nodes re' marks) (Some c) s' (S pos)
          else None
      | [] => None
      end
  end.

(** One attempt at the current position: the length of the match and the
    group boundaries, in the order the groups open and close. *)
Definition match_here (re : regex) (prev : option ascii) (s : list ascii)
  : outcome :=
  match_nodes re [] prev s 0.

(** *** The deterministic reading of a pattern

    When no character that a repetition accepts can begin what follows
    it, the matcher never comes back to a shorter repetition: the
    repetition takes the longest run and the rest goes on from there.
    [match_det] is that reading, [deterministic] the check that allows
    it; [det_correct] below relates the two. *)

Fixpoint take_while (p : ascii -> bool) (s : list ascii) : list ascii :=
  match s with
  | c :: s' => if p c then c :: take_while p s' else []
  | [] => []
  end.

Fixpoint drop_while (p : ascii -> bool) (s : list ascii) : list ascii :=
  match s with
  | c :: s' => if p c then drop_while p s' else s
  | [] => []
  end.

(** The character before the position reached after reading [s]. *)
Fixpoint last_char (prev : option ascii) (s : list ascii) : option ascii :=
  match s with
  | c :: s' => last_char (Some c) s'
  | [] => prev
  end.

Fixpoint match_det (re : regex) (marks : list nat) (prev : option ascii)
  (s : list ascii) (pos : nat) : outcome :=
  match re with
  | [] => Some (pos, rev marks)
  | Boundary :: re' =>
      if at_boundary prev s then match_det re' marks prev s pos else None
  | GroupOpen :: re' => match_det re' (pos :: marks) prev s pos
  | GroupClose :: re' => match_det re' (pos :: marks) prev s pos
  | One cs :: re' =>
      match s with
      | c :: s' =>
          if in_charset cs c then match_det re' marks (Some c) s' (S pos)
          else None
      | [] => None
      end
  | Star cs :: re' =>
      let w := take_while (in_charset cs) s in
      match_det re' marks (last_char prev w) (drop_while (in_charset cs) s)
        (pos + length w)
  | Plus cs :: re' =>
      match s with
      | c :: s' =>
          if in_charset cs c then
            let w := take_while (in_charset cs) s' in
            match_det re' marks (last_char (Some c) w)
              (drop_while (in_charset cs) s') (S pos + length w)
          else None
      | [] => None
      end
  end.

Definition all_chars : list ascii := map ascii_of_nat (seq 0 256).

Definition disjoint (cs cs' : charset) : bool :=
  forallb (fun c => negb (in_charset cs c && in_charset cs' c)) all_chars.

(** [rejects cs re]: [re] cannot begin with a character of [cs]. *)
Fixpoint rejects (cs : charset) (re : regex) : bool :=
  match re with
  | [] => false
  | Boundary :: _ => false
  | GroupOpen :: re' => rejects cs re'
  | GroupClose :: re' => rejects cs re'
  | One cs' :: _ => disjoint cs cs'
  | Plus cs' :: _ => disjoint cs cs'
  | Star cs' :: re' => disjoint cs cs' && rejects cs re'
  end.

Fixpoint deterministic (re : regex) : bool :=
  match re with
  | [] => true
  | Star cs :: re' => rejects cs re' && deterministic re'
  | Plus cs :: re' => rejects cs re' && deterministic re'
  | _ :: re' => deterministic re'
  end.

(** Whether an attempt, or a search, found a match. *)
Definition succeeds (o : outcome) : bool :=
  match o with
  | Some _ => true
  | None => false
  end.

Definition succeeds_search {M} (found : option M) : bool :=
  match found with
  | None => false
  | Some _ => true
  end.

(** *** Match objects *)

Record re_match : Type := mk_match {
  m_text : string;          (* group 0 *)
  m_groups : list string    (* groups 1, 2, ... *)
}.

Fixpoint spans (marks : list nat) : list (nat * nat) :=
  match marks with
  | a :: b :: marks' => (a, b) :: spans marks'
  | _ => []
  end.

Definition slice (s : list ascii) (sp : nat * nat) : string :=
  string_of_list_ascii (firstn (snd sp - fst sp) (skipn (fst sp) s)).

Definition match_object (s : list ascii) (r : nat * list nat) : re_match :=
  mk_match (slice s (0, fst r)) (map (slice s) (spans (snd r))).

Definition group (m : re_match) (i : nat) : result string :=
  match i with
  | 0 => Ok (m_text m)
  | S j => match nth_error (m_groups m) j with
           | Some g => Ok g
           | None => Raise IndexError
           end
  end.

(** *** Scanning a string

    [finditer] tries every position from left to right and resumes after
    the end of each match; [skip] counts the characters of the last match
    that are still to be passed.  (After an empty match the scan resumes
    one character on; the program's patterns never match the empty
    string.) *)
Fixpoint finditer_from (re : regex) (prev : option ascii) (s : list ascii)
  (skip : nat) : list re_match :=
  match skip with
  | S skip' =>
      match s with
      | c :: s' => finditer_from re (Some c) s' skip'
      | [] => []
      end
  | 0 =>
      match match_here re prev s with
      | Some r =>
          match_object s r ::
          match s with
          | c :: s' => finditer_from re (Some c) s' (fst r - 1)
          | [] => []
          end
      | None =>
          match s with
          | c :: s' => finditer_from re (Some c) s' 0
          | [] => []
          end
      end
  end.

Fixpoint search_from (re : regex) (prev : option ascii) (s : list ascii)
  : option re_match :=
  match match_here re prev s with
  | Some r => Some (match_object s r)
  | None =>
      match s with
      | c :: s' => search_from re (Some c) s'
      | [] => None
      end
  end.

(** [re.finditer(pattern, string)] and [re.search(pattern, string)]. *)
Definition finditer (pattern text : string) : result (list re_match) :=
  re <- compile pattern ;;
  Ok (finditer_from re None (list_ascii_of_string text) 0).

Definition search (pattern text : string) : result (option re_match) :=
  re <- compile pattern ;;
  Ok (search_from re None (list_ascii_of_string text)).

End Re.

(* ------------------------------------------------------------------ *)
(** ** The program *)

Local Open Scope string_scope.

(** [str(n)] for a line number, as an f-string renders it. *)
Definition str (n : nat) : string :=
  DecimalString.NilEmpty.string_of_uint (Nat.to_uint n).

(** [enumerate(l, start)]. *)
Definition enumerate {A} (start : nat) (l : list A) : list (nat * A) :=
  combine (seq start (length l)) l.

Definition vector_access_pattern : string :=
  "\b([a-zA-Z_]\w*)\s*\[\s*(\d+)\s*\]".
Definition vector_at_pattern : string :=
  "\b([a-zA-Z_]\w*)\.at\s*\(\s*(\d+)\s*\)".
Definition vector_empty_check_pattern : string :=
  "\b([a-zA-Z_]\w*)\.empty\s*\(\s*\)".

(** The three messages. *)
Definition out_of_range_warning (vector_name index : string) (line_num : nat)
  : string :=
  "Warning: Potential out-of-range access using '" ++ vector_name ++ "["
  ++ index ++ "]' at line " ++ str line_num.

Definition safe_access_info (vector_name index : string) (line_num : nat)
  : string :=
  "Info: Safe access found using '" ++ vector_name ++ ".at(" ++ index
  ++ ")' at line " ++ str line_num.

Definition missing_empty_check_warning (vector : string) (line_num : nat)
  : string :=
  "Warning: No empty() check found before accessing '" ++ vector
  ++ "' at line " ++ str line_num.

(** The body of the loop of [check_vector_access] for one line. *)
Definition report_line (entry : nat * string) (issues : list string)
  : result (list string) :=
  let (line_num, line) := entry in
  access_matches <- Re.finditer vector_access_pattern line ;;
  issues <- for_each access_matches issues (fun m issues =>
    vector_name <- Re.group m 1 ;;
    index <- Re.group m 2 ;;
    Ok (issues ++ [out_of_range_warning vector_name index line_num])%list) ;;
  at_matches <- Re.finditer vector_at_pattern line ;;
  for_each at_matches issues (fun m issues =>
    vector_name <- Re.group m 1 ;;
    index <- Re.group m 2 ;;
    Ok (issues ++ [safe_access_info vector_name index line_num])%list).

Definition check_vector_access (file_lines : list string)
  : result (list string) :=
  for_each (enumerate 1 file_lines) [] report_line.

(** *** The set of accesses

    [vectors_accessed] is a Python [set] of (name, line) pairs.  Its
    content is kept in the order of first insertion; the order in which a
    [for] loop visits it is the interpreter's business (it follows the
    hashes of the elements, which change from one process to the next),
    so it is a parameter: any rearrangement of the content. *)
Definition access : Type := (string * nat)%type.

Definition access_eqb (a b : access) : bool :=
  String.eqb (fst a) (fst b) && Nat.eqb (snd a) (snd b).

Definition set_add (a : access) (s : list access) : list access :=
  if existsb (access_eqb a) s then s else (s ++ [a])%list.

Record set_order : Type := mk_set_order {
  set_iter : list access -> list access;
  set_iter_perm : forall s, Permutation (set_iter s) s
}.

(** The body of the first loop of [check_empty_before_access]. *)
Definition collect_line (entry : nat * string) (vectors_accessed : list access)
  : result (list access) :=
  let (line_num, line) := entry in
  access_matches <- Re.finditer vector_access_pattern line ;;
  vectors_accessed <- for_each access_matches vectors_accessed (fun m acc =>
    vector_name <- Re.group m 1 ;;
    Ok (set_add (vector_name, line_num) acc)) ;;
  at_matches <- Re.finditer vector_at_pattern line ;;
  for_each at_matches vectors_accessed (fun m acc =>
    vector_name <- Re.group m 1 ;;
    Ok (set_add (vector_name, line_num) acc)).

(** The pattern built by the f-string of the second loop. *)
Definition empty_check_pattern_for (vector : string) : string :=
  "\b" ++ vector ++ "\.empty\s*\(\s*\)".

(** [any(re.search(pattern, line) for line in file_lines)]. *)
Fixpoint any_search (pattern : string) (file_lines : list string)
  : result bool :=
  match file_lines with
  | [] => Ok false
  | line :: file_lines' =>
      found <- Re.search pattern line ;;
      match found with
      | Some _ => Ok true
      | None => any_search pattern file_lines'
      end
  end.

(** The body of the second loop. *)
Definition check_access (file_lines : list string) (a : access)
  (issues : list string) : result (list string) :=
  let (vector, line_num) := a in
  empty_check_found <- any_search (empty_check_pattern_for vector) file_lines ;;
  if negb empty_check_found
  then Ok (issues ++ [missing_empty_check_warning vector line_num])%list
  else Ok issues.

Definition check_empty_before_access (order : set_order)
  (file_lines : list string) : result (list string) :=
  vectors_accessed <- for_each (enumerate 1 file_lines) [] collect_line ;;
  for_each (set_iter order vectors_accessed) [] (check_access file_lines).

(** *** Reading and reporting

    [open] and [readlines] either raise or give the lines of the file;
    [print] adds one line to the standard output. *)
Definition filesystem : Type := string -> result (list string).

Definition print (line : string) (stdout : list string) : list string :=
  (stdout ++ [line])%list.

Definition analyze_cpp_file (order : set_order) (fs : filesystem)
  (file_path : string) (stdout : list string) : list string * result unit :=
  match fs file_path with
  | Raise e => (stdout, Raise e)
  | Ok file_lines =>
      match check_vector_access file_lines with
      | Raise e => (stdout, Raise e)
      | Ok issues1 =>
          match check_empty_before_access order file_lines with
          | Raise e => (stdout, Raise e)
          | Ok issues2 =>
              let issues := (issues1 ++ issues2)%list in
              if is_empty issues
              then (print ("No issues found in " ++ file_path) stdout, Ok tt)
              else
                (fold_left (fun out issue => print ("  " ++ issue) out) issues
                   (print ("Issues found in " ++ file_path ++ ":") stdout),
                 Ok tt)
          end
      end
  end.

(** *** What [open] and [readlines] raise

    A path holds text, or bytes that are not UTF-8 ([readlines] raises
    [UnicodeDecodeError]), or it cannot be opened or read at all (no such
    file, a directory, no permission: [open] raises [FileNotFoundError],
    [IsADirectoryError] or [PermissionError], which are all [OSError]). *)
Inductive file_content : Type :=
| NoAccess
| Undecodable
| Text (file_lines : list string).

(** [open(file_path, 'r', encoding='utf-8')] and [file.readlines()] on a
    disk that holds [disk file_path] under each path. *)
Definition open_readlines (disk : string -> file_content) : filesystem :=
  fun file_path =>
    match disk file_path with
    | NoAccess => Raise OSError
    | Undecodable => Raise UnicodeDecodeError
    | Text file_lines => Ok file_lines
    end.

(** [isinstance(e, IOError)].  [IOError] is another name of [OSError];
    [UnicodeDecodeError] derives from [ValueError], [IndexError] from
    [LookupError] and [re.error] from [Exception]. *)
Definition is_IOError (e : exn) : bool :=
  match e with
  | OSError => true
  | UnicodeDecodeError => false
  | IndexError => false
  | re_error => false
  end.

(** The insertion order itself is one possible order of iteration. *)
Definition insertion_order : set_order :=
  mk_set_order (fun s => s) (fun s => Permutation_refl s).

Definition reverse_order : set_order :=
  mk_set_order (@rev access) (fun s => Permutation_sym (Permutation_rev s)).

(** *** The walk over a directory

    [os.walk(top)] gives, for [top] and each directory below it, the path
    of the directory, the names of its subdirectories and the names of its
    files; what it gives is the business of the file system, so the walk
    is a parameter, as the content of the files is. *)
Definition walker : Type := string -> list (string * list string * list string).

(** [s.endswith(suffix)]: [suffix] is [s] or what remains of [s] after
    some of its first characters. *)
Fixpoint endswith (s suffix : string) : bool :=
  if String.eqb s suffix then true
  else
    match s with
    | String _ s' => endswith s' suffix
    | EmptyString => false
    end.

(** [b.startswith('/')]. *)
Definition starts_with_sep (b : string) : bool :=
  match b with
  | String c _ => Ascii.eqb c "/"
  | EmptyString => false
  end.

(** [os.path.join(a, b)] of [posixpath]. *)
Definition path_join (a b : string) : string :=
  if starts_with_sep b then b
  else if String.eqb a "" || endswith a "/" then a ++ b
  else a ++ "/" ++ b.

(** A [for] loop whose body prints and may raise: each turn goes on from
    the output of the one before, and the first exception ends the loop. *)
Fixpoint for_each_io {A} (l : list A)
  (body : A -> list string -> list string * result unit)
  (stdout : list string) : list string * result unit :=
  match l with
  | [] => (stdout, Ok tt)
  | x :: l' =>
      match body x stdout with
      | (stdout', Ok _) => for_each_io l' body stdout'
      | (stdout', Raise e) => (stdout', Raise e)
      end
  end.

Definition analyze_cpp_directory (order : set_order) (walk : walker)
  (fs : filesystem) (directory_path : string) (stdout : list string)
  : list string * result unit :=
  for_each_io (walk directory_path) (fun entry =>
    let '(root, _, files) := entry in
    for_each_io files (fun file out =>
      if endswith file ".cpp" || endswith file ".hpp" || endswith file ".h"
      then
        let file_path := path_join root file in
        analyze_cpp_file order fs file_path out
      else (out, Ok tt))) stdout.

(** The script run as a program. *)
Definition directory_to_analyze : string := "path_to_your_cpp_files".

Definition main (order : set_order) (walk : walker) (fs : filesystem)
  (stdout : list string) : list string * result unit :=
  analyze_cpp_directory order walk fs directory_to_analyze stdout.


(* ------------------------------------------------------------------ *)
(** ** The compiled patterns *)

Import Re.

(** [[a-zA-Z_]], the first character of an identifier. *)
Definition ident_start : charset :=
  CsRanges [("a", "z"); ("A", "Z"); ("_", "_")]%char.

Definition is_ident_start (c : ascii) : bool := in_charset ident_start c.

(** The word boundary and the captured identifier with which the three
    patterns begin. *)
Definition ident_head : regex :=
  [Boundary; GroupOpen; One ident_start; Star CsWord; GroupClose].

Definition lit (c : ascii) : node := One (CsChar c).

Definition access_tail : regex :=
  [Star CsSpace; lit "["; Star CsSpace; GroupOpen; Plus CsDigit; GroupClose;
   Star CsSpace; lit "]"].

Definition at_tail : regex :=
  [lit "."; lit "a"; lit "t"; Star CsSpace; lit "("; Star CsSpace; GroupOpen;
   Plus CsDigit; GroupClose; Star CsSpace; lit ")"].

Definition empty_tail : regex :=
  [lit "."; lit "e"; lit "m"; lit "p"; lit "t"; lit "y"; Star CsSpace;
   lit "("; Star CsSpace; lit ")"].

Definition access_re : regex := (ident_head ++ access_tail)%list.
Definition at_re : regex := (ident_head ++ at_tail)%list.
Definition empty_re : regex := (ident_head ++ empty_tail)%list.

(** The pattern of the second loop for a name made of word characters. *)
Definition empty_re_for (name : list ascii) : regex :=
  (Boundary :: map lit name ++ empty_tail)%list.

(** ** Vocabulary of the statements *)

(** An identifier as the patterns capture it: a letter or underscore,
    then word characters. *)
Definition identifier (name : list ascii) : bool :=
  match name with
  | c :: name' => is_ident_start c && forallb is_word name'
  | [] => false
  end.

Definition valid_identifier (name : string) : Prop :=
  identifier (list_ascii_of_string name) = true.

(** A possibly empty run of whitespace, [\s*]. *)
Definition whitespace (ws : string) : Prop :=
  forallb is_space (list_ascii_of_string ws) = true.

(** A non-empty run of whitespace. *)
Definition blank (ws : string) : Prop :=
  match list_ascii_of_string ws with
  | c :: ws' => is_space c && forallb is_space ws'
  | [] => false
  end = true.

(** A literal decimal index, [\d+]. *)
Definition decimal (idx : string) : Prop :=
  match list_ascii_of_string idx with
  | d :: ds => is_digit d && forallb is_digit ds
  | [] => false
  end = true.

(** Whether [e] is a decimal index with optional whitespace around it,
    which is what the patterns accept between the brackets. *)
Definition literal_index (e : string) : bool :=
  match drop_while is_space (list_ascii_of_string e) with
  | d :: s =>
      is_digit d && is_empty (drop_while is_space (drop_while is_digit s))
  | [] => false
  end.

(** The text does not end in a word character: an identifier that
    follows it begins at a word boundary. *)
Definition ends_outside_word (pre : string) : Prop :=
  word_before (last_char None (list_ascii_of_string pre)) = false.

(** The character [c] does not occur in [s]. *)
Definition lacks (c : ascii) (s : string) : Prop :=
  forallb (fun x => negb (Ascii.eqb c x)) (list_ascii_of_string s) = true.

(** Groups 1 and 2 of a match of an access pattern. *)
Definition name_of (m : re_match) : string := nth 0 (m_groups m) "".
Definition index_of (m : re_match) : string := nth 1 (m_groups m) "".

(** The matches of the two access patterns on a line. *)
Definition accesses (line : string) : list re_match :=
  finditer_from access_re None (list_ascii_of_string line) 0.

Definition at_accesses (line : string) : list re_match :=
  finditer_from at_re None (list_ascii_of_string line) 0.

(** The occurrences of the [EmptyCheck] pattern on a line. *)
Definition empty_checks (line : string) : list re_match :=
  finditer_from empty_re None (list_ascii_of_string line) 0.

(** What [report_line] adds for one line. *)
Definition line_issues (entry : nat * string) : list string :=
  (map (fun m => out_of_range_warning (name_of m) (index_of m) (fst entry))
     (accesses (snd entry))
   ++ map (fun m => safe_access_info (name_of m) (index_of m) (fst entry))
     (at_accesses (snd entry)))%list.

(** The accesses of one line, in the order [collect_line] meets them. *)
Definition line_accesses (entry : nat * string) : list access :=
  map (fun m => (name_of m, fst entry))
    (accesses (snd entry) ++ at_accesses (snd entry))%list.

(** The content of [vectors_accessed] after the first loop. *)
Definition collected (file_lines : list string) : list access :=
  fold_left (fun acc a => set_add a acc)
    (flat_map line_accesses (enumerate 1 file_lines)) [].

(** Whether the second loop finds an empty check for [vector]. *)
Definition empty_check_found (file_lines : list string) (vector : string)
  : bool :=
  existsb (fun line =>
    succeeds_search (search_from (empty_re_for (list_ascii_of_string vector))
                       None (list_ascii_of_string line))) file_lines.


(* ------------------------------------------------------------------ *)
(** ** The two passes and the report as functions

    The passes never raise (this is proved below), so each of them is a
    plain function of the lines; these are the functions. *)

(** The out-of-range warnings of a line. *)
Definition warnings (line_num : nat) (line : string) : list string :=
  map (fun m => out_of_range_warning (name_of m) (index_of m) line_num)
    (accesses line).

(** The safe-access informations of a line. *)
Definition infos (line_num : nat) (line : string) : list string :=
  map (fun m => safe_access_info (name_of m) (index_of m) line_num)
    (at_accesses line).

(** The issues of the lines numbered from [start]. *)
Definition issues_from (start : nat) (file_lines : list string) : list string :=
  flat_map line_issues (enumerate start file_lines).

Definition first_pass (file_lines : list string) : list string :=
  issues_from 1 file_lines.

Definition add_access (acc : list access) (a : access) : list access :=
  set_add a acc.

(** No line has an empty check for the name of the access. *)
Definition unchecked (file_lines : list string) (a : access) : bool :=
  negb (empty_check_found file_lines (fst a)).

Definition missing (a : access) : string :=
  missing_empty_check_warning (fst a) (snd a).

Definition second_pass (order : set_order) (file_lines : list string)
  : list string :=
  map missing (filter (unchecked file_lines)
                 (set_iter order (collected file_lines))).

Definition indent (issue : string) : string := "  " ++ issue.

(** What [analyze_cpp_file] prints for a list of issues. *)
Definition report (file_path : string) (issues : list string) : list string :=
  if is_empty issues then ["No issues found in " ++ file_path]
  else ("Issues found in " ++ file_path ++ ":") :: map indent issues.

(** ** Notions about patterns and texts *)

(** A run of [p] followed by something that does not begin with [p]. *)
Definition stops (p : ascii -> bool) (s : list ascii) : Prop :=
  match s with
  | c :: _ => p c = false
  | [] => True
  end.

(** The number of group boundaries of a pattern. *)
Fixpoint group_marks (re : regex) : nat :=
  match re with
  | [] => 0
  | GroupOpen :: re' => S (group_marks re')
  | GroupClose :: re' => S (group_marks re')
  | _ :: re' => group_marks re'
  end.

(** [avoids t re]: no node of [re] accepts the character [t], and [re]
    does not look at word boundaries. *)
Definition avoids (t : ascii) (re : regex) : bool :=
  forallb (fun n =>
    match n with
    | Boundary => false
    | GroupOpen => true
    | GroupClose => true
    | One cs => negb (in_charset cs t)
    | Star cs => negb (in_charset cs t)
    | Plus cs => negb (in_charset cs t)
    end) re.

(** A pattern that does not look at word boundaries. *)
Definition plain (re : regex) : bool :=
  forallb (fun n => match n with Boundary => false | _ => true end) re.

(** Whitespace, an opening bracket, the index and the closing bracket:
    the part that the two access patterns share. *)
Definition bracket_tail (o c : ascii) : regex :=
  [Star CsSpace; lit o; Star CsSpace; GroupOpen; Plus CsDigit; GroupClose;
   Star CsSpace; lit c].

(** [reaches prev s prev' s']: [s'] is what remains of [s] at some
    position, and [prev'] the character before that position. *)
Inductive reaches : option ascii -> list ascii -> option ascii -> list ascii -> Prop :=
| reach_here prev s : reaches prev s prev s
| reach_next prev c s prev' s' :
    reaches (Some c) s prev' s' -> reaches prev (c :: s) prev' s'.

(** What stands between the brackets is not a decimal index. *)
Definition not_literal (e : list ascii) : Prop :=
  forall ws2 d ds ws3,
    forallb is_space ws2 = true -> is_digit d = true ->
    forallb is_digit ds = true -> forallb is_space ws3 = true ->
    e <> (ws2 ++ d :: ds ++ ws3)%list.

Definition open_bracket : ascii := "["%char.

Definition close_bracket : ascii := "]"%char.

(** The character that encloses the name in the messages. *)
Definition quote : ascii := "'"%char.

(** ** What the statements speak of *)

(** Some match of one of the two access patterns on line [n] captures
    [name]. *)
Definition accessed_on (file_lines : list string) (name : string) (n : nat)
  : Prop :=
  exists line ms1 ms2 m,
    1 <= n /\ nth_error file_lines (n - 1) = Some line
    /\ Re.finditer vector_access_pattern line = Ok ms1
    /\ Re.finditer vector_at_pattern line = Ok ms2
    /\ In m (ms1 ++ ms2)%list /\ Re.group m 1 = Ok name.

(** The line has an occurrence of the [EmptyCheck] pattern that captures
    [name]. *)
Definition has_empty_check (line name : string) : Prop :=
  exists ms m,
    Re.finditer vector_empty_check_pattern line = Ok ms
    /\ In m ms /\ Re.group m 1 = Ok name.

(** The line of the end-to-end example of the specification. *)
Definition example_line : string :=
  "std::vector<int> v; if (!v.empty()) { x = v.at(0); y = v[2]; }".

Definition newline : string := String "010"%char "".

(** The one-line file of the example, as [readlines] gives it, with or
    without a line terminator. *)
Definition example_file (terminated : bool) : list string :=
  [if terminated then example_line ++ newline else example_line].

(** Lines with unmatched or malformed brackets. *)
Definition malformed_lines : list string :=
  [""; "]["; "v[("; "x.at(]"; "v[3"; "w.at(3"; "v[]"; "u.at()"; "[3]"].

(** ** Tactics *)

(** A fact about one character, checked on each of the 256. *)
Ltac each_char c :=
  destruct c as [[|] [|] [|] [|] [|] [|] [|] [|]];
  vm_compute; intros; solve [reflexivity | discriminate | congruence].

Ltac lengths := simpl; repeat (rewrite length_app; simpl); lia.

Ltac right_nested := simpl; repeat (rewrite <- app_assoc; simpl); try reflexivity.

(** ** The walk, seen from outside *)

(** The test of [analyze_cpp_directory] on the name of a file. *)
Definition is_cpp_source (file : string) : bool :=
  endswith file ".cpp" || endswith file ".hpp" || endswith file ".h".

(** The paths of the files that the walk hands to [analyze_cpp_file], in
    the order of the walk. *)
Definition selected (walk : walker) (directory_path : string) : list string :=
  flat_map (fun entry : string * list string * list string =>
              let '(root, _, files) := entry in
              map (path_join root) (filter is_cpp_source files))
    (walk directory_path).

(** What [analyze_cpp_file] prints for one file when nothing was printed
    before. *)
Definition file_report (order : set_order) (fs : filesystem)
  (file_path : string) : list string :=
  fst (analyze_cpp_file order fs file_path []).

Definition readable (fs : filesystem) (file_path : string) : Prop :=
  exists file_lines, fs file_path = Ok file_lines.

(** A directory with a subdirectory, for the examples: two sources and a
    text file in [src], one header in [src/sub]. *)
Definition example_walk : walker :=
  fun _ =>
    [("src", ["sub"], ["a.cpp"; "notes.txt"; "b.h"]);
     ("src/sub", [], ["c.hpp"])].

Definition example_fs : filesystem :=
  fun file_path =>
    if String.eqb file_path "src/a.cpp" then Ok ["x = v[0];"]
    else if String.eqb file_path "src/b.h" then Ok []
    else if String.eqb file_path "src/sub/c.hpp"
         then Ok ["if (!w.empty())"; "  y = w.at(1);"]
    else Raise OSError.

(** The same directory when [notes.txt] can be read too. *)
Definition example_fs_notes : filesystem :=
  fun file_path =>
    if String.eqb file_path "src/notes.txt" then Ok ["see v[0]"]
    else example_fs file_path.

(** The same directory when [b.h] is not valid UTF-8. *)
Definition example_fs_broken : filesystem :=
  fun file_path =>
    if String.eqb file_path "src/b.h" then Raise UnicodeDecodeError
    else example_fs file_path.

(* ------------------------------------------------------------------ *)
(** * Properties *)

(** ** The error monad and loops *)

(** A loop whose body never raises is a left fold. *)
Lemma for_each_pure {A S} (l : list A) (st : S) body (f : S -> A -> S) :
  (forall x st', In x l -> body x st' = Ok (f st' x)) ->
  for_each l st body = Ok (fold_left f l st).
Proof.
  revert st; induction l as [|x l IH]; intros st Hb; simpl; [reflexivity|].
  rewrite Hb by (left; reflexivity); simpl.
  apply IH; intros; apply Hb; right; assumption.
Qed.

Lemma fold_left_snoc {A B} (g : A -> B) (l : list A) (acc : list B) :
  fold_left (fun acc x => (acc ++ [g x])%list) l acc = (acc ++ map g l)%list.
Proof.
  revert acc; induction l as [|x l IH]; intros acc; simpl.
  - rewrite app_nil_r; reflexivity.
  - rewrite IH, <- app_assoc; reflexivity.
Qed.

Lemma fold_left_append {A B} (g : A -> list B) (l : list A) (acc : list B) :
  fold_left (fun acc x => (acc ++ g x)%list) l acc = (acc ++ flat_map g l)%list.
Proof.
  revert acc; induction l as [|x l IH]; intros acc; simpl.
  - rewrite app_nil_r; reflexivity.
  - rewrite IH, <- app_assoc; reflexivity.
Qed.

(** ** Strings and lists of characters *)

Lemma chars_app (a b : string) :
  list_ascii_of_string (a ++ b) =
  (list_ascii_of_string a ++ list_ascii_of_string b)%list.
Proof. induction a as [|c a IH]; simpl; [reflexivity | rewrite IH; reflexivity]. Qed.

Lemma chars_inj (a b : string) :
  list_ascii_of_string a = list_ascii_of_string b -> a = b.
Proof.
  intros H. rewrite <- (string_of_list_ascii_of_string a),
    <- (string_of_list_ascii_of_string b), H. reflexivity.
Qed.

(** ** Characters *)

Lemma in_all_chars (c : ascii) : In c all_chars.
Proof.
  unfold all_chars. rewrite <- (ascii_nat_embedding c).
  apply in_map, in_seq. pose proof (nat_ascii_bounded c). lia.
Qed.

Lemma disjoint_sound cs cs' c :
  disjoint cs cs' = true -> in_charset cs c = true -> in_charset cs' c = false.
Proof.
  unfold disjoint; intros H Hc.
  rewrite forallb_forall in H. specialize (H c (in_all_chars c)).
  rewrite Hc in H. simpl in H. destruct (in_charset cs' c); [discriminate|reflexivity].
Qed.

Lemma ident_start_word c : is_ident_start c = true -> is_word c = true.
Proof. revert c; intros c; each_char c. Qed.

Lemma space_not_word c : is_space c = true -> is_word c = false.
Proof. each_char c. Qed.

Lemma digit_not_space c : is_digit c = true -> is_space c = false.
Proof. each_char c. Qed.

(** ** The matcher *)

Lemma take_drop p s : (take_while p s ++ drop_while p s)%list = s.
Proof.
  induction s as [|c s IH]; simpl; [reflexivity|].
  destruct (p c); simpl; [rewrite IH|]; reflexivity.
Qed.

Lemma take_while_all p s : forallb p (take_while p s) = true.
Proof.
  induction s as [|c s IH]; simpl; [reflexivity|].
  destruct (p c) eqn:E; simpl; [rewrite E, IH|]; reflexivity.
Qed.

Lemma take_while_run p w s :
  forallb p w = true -> stops p s -> take_while p (w ++ s)%list = w.
Proof.
  intros Hw Hs; induction w as [|c w IH]; simpl in *.
  - destruct s as [|d s]; simpl in *; [reflexivity | rewrite Hs; reflexivity].
  - apply andb_prop in Hw as [Hc Hw]. rewrite Hc, IH by assumption. reflexivity.
Qed.

Lemma drop_while_run p w s :
  forallb p w = true -> stops p s -> drop_while p (w ++ s)%list = s.
Proof.
  intros Hw Hs; induction w as [|c w IH]; simpl in *.
  - destruct s as [|d s]; simpl in *; [reflexivity | rewrite Hs; reflexivity].
  - apply andb_prop in Hw as [Hc Hw]. rewrite Hc. apply IH; assumption.
Qed.

Lemma last_char_app prev a b :
  last_char prev (a ++ b)%list = last_char (last_char prev a) b.
Proof. revert prev; induction a as [|c a IH]; intros prev; simpl; [reflexivity | apply IH]. Qed.

(** Greedy repetition without a way back. *)
Lemma star_det p (k : cont) :
  (forall prev c s pos, p c = true -> k prev (c :: s) pos = None) ->
  forall s prev pos,
    star p k prev s pos =
    k (last_char prev (take_while p s)) (drop_while p s)
      (pos + List.length (take_while p s)).
Proof.
  intros Hk s; induction s as [|c s IH]; intros prev pos; simpl.
  - rewrite Nat.add_0_r; reflexivity.
  - destruct (p c) eqn:Hc; simpl.
    + rewrite IH, Nat.add_succ_r; simpl.
      destruct (k _ _ _) eqn:E; [reflexivity|].
      apply Hk; assumption.
    + rewrite Nat.add_0_r; reflexivity.
Qed.

Lemma rejects_sound cs re :
  rejects cs re = true ->
  forall marks prev c s pos,
    in_charset cs c = true -> match_nodes re marks prev (c :: s) pos = None.
Proof.
  induction re as [|n re IH]; simpl; [discriminate|].
  destruct n; intros H marks prev c s pos Hc; simpl.
  - discriminate.
  - apply IH; assumption.
  - apply IH; assumption.
  - rewrite (disjoint_sound _ _ _ H Hc); reflexivity.
  - apply andb_prop in H as [Hd Hr].
    rewrite (disjoint_sound _ _ _ Hd Hc). apply IH; assumption.
  - rewrite (disjoint_sound _ _ _ H Hc); reflexivity.
Qed.

(** On a deterministic pattern the backtracking matcher and its
    deterministic reading agree. *)
Lemma det_correct re :
  deterministic re = true ->
  forall marks prev s pos,
    match_nodes re marks prev s pos = match_det re marks prev s pos.
Proof.
  induction re as [|n re IH]; simpl; [reflexivity|].
  destruct n; intros H marks prev s pos.
  - destruct (at_boundary prev s); [apply IH; assumption | reflexivity].
  - apply IH; assumption.
  - apply IH; assumption.
  - destruct s as [|c s]; [reflexivity|].
    destruct (in_charset cs c); [apply IH; assumption | reflexivity].
  - apply andb_prop in H as [Hr Hd].
    rewrite star_det.
    + apply IH; assumption.
    + intros; eapply rejects_sound; eassumption.
  - apply andb_prop in H as [Hr Hd].
    destruct s as [|c s]; [reflexivity|].
    destruct (in_charset cs c); [|reflexivity].
    rewrite star_det.
    + apply IH; assumption.
    + intros; eapply rejects_sound; eassumption.
Qed.

(** ** Compiling the program's patterns *)

Lemma compile_access : compile vector_access_pattern = Ok access_re.
Proof. reflexivity. Qed.

Lemma compile_at : compile vector_at_pattern = Ok at_re.
Proof. reflexivity. Qed.

Lemma compile_empty : compile vector_empty_check_pattern = Ok empty_re.
Proof. reflexivity. Qed.

Lemma steps_app st a b :
  steps st (a ++ b)%list =
  match steps st a with
  | Some st' => steps st' b
  | None => None
  end.
Proof.
  revert st; induction a as [|c a IH]; intros st; simpl; [reflexivity|].
  destruct (step st c); [apply IH | reflexivity].
Qed.

(** A word character is not a metacharacter: it stands for itself. *)
Lemma step_word ns o c :
  is_word c = true ->
  step (mk_pstate InPattern ns o) c = Some (mk_pstate InPattern (lit c :: ns) o).
Proof.
  destruct c as [[|] [|] [|] [|] [|] [|] [|] [|]];
    vm_compute; intros; solve [reflexivity | discriminate].
Qed.

Lemma steps_word name ns o :
  forallb is_word name = true ->
  steps (mk_pstate InPattern ns o) name =
  Some (mk_pstate InPattern (rev (map lit name) ++ ns)%list o).
Proof.
  revert ns; induction name as [|c name IH]; intros ns H; simpl in *; [reflexivity|].
  apply andb_prop in H as [Hc H].
  rewrite (step_word ns o c Hc), IH by assumption.
  rewrite <- app_assoc; reflexivity.
Qed.

(** The pattern of the second loop compiles for every name made of word
    characters, to the name taken literally. *)
Lemma compile_for (vector : string) :
  forallb is_word (list_ascii_of_string vector) = true ->
  compile (empty_check_pattern_for vector) =
  Ok (empty_re_for (list_ascii_of_string vector)).
Proof.
  intros H. unfold compile, empty_check_pattern_for.
  rewrite !chars_app, steps_app.
  change (steps _ (list_ascii_of_string "\b"))
    with (Some (mk_pstate InPattern [Boundary] false)).
  cbv iota. rewrite steps_app, (steps_word _ [Boundary] false H).
  remember (rev (map lit (list_ascii_of_string vector)) ++ [Boundary])%list
    as ns eqn:Hns.
  change (steps (mk_pstate InPattern ns false)
            (list_ascii_of_string "\.empty\s*\(\s*\)"))
    with (Some (mk_pstate InPattern (rev empty_tail ++ ns)%list false)).
  cbv iota. unfold finish; simpl p_mode; simpl p_open; cbv iota.
  unfold p_nodes. rewrite Hns.
  rewrite !rev_app_distr, !rev_involutive. reflexivity.
Qed.

(** ** Results of the matcher *)

Lemma length_take_drop p s :
  List.length (take_while p s) + List.length (drop_while p s) = List.length s.
Proof. rewrite <- (take_drop p s) at 3. rewrite length_app. reflexivity. Qed.

(** A match reports the marks it was given, then one mark for each group
    boundary of the pattern, and ends within the text. *)
Lemma match_det_result re :
  forall marks prev s pos p ms,
    match_det re marks prev s pos = Some (p, ms) ->
    (exists extra, ms = (rev marks ++ extra)%list
                   /\ List.length extra = group_marks re)
    /\ pos <= p <= pos + List.length s.
Proof.
  induction re as [|n re IH]; intros marks prev s pos p ms H; simpl in H.
  - injection H as <- <-. split; [|lia].
    exists []; rewrite app_nil_r; split; reflexivity.
  - destruct n.
    + destruct (at_boundary prev s); [|discriminate]. apply (IH _ _ _ _ _ _ H).
    + destruct (IH _ _ _ _ _ _ H) as [[extra [-> He]] Hp]. split; [|assumption].
      exists (pos :: extra); simpl; rewrite <- app_assoc, He; split; reflexivity.
    + destruct (IH _ _ _ _ _ _ H) as [[extra [-> He]] Hp]. split; [|assumption].
      exists (pos :: extra); simpl; rewrite <- app_assoc, He; split; reflexivity.
    + destruct s as [|c s]; [discriminate|].
      destruct (in_charset cs c); [|discriminate].
      destruct (IH _ _ _ _ _ _ H) as [He Hp]. split; [exact He | simpl; lia].
    + destruct (IH _ _ _ _ _ _ H) as [He Hp]. split; [exact He|].
      pose proof (length_take_drop (in_charset cs) s). simpl in *; lia.
    + destruct s as [|c s]; [discriminate|].
      destruct (in_charset cs c); [|discriminate].
      destruct (IH _ _ _ _ _ _ H) as [He Hp]. split; [exact He|].
      pose proof (length_take_drop (in_charset cs) s). simpl in *; lia.
Qed.

(** The head of the three patterns: a boundary, then the longest
    identifier. *)
Lemma head_det tail marks prev s pos :
  match_det (ident_head ++ tail)%list marks prev s pos =
  if at_boundary prev s then
    match s with
    | c :: s1 =>
        if is_ident_start c then
          let w := take_while is_word s1 in
          match_det tail (S pos + List.length w :: pos :: marks)
            (last_char (Some c) w) (drop_while is_word s1)
            (S pos + List.length w)
        else None
    | [] => None
    end
  else None.
Proof. reflexivity. Qed.

Lemma deterministic_access : deterministic access_re = true.
Proof. reflexivity. Qed.

Lemma deterministic_at : deterministic at_re = true.
Proof. reflexivity. Qed.

Lemma deterministic_empty : deterministic empty_re = true.
Proof. reflexivity. Qed.

Lemma deterministic_for name : deterministic (empty_re_for name) = true.
Proof.
  unfold empty_re_for; simpl. induction name as [|c name IH]; [reflexivity | exact IH].
Qed.

Lemma match_here_det re prev s :
  deterministic re = true -> match_here re prev s = match_det re [] prev s 0.
Proof. intros H; apply det_correct; assumption. Qed.

(** Every match that [finditer] reports comes from one attempt. *)
Lemma finditer_in re m :
  forall s prev skip,
    In m (finditer_from re prev s skip) ->
    exists prev' s' r, match_here re prev' s' = Some r /\ m = match_object s' r.
Proof.
  induction s as [|c s IH]; intros prev skip H.
  - destruct skip; simpl in H; [|contradiction].
    destruct (match_here re prev []) eqn:E; [|contradiction].
    destruct H as [<-|[]]. eauto.
  - destruct skip; simpl in H; [|eapply IH; eassumption].
    destruct (match_here re prev (c :: s)) eqn:E.
    + destruct H as [<-|H]; [eauto | eapply IH; eassumption].
    + eapply IH; eassumption.
Qed.

Lemma firstn_take_while p s :
  firstn (List.length (take_while p s)) s = take_while p s.
Proof.
  induction s as [|c s IH]; simpl; [reflexivity|].
  destruct (p c); simpl; [rewrite IH|]; reflexivity.
Qed.

(** A successful attempt of a pattern that begins with the head. *)
Lemma head_match tail prev s L ms :
  match_det (ident_head ++ tail)%list [] prev s 0 = Some (L, ms) ->
  exists c s1 extra,
    s = c :: s1 /\ is_ident_start c = true /\ at_boundary prev s = true
    /\ ms = 0 :: S (List.length (take_while is_word s1)) :: extra
    /\ List.length extra = group_marks tail
    /\ match_det tail [S (List.length (take_while is_word s1)); 0]
         (last_char (Some c) (take_while is_word s1))
         (drop_while is_word s1) (S (List.length (take_while is_word s1)))
       = Some (L, ms).
Proof.
  rewrite head_det. intros H.
  destruct (at_boundary prev s) eqn:Hb; [|discriminate].
  destruct s as [|c s1]; [discriminate|].
  destruct (is_ident_start c) eqn:Hc; [|discriminate].
  cbv zeta in H.
  destruct (match_det_result _ _ _ _ _ _ _ H) as [[extra [-> He]] _].
  exists c, s1, extra. repeat split; assumption.
Qed.

Lemma name_of_head s L n extra :
  name_of (match_object s (L, 0 :: n :: extra)) =
  string_of_list_ascii (firstn n s).
Proof.
  unfold name_of, match_object, slice; simpl. rewrite Nat.sub_0_r. reflexivity.
Qed.

(** The name captured by the head is an identifier. *)
Lemma head_name tail prev s r m :
  deterministic (ident_head ++ tail)%list = true ->
  match_here (ident_head ++ tail)%list prev s = Some r ->
  m = match_object s r ->
  exists c s1,
    s = c :: s1 /\ is_ident_start c = true /\ at_boundary prev s = true
    /\ name_of m = string_of_list_ascii (c :: take_while is_word s1)
    /\ group m 1 = Ok (name_of m).
Proof.
  intros Hd H ->. rewrite match_here_det in H by assumption.
  destruct r as [L ms].
  destruct (head_match _ _ _ _ _ H) as (c & s1 & extra & -> & Hc & Hb & -> & He & _).
  exists c, s1. repeat split; try assumption.
  rewrite name_of_head. simpl. rewrite firstn_take_while. reflexivity.
Qed.

(** A pattern with two groups gives match objects with groups 1 and 2. *)
Lemma head_index tail prev s r m :
  deterministic (ident_head ++ tail)%list = true ->
  group_marks tail = 2 ->
  match_here (ident_head ++ tail)%list prev s = Some r ->
  m = match_object s r ->
  group m 2 = Ok (index_of m).
Proof.
  intros Hd Hg H ->. rewrite match_here_det in H by assumption.
  destruct r as [L ms].
  destruct (head_match _ _ _ _ _ H) as (c & s1 & extra & -> & Hc & Hb & -> & He & _).
  rewrite Hg in He.
  destruct extra as [|a [|b [|x extra]]]; try discriminate. reflexivity.
Qed.

Lemma identifier_word name : identifier name = true -> forallb is_word name = true.
Proof.
  destruct name as [|c name]; simpl; [discriminate|]. intros H.
  apply andb_prop in H as [Hc H]. rewrite (ident_start_word _ Hc), H. reflexivity.
Qed.

Lemma head_name_valid tail s prev skip m :
  deterministic (ident_head ++ tail)%list = true ->
  In m (finditer_from (ident_head ++ tail)%list prev s skip) ->
  valid_identifier (name_of m) /\ group m 1 = Ok (name_of m).
Proof.
  intros Hd H. destruct (finditer_in _ _ _ _ _ H) as (prev' & s' & r & Hm & ->).
  destruct (head_name _ _ _ _ _ Hd Hm eq_refl) as (c & s1 & -> & Hc & _ & Hn & Hg).
  split; [|assumption].
  unfold valid_identifier. rewrite Hn, list_ascii_of_string_of_list_ascii.
  simpl. rewrite Hc, take_while_all. reflexivity.
Qed.

Lemma head_index_ok tail s prev skip m :
  deterministic (ident_head ++ tail)%list = true ->
  group_marks tail = 2 ->
  In m (finditer_from (ident_head ++ tail)%list prev s skip) ->
  group m 2 = Ok (index_of m).
Proof.
  intros Hd Hg H. destruct (finditer_in _ _ _ _ _ H) as (prev' & s' & r & Hm & ->).
  eapply head_index; eauto.
Qed.

(** ** The first pass as a function *)

Lemma finditer_access line :
  Re.finditer vector_access_pattern line = Ok (accesses line).
Proof. unfold Re.finditer. rewrite compile_access. reflexivity. Qed.

Lemma finditer_at line : Re.finditer vector_at_pattern line = Ok (at_accesses line).
Proof. unfold Re.finditer. rewrite compile_at. reflexivity. Qed.

Lemma finditer_empty line :
  Re.finditer vector_empty_check_pattern line = Ok (empty_checks line).
Proof. unfold Re.finditer. rewrite compile_empty. reflexivity. Qed.

Lemma accesses_groups line m :
  In m (accesses line) ->
  valid_identifier (name_of m) /\ group m 1 = Ok (name_of m)
  /\ group m 2 = Ok (index_of m).
Proof.
  intros H. destruct (head_name_valid access_tail _ _ _ _ deterministic_access H).
  repeat split; try assumption.
  eapply (head_index_ok access_tail); eauto.
Qed.

Lemma at_accesses_groups line m :
  In m (at_accesses line) ->
  valid_identifier (name_of m) /\ group m 1 = Ok (name_of m)
  /\ group m 2 = Ok (index_of m).
Proof.
  intros H. destruct (head_name_valid at_tail _ _ _ _ deterministic_at H).
  repeat split; try assumption.
  eapply (head_index_ok at_tail); eauto.
Qed.

Lemma report_line_eq n line issues :
  report_line (n, line) issues =
  Ok (issues ++ warnings n line ++ infos n line)%list.
Proof.
  unfold report_line. rewrite finditer_access, finditer_at. simpl.
  rewrite (for_each_pure (accesses line) issues _
             (fun acc m => (acc ++ [out_of_range_warning (name_of m) (index_of m) n])%list)).
  - simpl.
    rewrite (for_each_pure (at_accesses line) _ _
               (fun acc m => (acc ++ [safe_access_info (name_of m) (index_of m) n])%list)).
    + rewrite !fold_left_snoc, <- app_assoc. reflexivity.
    + intros m st Hm. destruct (at_accesses_groups _ _ Hm) as (_ & H1 & H2).
      simpl in H1, H2. rewrite H1. simpl. rewrite H2. reflexivity.
  - intros m st Hm. destruct (accesses_groups _ _ Hm) as (_ & H1 & H2).
    simpl in H1, H2. rewrite H1. simpl. rewrite H2. reflexivity.
Qed.

Lemma report_lines_eq entries issues :
  for_each entries issues report_line =
  Ok (issues ++ flat_map line_issues entries)%list.
Proof.
  rewrite (for_each_pure entries issues report_line
             (fun acc e => (acc ++ line_issues e)%list)).
  - rewrite fold_left_append. reflexivity.
  - intros [n line] st _. apply report_line_eq.
Qed.

(** [check_vector_access] never raises: it is the concatenation of the
    issues of the lines. *)
Lemma check_vector_access_eq file_lines :
  check_vector_access file_lines =
  Ok (flat_map line_issues (enumerate 1 file_lines)).
Proof. unfold check_vector_access. rewrite report_lines_eq. reflexivity. Qed.

(** The scanner on a few lines, as the interpreter's [re] answers them. *)
Example first_pass_examples :
  check_vector_access
    ["v [3]"; "v. at(3)"; "1v[3]"; "xv[3]"; "v[i]"; "v[x+1]"; "v .at(3)";
     "v.at (3)"; "v[ 3 ]"; "a.empty.empty()"; "v[0] v[1] w.at(2)"] =
  Ok ["Warning: Potential out-of-range access using 'v[3]' at line 1";
      "Warning: Potential out-of-range access using 'xv[3]' at line 4";
      "Info: Safe access found using 'v.at(3)' at line 8";
      "Warning: Potential out-of-range access using 'v[3]' at line 9";
      "Warning: Potential out-of-range access using 'v[0]' at line 11";
      "Warning: Potential out-of-range access using 'v[1]' at line 11";
      "Info: Safe access found using 'w.at(2)' at line 11"].
Proof. reflexivity. Qed.

Example empty_check_examples :
  Re.finditer vector_empty_check_pattern "a.empty.empty()" =
    Ok [mk_match "empty.empty()" ["empty"]]
  /\ Re.finditer vector_empty_check_pattern "if (!v.empty ( ))" =
    Ok [mk_match "v.empty ( )" ["v"]].
Proof. split; reflexivity. Qed.

(** ** The second pass as a function *)

Lemma access_eqb_eq a b : access_eqb a b = true <-> a = b.
Proof.
  destruct a as [x n], b as [y k]; unfold access_eqb; simpl.
  rewrite andb_true_iff, String.eqb_eq, Nat.eqb_eq.
  split; [intros [-> ->]; reflexivity | intros H; injection H; auto].
Qed.

Lemma set_add_in a b s : In a (set_add b s) <-> a = b \/ In a s.
Proof.
  unfold set_add. destruct (existsb (access_eqb b) s) eqn:E.
  - split; [auto|]. intros [->|H]; [|assumption].
    apply existsb_exists in E as (x & Hx & Hbx).
    apply access_eqb_eq in Hbx as ->. assumption.
  - rewrite in_app_iff; simpl. intuition congruence.
Qed.

Lemma set_add_nodup b s : NoDup s -> NoDup (set_add b s).
Proof.
  intros H. unfold set_add. destruct (existsb (access_eqb b) s) eqn:E; [assumption|].
  apply NoDup_app; [assumption | repeat constructor; intros [] | ].
  intros x Hx [Hbx|[]]. subst x.
  assert (existsb (access_eqb b) s = true); [|congruence].
  apply existsb_exists. exists b; split; [assumption | apply access_eqb_eq; reflexivity].
Qed.

Lemma fold_add_in l : forall acc a,
  In a (fold_left add_access l acc) <-> In a acc \/ In a l.
Proof.
  induction l as [|b l IH]; intros acc a; simpl; [tauto|].
  rewrite IH. unfold add_access at 1. rewrite set_add_in. intuition congruence.
Qed.

Lemma fold_add_nodup l : forall acc, NoDup acc -> NoDup (fold_left add_access l acc).
Proof.
  induction l as [|b l IH]; intros acc H; simpl; [assumption|].
  apply IH, set_add_nodup, H.
Qed.

Lemma fold_left_map {S B C} (view : C -> B) (step : S -> B -> S) items :
  forall st : S,
    fold_left step (map view items) st =
    fold_left (fun st' item => step st' (view item)) items st.
Proof. induction items as [|x items IH]; intros st; simpl; [reflexivity | apply IH]. Qed.

Lemma fold_left_flat_map {A B C} (f : A -> B -> A) (g : C -> list B) l acc :
  fold_left f (flat_map g l) acc =
  fold_left (fun acc x => fold_left f (g x) acc) l acc.
Proof.
  revert acc; induction l as [|x l IH]; intros acc; simpl; [reflexivity|].
  rewrite fold_left_app. apply IH.
Qed.

Lemma collect_line_eq n line acc :
  collect_line (n, line) acc = Ok (fold_left add_access (line_accesses (n, line)) acc).
Proof.
  unfold collect_line. rewrite finditer_access, finditer_at. simpl bind.
  unfold line_accesses. simpl fst; simpl snd.
  rewrite map_app, fold_left_app, !fold_left_map.
  rewrite (for_each_pure (accesses line) acc _
             (fun acc m => add_access acc (name_of m, n))).
  - simpl bind.
    apply (for_each_pure (at_accesses line) _ _
             (fun acc m => add_access acc (name_of m, n))).
    intros m st Hm. destruct (at_accesses_groups _ _ Hm) as (_ & H1 & _).
    simpl in H1. rewrite H1. reflexivity.
  - intros m st Hm. destruct (accesses_groups _ _ Hm) as (_ & H1 & _).
    simpl in H1. rewrite H1. reflexivity.
Qed.

Lemma collect_eq file_lines :
  for_each (enumerate 1 file_lines) [] collect_line = Ok (collected file_lines).
Proof.
  unfold collected. fold add_access. rewrite fold_left_flat_map.
  apply for_each_pure. intros [n line] st _. apply collect_line_eq.
Qed.

Lemma enumerate_in {A} (l : list A) : forall k n x,
  In (n, x) (enumerate k l) <-> k <= n /\ nth_error l (n - k) = Some x.
Proof.
  unfold enumerate. induction l as [|y l IH]; intros k n x; simpl.
  - split; [tauto|]. intros [_ H]. destruct (n - k); discriminate.
  - rewrite IH. split.
    + intros [H|[H1 H2]].
      * injection H as <- <-. rewrite Nat.sub_diag. split; [lia | reflexivity].
      * split; [lia|]. replace (n - k) with (S (n - S k)) by lia. exact H2.
    + intros [H1 H2]. destruct (n - k) as [|j] eqn:E.
      * left. injection H2 as ->. f_equal. lia.
      * right. split; [lia|]. replace (n - S k) with j by lia. exact H2.
Qed.

Lemma collected_nodup file_lines : NoDup (collected file_lines).
Proof. apply (fold_add_nodup _ []). constructor. Qed.

(** The set holds the pairs (name, line) of the matches of the two access
    patterns, and nothing else. *)
Lemma collected_in file_lines name n :
  In (name, n) (collected file_lines) <->
  exists line m,
    1 <= n /\ nth_error file_lines (n - 1) = Some line
    /\ In m (accesses line ++ at_accesses line)%list /\ name_of m = name.
Proof.
  unfold collected. fold add_access. rewrite fold_add_in, in_flat_map.
  split.
  - intros [[]|([k line] & He & Ha)].
    unfold line_accesses in Ha. apply in_map_iff in Ha as (m & Hm & Hin).
    simpl in Hm, Hin. injection Hm as <- <-.
    apply enumerate_in in He as [H1 H2]. exists line, m. auto.
  - intros (line & m & H1 & H2 & Hm & <-). right.
    exists (n, line). split; [apply enumerate_in; auto|].
    unfold line_accesses. apply in_map_iff. exists m. auto.
Qed.

Lemma collected_valid file_lines a :
  In a (collected file_lines) -> valid_identifier (fst a).
Proof.
  destruct a as [name n]. rewrite collected_in.
  intros (line & m & _ & _ & Hm & <-). simpl.
  apply in_app_iff in Hm as [Hm|Hm].
  - apply (accesses_groups _ _ Hm).
  - apply (at_accesses_groups _ _ Hm).
Qed.

Lemma search_for vector line :
  forallb is_word (list_ascii_of_string vector) = true ->
  Re.search (empty_check_pattern_for vector) line =
  Ok (search_from (empty_re_for (list_ascii_of_string vector)) None
        (list_ascii_of_string line)).
Proof. intros H. unfold Re.search. rewrite compile_for by assumption. reflexivity. Qed.

Lemma any_search_eq vector file_lines :
  forallb is_word (list_ascii_of_string vector) = true ->
  any_search (empty_check_pattern_for vector) file_lines =
  Ok (empty_check_found file_lines vector).
Proof.
  intros H. unfold empty_check_found.
  induction file_lines as [|line ls IH]; [reflexivity|].
  cbn [any_search existsb]. rewrite search_for by assumption. simpl bind.
  destruct (search_from _ _ _); simpl; [reflexivity | exact IH].
Qed.

Lemma check_access_eq file_lines a issues :
  valid_identifier (fst a) ->
  check_access file_lines a issues =
  Ok (if unchecked file_lines a then (issues ++ [missing a])%list else issues).
Proof.
  destruct a as [vector n]; intros H. unfold check_access, unchecked, missing.
  simpl fst; simpl snd.
  rewrite any_search_eq by (apply identifier_word, H). simpl bind.
  destruct (negb _); reflexivity.
Qed.

Lemma fold_left_filter_snoc {A B} (p : A -> bool) (g : A -> B) l acc :
  fold_left (fun acc x => if p x then (acc ++ [g x])%list else acc) l acc =
  (acc ++ map g (filter p l))%list.
Proof.
  revert acc; induction l as [|x l IH]; intros acc; simpl.
  - rewrite app_nil_r; reflexivity.
  - rewrite IH. destruct (p x); simpl; [rewrite <- app_assoc|]; reflexivity.
Qed.

(** [check_empty_before_access] never raises: it reports the accesses of
    the set that have no empty check, in the order of iteration. *)
Lemma check_empty_before_access_eq order file_lines :
  check_empty_before_access order file_lines =
  Ok (map missing (filter (unchecked file_lines)
                     (set_iter order (collected file_lines)))).
Proof.
  unfold check_empty_before_access. rewrite collect_eq. simpl bind.
  rewrite (for_each_pure _ [] _
             (fun acc a => if unchecked file_lines a
                           then (acc ++ [missing a])%list else acc)).
  - rewrite fold_left_filter_snoc. reflexivity.
  - intros a st Ha. apply check_access_eq.
    apply (collected_valid file_lines).
    eapply Permutation_in; [apply set_iter_perm | exact Ha].
Qed.

(** ** Rendering of the messages *)

(** Two texts cut at the first occurrence of a character. *)
Lemma split_unique (q : ascii) a' r' : forall a r,
  ~ In q a' -> ~ In q r' ->
  (a ++ q :: r = a' ++ q :: r')%list -> a = a' /\ r = r'.
Proof.
  induction a' as [|y a' IH]; intros a r Ha Hr H.
  - destruct a as [|x a]; simpl in H.
    + injection H as ->. auto.
    + injection H as -> H. exfalso. apply Hr. rewrite <- H.
      apply in_or_app; right; left; reflexivity.
  - destruct a as [|x a]; simpl in H.
    + injection H as <- _. exfalso; apply Ha; left; reflexivity.
    + injection H as -> H.
      destruct (IH a r) as [-> ->]; auto.
      intros Hin; apply Ha; right; assumption.
Qed.

Lemma uint_digits d :
  forallb is_digit
    (list_ascii_of_string (DecimalString.NilEmpty.string_of_uint d)) = true.
Proof. induction d; simpl; auto. Qed.

Lemma str_digits n : forallb is_digit (list_ascii_of_string (str n)) = true.
Proof. apply uint_digits. Qed.

Lemma str_inj n k : str n = str k -> n = k.
Proof.
  unfold str; intros H.
  assert (E : Some (Nat.to_uint n) = Some (Nat.to_uint k)).
  { rewrite <- !DecimalString.NilEmpty.usu, H. reflexivity. }
  injection E as E.
  rewrite <- (DecimalNat.Unsigned.of_to n), <- (DecimalNat.Unsigned.of_to k), E.
  reflexivity.
Qed.

Lemma word_not_quote c : is_word c = true -> Ascii.eqb quote c = false.
Proof. each_char c. Qed.

Lemma digit_not_quote c : is_digit c = true -> Ascii.eqb quote c = false.
Proof. each_char c. Qed.

Lemma not_in_eqb (q : ascii) l :
  forallb (fun c => negb (Ascii.eqb q c)) l = true -> ~ In q l.
Proof.
  intros H Hin. rewrite forallb_forall in H. specialize (H q Hin).
  rewrite Ascii.eqb_refl in H. discriminate.
Qed.

Lemma forallb_impl {A} (p q : A -> bool) l :
  (forall x, p x = true -> q x = true) -> forallb p l = true -> forallb q l = true.
Proof.
  intros Hpq. rewrite !forallb_forall. auto.
Qed.

Lemma word_no_quote l : forallb is_word l = true -> ~ In quote l.
Proof.
  intros H. apply not_in_eqb. revert H. apply forallb_impl.
  intros c Hc. rewrite (word_not_quote c Hc). reflexivity.
Qed.

Lemma digit_no_quote l : forallb is_digit l = true -> ~ In quote l.
Proof.
  intros H. apply not_in_eqb. revert H. apply forallb_impl.
  intros c Hc. rewrite (digit_not_quote c Hc). reflexivity.
Qed.

(** The warning of the second pass tells the name and the line apart. *)
Lemma missing_inj name n name' n' :
  valid_identifier name' ->
  missing_empty_check_warning name n = missing_empty_check_warning name' n' ->
  name = name' /\ n = n'.
Proof.
  intros Hv H. unfold missing_empty_check_warning in H.
  apply (f_equal list_ascii_of_string) in H.
  rewrite !chars_app in H. apply app_inv_head in H.
  change (list_ascii_of_string "' at line ")
    with (quote :: list_ascii_of_string " at line ") in H.
  rewrite <- !app_comm_cons in H.
  apply split_unique in H.
  - destruct H as [H1 H2]. apply app_inv_head in H2.
    split; [apply chars_inj, H1 | apply str_inj, chars_inj, H2].
  - apply word_no_quote, identifier_word, Hv.
  - intros Hin. apply in_app_or in Hin as [Hin|Hin].
    + revert Hin. apply not_in_eqb. reflexivity.
    + revert Hin. apply digit_no_quote, str_digits.
Qed.

Lemma NoDup_map_in {A B} (render : A -> B) (l : list A) :
  NoDup l ->
  (forall x y, In x l -> In y l -> render x = render y -> x = y) ->
  NoDup (map render l).
Proof.
  intros H Hf. induction H as [|x l Hx H IH]; simpl; constructor.
  - intros Hin. apply in_map_iff in Hin as (y & Hy & Hin).
    apply Hx. rewrite (Hf x y); auto; [left; reflexivity | right; assumption].
  - apply IH. intros; apply Hf; auto; right; assumption.
Qed.

Lemma Permutation_filter {A} (p : A -> bool) l l' :
  Permutation l l' -> Permutation (filter p l) (filter p l').
Proof.
  induction 1; simpl.
  - constructor.
  - destruct (p x); [constructor|]; assumption.
  - destruct (p x), (p y); try apply Permutation_refl. constructor.
  - eapply Permutation_trans; eassumption.
Qed.

(** ** Reporting *)

Lemma analyze_cpp_file_eq order fs file_path stdout file_lines :
  fs file_path = Ok file_lines ->
  analyze_cpp_file order fs file_path stdout =
  ((stdout ++ report file_path
      (first_pass file_lines ++ second_pass order file_lines))%list, Ok tt).
Proof.
  intros H. unfold analyze_cpp_file.
  rewrite H, check_vector_access_eq, check_empty_before_access_eq.
  fold (first_pass file_lines) (second_pass order file_lines).
  unfold report. destruct (is_empty _); [reflexivity|].
  unfold print. rewrite (fold_left_snoc indent), <- app_assoc. reflexivity.
Qed.

(** ** Scanning *)

Lemma finditer_here re prev c s :
  finditer_from re prev (c :: s) 0 =
  match match_here re prev (c :: s) with
  | Some r => match_object (c :: s) r :: finditer_from re (Some c) s (fst r - 1)
  | None => finditer_from re (Some c) s 0
  end.
Proof. reflexivity. Qed.

Lemma finditer_fail re prev c s :
  match_here re prev (c :: s) = None ->
  finditer_from re prev (c :: s) 0 = finditer_from re (Some c) s 0.
Proof. intros H; simpl; rewrite H; reflexivity. Qed.

Lemma finditer_end re prev :
  match_here re prev [] = None -> finditer_from re prev [] 0 = [].
Proof. intros H; simpl; rewrite H; reflexivity. Qed.

(** Passing over the rest of a match. *)
Lemma finditer_skip re x : forall prev s,
  finditer_from re prev (x ++ s)%list (List.length x) =
  finditer_from re (last_char prev x) s 0.
Proof. induction x as [|c x IH]; intros prev s; simpl; [reflexivity | apply IH]. Qed.

Lemma star_prev p (k : cont) prev prev' :
  (forall s pos, k prev s pos = k prev' s pos) ->
  forall s pos, star p k prev s pos = star p k prev' s pos.
Proof.
  intros H s pos. destruct s as [|c s]; simpl; [apply H|].
  destruct (p c); [|apply H]. destruct (star p k (Some c) s (S pos)); [reflexivity | apply H].
Qed.

(** Only whether the character before is a word character matters. *)
Lemma match_nodes_prev re : forall marks prev prev' s pos,
  word_before prev = word_before prev' ->
  match_nodes re marks prev s pos = match_nodes re marks prev' s pos.
Proof.
  induction re as [|n re IH]; intros marks prev prev' s pos H; simpl; [reflexivity|].
  destruct n; auto.
  - unfold at_boundary. rewrite H. destruct (xorb _ _); auto.
  - apply star_prev. intros; apply IH; assumption.
Qed.

Lemma finditer_prev re prev prev' s skip :
  word_before prev = word_before prev' ->
  finditer_from re prev s skip = finditer_from re prev' s skip.
Proof.
  intros H. destruct skip; destruct s as [|c s]; simpl; try reflexivity;
    unfold match_here; rewrite (match_nodes_prev re [] prev prev' _ 0 H); reflexivity.
Qed.

Lemma star_some p (k : cont) r : forall s prev pos,
  star p k prev s pos = Some r ->
  exists prev' w s' pos', s = (w ++ s')%list /\ k prev' s' pos' = Some r.
Proof.
  induction s as [|c s IH]; intros prev pos H; simpl in H.
  - exists prev, [], [], pos; auto.
  - destruct (p c).
    + destruct (star p k (Some c) s (S pos)) eqn:E.
      * injection H as ->.
        destruct (IH _ _ E) as (prev' & w & s' & pos' & -> & Hk).
        exists prev', (c :: w), s', pos'; auto.
      * exists prev, [], (c :: s), pos; auto.
    + exists prev, [], (c :: s), pos; auto.
Qed.

(** A character that the pattern requires occurs in every text it
    matches. *)
Lemma needs_char c re : In (lit c) re ->
  forall marks prev s pos r,
    match_nodes re marks prev s pos = Some r -> In c s.
Proof.
  induction re as [|n re IH]; intros Hin marks prev s pos r H; [destruct Hin|].
  simpl in H. destruct n.
  - destruct Hin as [Hn|Hin]; [discriminate|].
    destruct (at_boundary prev s); [eapply IH; eassumption | discriminate].
  - destruct Hin as [Hn|Hin]; [discriminate | eapply IH; eassumption].
  - destruct Hin as [Hn|Hin]; [discriminate | eapply IH; eassumption].
  - destruct s as [|x s]; [discriminate|].
    destruct (in_charset cs x) eqn:E; [|discriminate].
    destruct Hin as [Hn|Hin].
    + injection Hn as ->. simpl in E. apply Ascii.eqb_eq in E. left; symmetry; exact E.
    + right. eapply IH; eassumption.
  - destruct Hin as [Hn|Hin]; [discriminate|].
    apply star_some in H as (prev' & w & s' & pos' & -> & Hk).
    apply in_or_app; right. eapply IH; eassumption.
  - destruct Hin as [Hn|Hin]; [discriminate|].
    destruct s as [|x s]; [discriminate|].
    destruct (in_charset cs x); [|discriminate].
    apply star_some in H as (prev' & w & s' & pos' & -> & Hk).
    right. apply in_or_app; right. eapply IH; eassumption.
Qed.

Lemma finditer_without c re : In (lit c) re ->
  forall s prev skip, ~ In c s -> finditer_from re prev s skip = [].
Proof.
  intros Hin. induction s as [|x s IH]; intros prev skip Hc.
  - destruct skip; simpl; [|reflexivity].
    destruct (match_here re prev []) eqn:E; [|reflexivity].
    exfalso. apply Hc. eapply needs_char; eassumption.
  - assert (Hs : ~ In c s) by (intros H; apply Hc; right; assumption).
    destruct skip; simpl; [|apply IH; assumption].
    destruct (match_here re prev (x :: s)) eqn:E; [|apply IH; assumption].
    exfalso. apply Hc. eapply needs_char; eassumption.
Qed.

(** ** Walking over text in which the head cannot match *)

Section Head.

Variable tail : regex.
Hypothesis det_tail : deterministic (ident_head ++ tail)%list = true.

Lemma head_here prev s :
  match_here (ident_head ++ tail)%list prev s =
  match_det (ident_head ++ tail)%list [] prev s 0.
Proof. apply match_here_det, det_tail. Qed.

Lemma head_none_start prev c s :
  is_ident_start c = false ->
  match_here (ident_head ++ tail)%list prev (c :: s) = None.
Proof.
  intros H. rewrite head_here, head_det, H.
  destruct (at_boundary _ _); reflexivity.
Qed.

Lemma head_none_inside prev c s :
  word_before prev = true -> is_word c = true ->
  match_here (ident_head ++ tail)%list prev (c :: s) = None.
Proof.
  intros Hp Hc. rewrite head_here, head_det.
  unfold at_boundary; simpl. rewrite Hp, Hc. reflexivity.
Qed.

Lemma head_none_end prev : match_here (ident_head ++ tail)%list prev [] = None.
Proof. rewrite head_here, head_det. destruct (at_boundary _ _); reflexivity. Qed.

(** Characters that cannot begin an identifier. *)
Lemma walk_outside w : forall prev s,
  forallb (fun c => negb (is_ident_start c)) w = true ->
  finditer_from (ident_head ++ tail)%list prev (w ++ s)%list 0 =
  finditer_from (ident_head ++ tail)%list (last_char prev w) s 0.
Proof.
  induction w as [|c w IH]; intros prev s H; simpl in H; [reflexivity|].
  apply andb_prop in H as [Hc H]. apply negb_true_iff in Hc.
  simpl app. rewrite finditer_fail by (apply head_none_start; assumption).
  apply IH; assumption.
Qed.

(** Word characters after a word character. *)
Lemma walk_inside w : forall prev s,
  word_before prev = true -> forallb is_word w = true ->
  finditer_from (ident_head ++ tail)%list prev (w ++ s)%list 0 =
  finditer_from (ident_head ++ tail)%list (last_char prev w) s 0.
Proof.
  induction w as [|c w IH]; intros prev s Hp H; simpl in H; [reflexivity|].
  apply andb_prop in H as [Hc H].
  simpl app. rewrite finditer_fail by (apply head_none_inside; assumption).
  apply IH; assumption.
Qed.

End Head.

Lemma space_not_start c : is_space c = true -> negb (is_ident_start c) = true.
Proof. each_char c. Qed.

Lemma digit_not_start c : is_digit c = true -> negb (is_ident_start c) = true.
Proof. each_char c. Qed.

Lemma spaces_outside w :
  forallb is_space w = true -> forallb (fun c => negb (is_ident_start c)) w = true.
Proof. apply forallb_impl, space_not_start. Qed.

Lemma digits_outside w :
  forallb is_digit w = true -> forallb (fun c => negb (is_ident_start c)) w = true.
Proof. apply forallb_impl, digit_not_start. Qed.

(** ** A match does not look beyond its end *)

Lemma match_det_marks re : forall marks prev s pos p ms,
  match_det re marks prev s pos = Some (p, ms) ->
  Forall (fun m => m <= p) marks -> Forall (fun m => m <= p) ms.
Proof.
  induction re as [|n re IH]; intros marks prev s pos p ms H Hm; simpl in H.
  - injection H as <- <-. apply Forall_rev; assumption.
  - destruct n.
    + destruct (at_boundary prev s); [eapply IH; eassumption | discriminate].
    + eapply IH; [eassumption|]. constructor; [|assumption].
      apply (match_det_result _ _ _ _ _ _ _ H).
    + eapply IH; [eassumption|]. constructor; [|assumption].
      apply (match_det_result _ _ _ _ _ _ _ H).
    + destruct s as [|c s]; [discriminate|].
      destruct (in_charset cs c); [eapply IH; eassumption | discriminate].
    + eapply IH; eassumption.
    + destruct s as [|c s]; [discriminate|].
      destruct (in_charset cs c); [eapply IH; eassumption | discriminate].
Qed.

Lemma slice_prefix P S a b :
  a <= List.length P -> b <= List.length P ->
  slice (P ++ S)%list (a, b) = slice P (a, b).
Proof.
  intros Ha Hb. unfold slice; simpl. f_equal.
  rewrite skipn_app, firstn_app, length_skipn.
  replace (a - List.length P) with 0 by lia.
  replace (b - a - (List.length P - a)) with 0 by lia.
  simpl. rewrite app_nil_r. reflexivity.
Qed.

Lemma slices_prefix P S ms :
  Forall (fun m => m <= List.length P) ms ->
  map (slice (P ++ S)%list) (spans ms) = map (slice P) (spans ms).
Proof.
  revert ms. assert (G : forall ms,
    (Forall (fun m => m <= List.length P) ms ->
     map (slice (P ++ S)%list) (spans ms) = map (slice P) (spans ms))
    /\ forall x, Forall (fun m => m <= List.length P) (x :: ms) ->
       map (slice (P ++ S)%list) (spans (x :: ms)) = map (slice P) (spans (x :: ms))).
  { intros ms. induction ms as [|y ms [IH1 IH2]]; split.
    - reflexivity.
    - reflexivity.
    - apply IH2.
    - intros x H. inversion H as [|? ? Hx H']; subst.
      inversion H' as [|? ? Hy H'']; subst.
      simpl. rewrite slice_prefix, IH1 by assumption. reflexivity. }
  intros ms; apply G.
Qed.

Lemma match_object_prefix P S L ms :
  L <= List.length P -> Forall (fun m => m <= L) ms ->
  match_object (P ++ S)%list (L, ms) = match_object P (L, ms).
Proof.
  intros HL Hms. unfold match_object; simpl.
  rewrite slice_prefix by lia.
  rewrite slices_prefix; [reflexivity|].
  eapply Forall_impl; [|exact Hms]. simpl; intros; lia.
Qed.

Lemma take_while_reject p t T Y :
  p t = false -> take_while p (Y ++ t :: T)%list = take_while p Y.
Proof.
  intros Ht. induction Y as [|y Y IH]; simpl; [rewrite Ht; reflexivity|].
  destruct (p y); [rewrite IH|]; reflexivity.
Qed.

Lemma drop_while_reject p t T Y :
  p t = false -> drop_while p (Y ++ t :: T)%list = (drop_while p Y ++ t :: T)%list.
Proof.
  intros Ht. induction Y as [|y Y IH]; simpl; [rewrite Ht; reflexivity|].
  destruct (p y); [rewrite IH|]; reflexivity.
Qed.

(** Text that begins with a character the pattern avoids is the same to
    it as the end of the text. *)
Lemma avoids_context t T re : avoids t re = true ->
  forall marks prev Y pos,
    match_det re marks prev (Y ++ t :: T)%list pos = match_det re marks prev Y pos.
Proof.
  induction re as [|n re IH]; intros H marks prev Y pos; simpl; [reflexivity|].
  simpl in H. apply andb_prop in H as [Hn H].
  destruct n; try discriminate; auto.
  - apply negb_true_iff in Hn. destruct Y as [|y Y]; simpl.
    + rewrite Hn; reflexivity.
    + destruct (in_charset cs y); auto.
  - apply negb_true_iff in Hn.
    rewrite take_while_reject, drop_while_reject by assumption. auto.
  - apply negb_true_iff in Hn. destruct Y as [|y Y]; simpl.
    + rewrite Hn; reflexivity.
    + destruct (in_charset cs y); [|reflexivity].
      rewrite take_while_reject, drop_while_reject by assumption. auto.
Qed.

Lemma take_while_inside p X S :
  drop_while p X <> [] -> take_while p (X ++ S)%list = take_while p X.
Proof.
  induction X as [|x X IH]; simpl; [congruence|].
  destruct (p x); [intros H; rewrite IH by assumption|]; reflexivity.
Qed.

Lemma drop_while_inside p X S :
  drop_while p X <> [] ->
  drop_while p (X ++ S)%list = (drop_while p X ++ S)%list.
Proof.
  induction X as [|x X IH]; simpl; [congruence|].
  destruct (p x); [intros H; rewrite IH by assumption|]; reflexivity.
Qed.

Lemma drop_while_nil_last p X c :
  drop_while p X = [] -> p c = true ->
  exists d, last_char (Some c) X = Some d /\ p d = true.
Proof.
  revert c; induction X as [|x X IH]; intros c H Hc; simpl in *; [eauto|].
  destruct (p x) eqn:E; [apply IH; assumption | discriminate].
Qed.

Lemma start_avoids_access t : is_ident_start t = true -> avoids t access_tail = true.
Proof. each_char t. Qed.

(** An attempt of the access pattern in text that ends outside a word
    does not depend on an identifier that follows the text. *)
Lemma access_context prev c X t T :
  word_before (last_char (Some c) X) = false ->
  is_ident_start t = true ->
  match_det access_re [] prev (c :: X ++ t :: T)%list 0 =
  match_det access_re [] prev (c :: X) 0.
Proof.
  intros Hlast Ht. unfold access_re. rewrite !head_det.
  change (at_boundary prev (c :: X ++ t :: T)%list) with (at_boundary prev (c :: X)).
  destruct (at_boundary prev (c :: X)); [|reflexivity].
  destruct (is_ident_start c) eqn:Hc; [|reflexivity].
  assert (Hd : drop_while is_word X <> []).
  { intros E. destruct (drop_while_nil_last is_word X c E (ident_start_word _ Hc))
      as (d & Hd1 & Hd2). rewrite Hd1 in Hlast. simpl in Hlast. congruence. }
  cbv zeta. rewrite take_while_inside, drop_while_inside by assumption.
  apply avoids_context, start_avoids_access, Ht.
Qed.

Lemma accesses_before P : forall prev skip t T,
  skip <= List.length P ->
  word_before (last_char prev P) = false ->
  is_ident_start t = true ->
  finditer_from access_re prev (P ++ t :: T)%list skip =
  (finditer_from access_re prev P skip
   ++ finditer_from access_re (last_char prev P) (t :: T) 0)%list.
Proof.
  induction P as [|c X IH]; intros prev skip t T Hs Hl Ht.
  - destruct skip; [|simpl in Hs; lia].
    rewrite (finditer_end access_re prev
               (head_none_end access_tail deterministic_access prev)).
    reflexivity.
  - destruct skip as [|k].
    + change ((c :: X) ++ t :: T)%list with (c :: (X ++ t :: T))%list.
      rewrite (finditer_here access_re prev c (X ++ t :: T)%list).
      rewrite (finditer_here access_re prev c X).
      rewrite !(match_here_det access_re _ _ deterministic_access).
      rewrite access_context by assumption.
      destruct (match_det access_re [] prev (c :: X) 0) as [[L ms]|] eqn:E.
      * destruct (match_det_result _ _ _ _ _ _ _ E) as [_ HL].
        pose proof (match_det_marks _ _ _ _ _ _ _ E (Forall_nil _)) as Hm.
        change (c :: (X ++ t :: T)%list) with ((c :: X) ++ t :: T)%list.
        rewrite (match_object_prefix (c :: X) (t :: T) L ms) by (simpl in *; auto; lia).
        simpl fst. rewrite <- app_comm_cons. f_equal.
        apply IH; simpl in *; auto; lia.
      * apply IH; simpl in *; auto; lia.
    + simpl. apply IH; simpl in *; auto; lia.
Qed.

(** ** Matching a token *)

Lemma one_step c re marks prev s pos :
  match_det (lit c :: re) marks prev (c :: s) pos =
  match_det re marks (Some c) s (S pos).
Proof. simpl. rewrite Ascii.eqb_refl. reflexivity. Qed.

Lemma star_step cs re marks prev w s pos :
  forallb (in_charset cs) w = true -> stops (in_charset cs) s ->
  match_det (Star cs :: re) marks prev (w ++ s)%list pos =
  match_det re marks (last_char prev w) s (pos + List.length w).
Proof.
  intros Hw Hs. simpl.
  rewrite take_while_run, drop_while_run by assumption. reflexivity.
Qed.

Lemma plus_step cs re marks prev d w s pos :
  in_charset cs d = true ->
  forallb (in_charset cs) w = true -> stops (in_charset cs) s ->
  match_det (Plus cs :: re) marks prev (d :: w ++ s)%list pos =
  match_det re marks (last_char (Some d) w) s (S pos + List.length w).
Proof.
  intros Hd Hw Hs. simpl. rewrite Hd.
  rewrite take_while_run, drop_while_run by assumption. reflexivity.
Qed.

Lemma head_step tail marks prev c w s pos :
  word_before prev = false -> is_ident_start c = true ->
  forallb is_word w = true -> stops is_word s ->
  match_det (ident_head ++ tail)%list marks prev (c :: w ++ s)%list pos =
  match_det tail (S pos + List.length w :: pos :: marks)
    (last_char (Some c) w) s (S pos + List.length w).
Proof.
  intros Hp Hc Hw Hs. rewrite head_det.
  unfold at_boundary. simpl word_here. rewrite Hp, (ident_start_word _ Hc), Hc.
  simpl xorb. cbv iota zeta.
  rewrite take_while_run, drop_while_run by assumption. reflexivity.
Qed.

Lemma open_step re marks prev s pos :
  match_det (GroupOpen :: re) marks prev s pos =
  match_det re (pos :: marks) prev s pos.
Proof. reflexivity. Qed.

Lemma close_step re marks prev s pos :
  match_det (GroupClose :: re) marks prev s pos =
  match_det re (pos :: marks) prev s pos.
Proof. reflexivity. Qed.

Lemma end_step marks prev s pos : match_det [] marks prev s pos = Some (pos, rev marks).
Proof. reflexivity. Qed.

Lemma stops_cons (p : ascii -> bool) c s : p c = false -> stops p (c :: s).
Proof. intros H; exact H. Qed.

Lemma stops_run (p q : ascii -> bool) w c s :
  (forall x, q x = true -> p x = false) ->
  forallb q w = true -> p c = false -> stops p (w ++ c :: s)%list.
Proof.
  intros Hqp Hw Hc. destruct w as [|x w]; simpl in *; [assumption|].
  apply andb_prop in Hw as [Hx _]. apply Hqp, Hx.
Qed.

Lemma space_not_digit c : is_space c = true -> is_digit c = false.
Proof. each_char c. Qed.

Lemma bracket_token o c marks prev ws1 ws2 d ds ws3 rest pos :
  is_space o = false -> is_space c = false -> is_digit c = false ->
  forallb is_space ws1 = true -> forallb is_space ws2 = true ->
  forallb is_space ws3 = true ->
  is_digit d = true -> forallb is_digit ds = true ->
  match_det (bracket_tail o c) marks prev
    (ws1 ++ o :: ws2 ++ d :: ds ++ ws3 ++ c :: rest)%list pos =
  Some (S (S (pos + List.length ws1) + List.length ws2 + List.length ds)
          + List.length ws3 + 1,
        (rev marks ++ [S (pos + List.length ws1) + List.length ws2;
                       S (S (pos + List.length ws1) + List.length ws2
                          + List.length ds)])%list).
Proof.
  intros Ho Hc Hcd H1 H2 H3 Hd Hds. unfold bracket_tail.
  rewrite star_step by (try assumption; apply stops_cons, Ho).
  rewrite one_step.
  rewrite star_step by (try assumption; apply stops_cons, digit_not_space, Hd).
  rewrite open_step.
  rewrite (plus_step CsDigit) by
    (try assumption; apply (stops_run is_digit is_space); auto using space_not_digit).
  rewrite close_step.
  rewrite star_step by (try assumption; apply stops_cons, Hc).
  rewrite one_step, end_step. simpl rev.
  rewrite <- !app_assoc. simpl app. f_equal. f_equal. lia.
Qed.

Lemma word_stops_bracket (o : ascii) ws s :
  is_word o = false -> forallb is_space ws = true ->
  stops is_word (ws ++ o :: s)%list.
Proof. intros Ho Hws. apply (stops_run is_word is_space); auto using space_not_word. Qed.

(** The access pattern on an identifier, optional whitespace and a
    bracketed decimal index. *)
Lemma access_token prev c w ws1 ws2 d ds ws3 rest :
  word_before prev = false -> is_ident_start c = true ->
  forallb is_word w = true ->
  forallb is_space ws1 = true -> forallb is_space ws2 = true ->
  forallb is_space ws3 = true ->
  is_digit d = true -> forallb is_digit ds = true ->
  match_det access_re [] prev
    (c :: w ++ ws1 ++ "["%char :: ws2 ++ d :: ds ++ ws3 ++ "]"%char :: rest)%list 0 =
  Some (S (S (S (List.length w) + List.length ws1) + List.length ws2
           + List.length ds) + List.length ws3 + 1,
        [0; S (List.length w);
         S (S (List.length w) + List.length ws1) + List.length ws2;
         S (S (S (List.length w) + List.length ws1) + List.length ws2
            + List.length ds)]).
Proof.
  intros Hp Hc Hw H1 H2 H3 Hd Hds. unfold access_re.
  rewrite head_step by (try assumption; apply word_stops_bracket; auto).
  change access_tail with (bracket_tail "[" "]").
  rewrite bracket_token by (try assumption; reflexivity).
  reflexivity.
Qed.

Lemma at_token prev c w ws1 ws2 d ds ws3 rest :
  word_before prev = false -> is_ident_start c = true ->
  forallb is_word w = true ->
  forallb is_space ws1 = true -> forallb is_space ws2 = true ->
  forallb is_space ws3 = true ->
  is_digit d = true -> forallb is_digit ds = true ->
  match_det at_re [] prev
    (c :: w ++ "."%char :: "a"%char :: "t"%char
       :: ws1 ++ "("%char :: ws2 ++ d :: ds ++ ws3 ++ ")"%char :: rest)%list 0 =
  Some (S (S (S (S (S (S (List.length w)))) + List.length ws1) + List.length ws2
           + List.length ds) + List.length ws3 + 1,
        [0; S (List.length w);
         S (S (S (S (S (List.length w)))) + List.length ws1) + List.length ws2;
         S (S (S (S (S (S (List.length w)))) + List.length ws1) + List.length ws2
            + List.length ds)]).
Proof.
  intros Hp Hc Hw H1 H2 H3 Hd Hds. unfold at_re.
  rewrite head_step by (try assumption; apply stops_cons; reflexivity).
  change at_tail with (lit "." :: lit "a" :: lit "t" :: bracket_tail "(" ")").
  rewrite !one_step.
  rewrite bracket_token by (try assumption; reflexivity).
  reflexivity.
Qed.

(** The text between two positions given as lengths. *)
Lemma slice_middle A B C :
  slice (A ++ B ++ C)%list (List.length A, List.length A + List.length B) =
  string_of_list_ascii B.
Proof.
  unfold slice; simpl. f_equal.
  rewrite skipn_app, Nat.sub_diag, skipn_all. simpl.
  replace (List.length A + List.length B - List.length A) with (List.length B) by lia.
  rewrite firstn_app, Nat.sub_diag, firstn_all. simpl. apply app_nil_r.
Qed.

Lemma slice_of A B C s a b :
  s = (A ++ B ++ C)%list -> a = List.length A ->
  b = List.length A + List.length B ->
  slice s (a, b) = string_of_list_ascii B.
Proof. intros -> -> ->. apply slice_middle. Qed.

Lemma last_char_snoc prev x c : last_char prev (x ++ [c])%list = Some c.
Proof. rewrite last_char_app. reflexivity. Qed.

(** [finditer] at the beginning of an indexed access: the match, then the
    matches of what follows the closing bracket. *)
Lemma access_token_scan prev c w ws1 ws2 d ds ws3 rest :
  word_before prev = false -> is_ident_start c = true ->
  forallb is_word w = true ->
  forallb is_space ws1 = true -> forallb is_space ws2 = true ->
  forallb is_space ws3 = true ->
  is_digit d = true -> forallb is_digit ds = true ->
  finditer_from access_re prev
    (c :: w ++ ws1 ++ "["%char :: ws2 ++ d :: ds ++ ws3 ++ "]"%char :: rest)%list 0 =
  mk_match
    (string_of_list_ascii
       (c :: w ++ ws1 ++ "["%char :: ws2 ++ d :: ds ++ ws3 ++ ["]"%char])%list)
    [string_of_list_ascii (c :: w); string_of_list_ascii (d :: ds)]
  :: finditer_from access_re None rest 0.
Proof.
  intros Hp Hc Hw H1 H2 H3 Hd Hds.
  rewrite finditer_here, (match_here_det _ _ _ deterministic_access).
  rewrite access_token by assumption. simpl fst.
  set (body := (w ++ ws1 ++ "["%char :: ws2 ++ d :: ds ++ ws3)%list).
  assert (E : (w ++ ws1 ++ "["%char :: ws2 ++ d :: ds ++ ws3 ++ "]"%char :: rest)%list
              = ((body ++ ["]"%char]) ++ rest)%list).
  { unfold body. right_nested. }
  f_equal.
  - unfold match_object. simpl fst; simpl snd. simpl spans. simpl map. f_equal.
    + apply (slice_of [] _ rest).
      * right_nested.
      * reflexivity.
      * lengths.
    + f_equal; [|f_equal].
      * apply (slice_of [] (c :: w)
                 (ws1 ++ "["%char :: ws2 ++ d :: ds ++ ws3 ++ "]"%char :: rest)).
        -- right_nested.
        -- reflexivity.
        -- reflexivity.
      * apply (slice_of (c :: w ++ ws1 ++ "["%char :: ws2) (d :: ds)
                 (ws3 ++ "]"%char :: rest)).
        -- right_nested.
        -- lengths.
        -- lengths.
  - rewrite E.
    match goal with
    | |- finditer_from _ _ _ ?n = _ =>
        replace n with (List.length (body ++ ["]"%char])%list)
          by (unfold body; lengths)
    end.
    rewrite finditer_skip, last_char_snoc.
    apply finditer_prev. reflexivity.
Qed.

Lemma at_token_scan prev c w ws1 ws2 d ds ws3 rest :
  word_before prev = false -> is_ident_start c = true ->
  forallb is_word w = true ->
  forallb is_space ws1 = true -> forallb is_space ws2 = true ->
  forallb is_space ws3 = true ->
  is_digit d = true -> forallb is_digit ds = true ->
  finditer_from at_re prev
    (c :: w ++ "."%char :: "a"%char :: "t"%char
       :: ws1 ++ "("%char :: ws2 ++ d :: ds ++ ws3 ++ ")"%char :: rest)%list 0 =
  mk_match
    (string_of_list_ascii
       (c :: w ++ "."%char :: "a"%char :: "t"%char
          :: ws1 ++ "("%char :: ws2 ++ d :: ds ++ ws3 ++ [")"%char])%list)
    [string_of_list_ascii (c :: w); string_of_list_ascii (d :: ds)]
  :: finditer_from at_re None rest 0.
Proof.
  intros Hp Hc Hw H1 H2 H3 Hd Hds.
  rewrite finditer_here, (match_here_det _ _ _ deterministic_at).
  rewrite at_token by assumption. simpl fst.
  set (body := (w ++ "."%char :: "a"%char :: "t"%char
                  :: ws1 ++ "("%char :: ws2 ++ d :: ds ++ ws3)%list).
  assert (E : (w ++ "."%char :: "a"%char :: "t"%char
                 :: ws1 ++ "("%char :: ws2 ++ d :: ds ++ ws3 ++ ")"%char :: rest)%list
              = ((body ++ [")"%char]) ++ rest)%list).
  { unfold body. right_nested. }
  f_equal.
  - unfold match_object. simpl fst; simpl snd. simpl spans. simpl map. f_equal.
    + apply (slice_of [] _ rest).
      * right_nested.
      * reflexivity.
      * lengths.
    + f_equal; [|f_equal].
      * apply (slice_of [] (c :: w)
                 ("."%char :: "a"%char :: "t"%char
                    :: ws1 ++ "("%char :: ws2 ++ d :: ds ++ ws3 ++ ")"%char :: rest)).
        -- right_nested.
        -- reflexivity.
        -- reflexivity.
      * apply (slice_of (c :: w ++ "."%char :: "a"%char :: "t"%char
                           :: ws1 ++ "("%char :: ws2) (d :: ds)
                 (ws3 ++ ")"%char :: rest)).
        -- right_nested.
        -- lengths.
        -- lengths.
  - rewrite E.
    match goal with
    | |- finditer_from _ _ _ ?n = _ =>
        replace n with (List.length (body ++ [")"%char])%list)
          by (unfold body; lengths)
    end.
    rewrite finditer_skip, last_char_snoc.
    apply finditer_prev. reflexivity.
Qed.

(** ** Positions of a text *)

Lemma search_reaches re : forall s prev,
  succeeds_search (search_from re prev s) = true <->
  exists prev' s', reaches prev s prev' s' /\ succeeds (match_here re prev' s') = true.
Proof.
  induction s as [|c s IH]; intros prev; simpl.
  - destruct (match_here re prev []) eqn:E; simpl.
    + split; [|reflexivity]. intros _. exists prev, []. rewrite E. split; [constructor | reflexivity].
    + split; [discriminate|]. intros (prev' & s' & Hr & Hm).
      inversion Hr; subst. rewrite E in Hm. discriminate.
  - destruct (match_here re prev (c :: s)) eqn:E; simpl.
    + split; [|reflexivity]. intros _. exists prev, (c :: s). rewrite E.
      split; [constructor | reflexivity].
    + rewrite IH. split.
      * intros (prev' & s' & Hr & Hm). exists prev', s'. split; [constructor|]; assumption.
      * intros (prev' & s' & Hr & Hm). inversion Hr; subst.
        -- rewrite E in Hm. discriminate.
        -- eauto.
Qed.

Lemma finditer_reaches re m : forall s prev skip,
  In m (finditer_from re prev s skip) ->
  exists prev' s' r,
    reaches prev s prev' s' /\ match_here re prev' s' = Some r
    /\ m = match_object s' r.
Proof.
  induction s as [|c s IH]; intros prev skip H.
  - destruct skip; simpl in H; [|contradiction].
    destruct (match_here re prev []) eqn:E; [|contradiction].
    destruct H as [<-|[]]. exists prev, [], p. repeat split; [constructor | assumption].
  - assert (G : In m (finditer_from re (Some c) s (skip - 1)) \/
               In m (finditer_from re (Some c) s 0) \/
               (exists k, In m (finditer_from re (Some c) s k)) ->
               exists prev' s' r, reaches prev (c :: s) prev' s'
                 /\ match_here re prev' s' = Some r /\ m = match_object s' r).
    { intros [G|[G|[k G]]]; apply IH in G as (prev' & s' & r & Hr & Hm & ->);
        exists prev', s', r; repeat split; try assumption; constructor; assumption. }
    destruct skip; simpl in H.
    + destruct (match_here re prev (c :: s)) eqn:E.
      * destruct H as [<-|H].
        -- exists prev, (c :: s), p. repeat split; [constructor | assumption].
        -- apply G. right; right; eauto.
      * apply G. right; left; assumption.
    + apply G. right; right; eauto.
Qed.

(** ** The empty-check patterns *)

(** Without word boundaries, whether a pattern matches depends on the
    text alone. *)
Lemma plain_succeeds re : plain re = true ->
  forall s marks prev pos marks' prev' pos',
    succeeds (match_det re marks prev s pos) =
    succeeds (match_det re marks' prev' s pos').
Proof.
  induction re as [|n re IH]; intros H s marks prev pos marks' prev' pos';
    simpl; [reflexivity|].
  simpl in H. apply andb_prop in H as [Hn H].
  destruct n; try discriminate; auto.
  - destruct s as [|c s]; [reflexivity|]. destruct (in_charset cs c); auto.
  - destruct s as [|c s]; [reflexivity|]. destruct (in_charset cs c); auto.
Qed.

Lemma lits_step name re : forall marks prev s pos,
  match_det (map lit name ++ re)%list marks prev (name ++ s)%list pos =
  match_det re marks (last_char prev name) s (pos + List.length name).
Proof.
  induction name as [|c name IH]; intros marks prev s pos; simpl.
  - rewrite Nat.add_0_r. reflexivity.
  - rewrite Ascii.eqb_refl, IH. f_equal. lia.
Qed.

Lemma lits_inv name re r : forall marks prev s pos,
  match_det (map lit name ++ re)%list marks prev s pos = Some r ->
  exists s', s = (name ++ s')%list.
Proof.
  induction name as [|c name IH]; intros marks prev s pos H; simpl in H.
  - exists s. reflexivity.
  - destruct s as [|x s]; [discriminate|].
    destruct (Ascii.eqb c x) eqn:E; [|discriminate].
    apply Ascii.eqb_eq in E as ->.
    destruct (IH _ _ _ _ H) as (s' & ->). exists s'. reflexivity.
Qed.

Lemma lit_inv c re marks prev s pos r :
  match_det (lit c :: re) marks prev s pos = Some r ->
  exists s', s = c :: s' /\ match_det re marks (Some c) s' (S pos) = Some r.
Proof.
  simpl. destruct s as [|x s]; [discriminate|].
  destruct (Ascii.eqb c x) eqn:E; [|discriminate].
  apply Ascii.eqb_eq in E as ->. eauto.
Qed.

Lemma star_inv cs re marks prev s pos r :
  match_det (Star cs :: re) marks prev s pos = Some r ->
  exists w s',
    s = (w ++ s')%list /\ forallb (in_charset cs) w = true
    /\ match_det re marks (last_char prev w) s' (pos + List.length w) = Some r.
Proof.
  simpl. intros H.
  exists (take_while (in_charset cs) s), (drop_while (in_charset cs) s).
  rewrite take_drop, take_while_all. auto.
Qed.

(** The text of a match of the empty-check pattern. *)
Lemma empty_shape prev s L ms :
  match_det empty_re [] prev s 0 = Some (L, ms) ->
  exists c w ws1 ws2 rest,
    s = (c :: w ++ "."%char :: "e"%char :: "m"%char :: "p"%char :: "t"%char :: "y"%char :: ws1
           ++ "("%char :: ws2 ++ ")"%char :: rest)%list
    /\ is_ident_start c = true /\ forallb is_word w = true
    /\ forallb is_space ws1 = true /\ forallb is_space ws2 = true
    /\ L = S (List.length
                (w ++ "."%char :: "e"%char :: "m"%char :: "p"%char :: "t"%char :: "y"%char :: ws1
                   ++ "("%char :: ws2 ++ [")"%char])%list).
Proof.
  intros H. unfold empty_re in H.
  destruct (head_match _ _ _ _ _ H) as (c & s1 & extra & -> & Hc & Hb & _ & _ & Ht).
  unfold empty_tail in Ht.
  do 6 (apply lit_inv in Ht as (? & ? & Ht)).
  apply star_inv in Ht as (ws1 & ? & ? & Hw1 & Ht).
  apply lit_inv in Ht as (? & ? & Ht).
  apply star_inv in Ht as (ws2 & ? & ? & Hw2 & Ht).
  apply lit_inv in Ht as (rest & ? & Ht).
  simpl in Ht. injection Ht as HL _. subst.
  exists c, (take_while is_word s1), ws1, ws2, rest.
  repeat split; try assumption.
  - simpl. f_equal. rewrite <- (take_drop is_word s1) at 1. f_equal. assumption.
  - apply take_while_all.
  - lengths.
Qed.

Lemma lit_fail c x re marks prev s pos :
  Ascii.eqb c x = false -> match_det (lit c :: re) marks prev (x :: s) pos = None.
Proof.
  intros H.
  change (match_det (lit c :: re) marks prev (x :: s) pos)
    with (if Ascii.eqb c x then match_det re marks (Some x) s (S pos) else None).
  rewrite H. reflexivity.
Qed.

Lemma space_not_dot c : is_space c = true -> Ascii.eqb "." c = false.
Proof. each_char c. Qed.

(** Inside a match of the empty-check pattern no other match begins. *)
Lemma empty_rescan c w ws1 ws2 rest :
  is_ident_start c = true -> forallb is_word w = true ->
  forallb is_space ws1 = true -> forallb is_space ws2 = true ->
  finditer_from empty_re (Some c)
    (w ++ "."%char :: "e"%char :: "m"%char :: "p"%char :: "t"%char :: "y"%char :: ws1
       ++ "("%char :: ws2 ++ ")"%char :: rest)%list 0 =
  finditer_from empty_re (Some ")"%char) rest 0.
Proof.
  intros Hc Hw H1 H2. unfold empty_re.
  rewrite (walk_inside empty_tail deterministic_empty)
    by (try assumption; apply (ident_start_word _ Hc)).
  rewrite finditer_fail
    by (apply (head_none_start empty_tail deterministic_empty); reflexivity).
  rewrite finditer_fail.
  2:{ rewrite (head_here empty_tail deterministic_empty).
      change ("m" :: "p" :: "t" :: "y" :: ws1 ++ "(" :: ws2 ++ ")" :: rest)%char%list
        with (list_ascii_of_string "mpty" ++ ws1 ++ "(" :: ws2 ++ ")" :: rest)%char%list.
      rewrite head_step; try reflexivity.
      - destruct ws1 as [|x ws1]; [reflexivity|].
        simpl in H1. apply andb_prop in H1 as [Hx _].
        apply lit_fail, space_not_dot, Hx.
      - apply word_stops_bracket; [reflexivity | assumption]. }
  change ("m" :: "p" :: "t" :: "y" :: ws1 ++ "(" :: ws2 ++ ")" :: rest)%char%list
    with (list_ascii_of_string "mpty" ++ ws1 ++ "(" :: ws2 ++ ")" :: rest)%char%list.
  rewrite (walk_inside empty_tail deterministic_empty) by reflexivity.
  rewrite (walk_outside empty_tail deterministic_empty) by (apply spaces_outside, H1).
  rewrite finditer_fail
    by (apply (head_none_start empty_tail deterministic_empty); reflexivity).
  rewrite (walk_outside empty_tail deterministic_empty) by (apply spaces_outside, H2).
  rewrite finditer_fail
    by (apply (head_none_start empty_tail deterministic_empty); reflexivity).
  reflexivity.
Qed.

(** Every match that begins after the first character is found by the
    scan from the first character. *)
Lemma empty_scan_step prev c s :
  incl (finditer_from empty_re (Some c) s 0) (finditer_from empty_re prev (c :: s) 0).
Proof.
  rewrite finditer_here.
  destruct (match_here empty_re prev (c :: s)) as [[L ms]|] eqn:E;
    [|apply incl_refl].
  apply incl_tl. rewrite (match_here_det _ _ _ deterministic_empty) in E.
  destruct (empty_shape _ _ _ _ E)
    as (c' & w & ws1 & ws2 & rest & Hs & Hc & Hw & H1 & H2 & ->).
  injection Hs as <- ->. simpl fst.
  rewrite empty_rescan by assumption.
  replace (w ++ "."%char :: "e"%char :: "m"%char :: "p"%char :: "t"%char :: "y"%char :: ws1 ++ "("%char :: ws2
             ++ ")"%char :: rest)%list
    with ((w ++ "."%char :: "e"%char :: "m"%char :: "p"%char :: "t"%char :: "y"%char :: ws1 ++ "("%char :: ws2
             ++ [")"%char]) ++ rest)%list by right_nested.
  rewrite Nat.sub_succ, Nat.sub_0_r, finditer_skip.
  repeat (rewrite last_char_app; simpl last_char).
  apply incl_refl.
Qed.

Lemma empty_finditer_reaches m : forall prev s prev' s' r,
  reaches prev s prev' s' -> match_here empty_re prev' s' = Some r ->
  m = match_object s' r -> In m (finditer_from empty_re prev s 0).
Proof.
  intros prev s prev' s' r Hr Hm ->. induction Hr as [prev s|prev c s prev' s' Hr IH].
  - destruct s as [|c s]; simpl; rewrite Hm; left; reflexivity.
  - apply (empty_scan_step prev c s), IH, Hm.
Qed.

Lemma boundary_before prev c s :
  is_word c = true ->
  at_boundary prev (c :: s) = true <-> word_before prev = false.
Proof.
  intros Hc. unfold at_boundary; simpl. rewrite Hc.
  destruct (word_before prev); simpl; split; congruence.
Qed.

Lemma firstn_exact {A} (a b : list A) : firstn (List.length a) (a ++ b)%list = a.
Proof. rewrite firstn_app, Nat.sub_diag, firstn_all. simpl. apply app_nil_r. Qed.

Lemma plain_empty_tail : plain empty_tail = true.
Proof. reflexivity. Qed.

(** At one position, the pattern built for a name matches exactly when
    the empty-check pattern matches and captures that name. *)
Lemma empty_for_here prev s c w :
  is_ident_start c = true -> forallb is_word w = true ->
  succeeds (match_here (empty_re_for (c :: w)) prev s) = true <->
  exists r, match_here empty_re prev s = Some r
            /\ name_of (match_object s r) = string_of_list_ascii (c :: w).
Proof.
  intros Hc Hw.
  rewrite (match_here_det _ _ _ (deterministic_for (c :: w))),
    (match_here_det _ _ _ deterministic_empty).
  unfold empty_re_for, empty_re. split.
  - change (match_det (Boundary :: ?re) [] prev s 0)
      with (if at_boundary prev s then match_det re [] prev s 0 else None).
    destruct (at_boundary prev s) eqn:Hb; [|discriminate].
    destruct (match_det (map lit (c :: w) ++ empty_tail)%list [] prev s 0) eqn:E;
      [|discriminate].
    intros _. destruct (lits_inv _ _ _ _ _ _ _ E) as (s' & ->).
    rewrite lits_step in E.
    assert (Hdot : exists s'', s' = "."%char :: s'').
    { unfold empty_tail in E. apply lit_inv in E as (s'' & -> & _). eauto. }
    destruct Hdot as (s'' & ->).
    change ((c :: w) ++ "."%char :: s'')%list
      with (c :: w ++ "."%char :: s'')%list in *.
    apply (boundary_before _ _ _ (ident_start_word _ Hc)) in Hb.
    assert (Hh := head_step empty_tail [] prev c w ("."%char :: s'') 0
                    Hb Hc Hw eq_refl).
    assert (Hs := plain_succeeds _ plain_empty_tail ("."%char :: s'')
                    [1 + List.length w; 0] (last_char (Some c) w) (1 + List.length w)
                    [] (last_char prev (c :: w)) (0 + List.length (c :: w))).
    rewrite E in Hs.
    destruct (match_det empty_tail [1 + List.length w; 0] _ _ _)
      as [[L ms]|] eqn:E2; [|discriminate].
    exists (L, ms). split; [exact Hh|].
    destruct (match_det_result _ _ _ _ _ _ _ E2) as [[extra [-> _]] _].
    simpl rev. simpl app. rewrite name_of_head.
    change (c :: w ++ "."%char :: s'')%list with ((c :: w) ++ "."%char :: s'')%list.
    change (S (List.length w)) with (List.length (c :: w)).
    rewrite firstn_exact. reflexivity.
  - intros ([L ms] & Hm & Hn).
    destruct (head_match _ _ _ _ _ Hm) as (c' & s1 & extra & -> & Hc' & Hb & -> & _ & Ht).
    rewrite name_of_head in Hn. simpl firstn in Hn. rewrite firstn_take_while in Hn.
    apply (f_equal list_ascii_of_string) in Hn.
    rewrite !list_ascii_of_string_of_list_ascii in Hn.
    injection Hn as -> Hw'.
    change (match_det (Boundary :: ?re) [] prev ?s 0)
      with (if at_boundary prev s then match_det re [] prev s 0 else None).
    rewrite Hb. rewrite <- (take_drop is_word s1) at 1. rewrite Hw'.
    change (c :: w ++ drop_while is_word s1)%list
      with ((c :: w) ++ drop_while is_word s1)%list.
    rewrite lits_step.
    rewrite (plain_succeeds _ plain_empty_tail _ _ _ _
               [S (List.length (take_while is_word s1)); 0]
               (last_char (Some c) (take_while is_word s1))
               (S (List.length (take_while is_word s1)))).
    rewrite Ht. reflexivity.
Qed.

(** On a whole line: the search of the second loop succeeds exactly when
    the line has an occurrence of the empty-check pattern for that name. *)
Lemma empty_for_line name line :
  valid_identifier name ->
  succeeds_search
    (search_from (empty_re_for (list_ascii_of_string name)) None
       (list_ascii_of_string line)) = true <->
  exists m, In m (empty_checks line) /\ name_of m = name.
Proof.
  intros Hv. unfold valid_identifier in Hv.
  destruct (list_ascii_of_string name) as [|c w] eqn:EN; [discriminate|].
  simpl in Hv. apply andb_prop in Hv as [Hc Hw].
  assert (Hname : string_of_list_ascii (c :: w) = name).
  { rewrite <- EN. apply string_of_list_ascii_of_string. }
  rewrite search_reaches. unfold empty_checks. split.
  - intros (prev' & s' & Hr & Hm).
    apply (empty_for_here prev' s' c w Hc Hw) in Hm as (r & Hm & Hn).
    exists (match_object s' r). split; [|congruence].
    eapply empty_finditer_reaches; eauto.
  - intros (m & Hin & Hn).
    apply finditer_reaches in Hin as (prev' & s' & r & Hr & Hm & ->).
    exists prev', s'. split; [assumption|].
    apply (empty_for_here prev' s' c w Hc Hw). exists r. split; congruence.
Qed.

(** ** Lines on which a pattern does not match *)

Lemma plus_inv cs re marks prev s pos r :
  match_det (Plus cs :: re) marks prev s pos = Some r ->
  exists d w s',
    s = (d :: w ++ s')%list /\ in_charset cs d = true
    /\ forallb (in_charset cs) w = true
    /\ match_det re marks (last_char (Some d) w) s' (S pos + List.length w) = Some r.
Proof.
  simpl. destruct s as [|d s]; [discriminate|].
  destruct (in_charset cs d) eqn:Hd; [|discriminate]. intros H.
  exists d, (take_while (in_charset cs) s), (drop_while (in_charset cs) s).
  rewrite take_drop, take_while_all. auto.
Qed.

Lemma last_char_outside prev w :
  word_before prev = false -> forallb (fun c => negb (is_word c)) w = true ->
  word_before (last_char prev w) = false.
Proof.
  revert prev; induction w as [|c w IH]; intros prev Hp H; simpl in *; [assumption|].
  apply andb_prop in H as [Hc H]. apply IH; [|assumption].
  simpl. apply negb_true_iff, Hc.
Qed.

Lemma spaces_not_word w :
  forallb is_space w = true -> forallb (fun c => negb (is_word c)) w = true.
Proof.
  apply forallb_impl. intros c Hc. rewrite (space_not_word _ Hc). reflexivity.
Qed.

Lemma space_not_a c : is_space c = true -> Ascii.eqb "a" c = false.
Proof. each_char c. Qed.

(** Whitespace after the dot: the [.at] pattern matches nowhere. *)
Lemma at_spaced c w x ws d ds :
  is_ident_start c = true -> forallb is_word w = true ->
  is_space x = true -> forallb is_space ws = true ->
  is_digit d = true -> forallb is_digit ds = true ->
  finditer_from at_re None
    (c :: w ++ "."%char :: x :: ws
       ++ "a"%char :: "t"%char :: "("%char :: d :: ds ++ [")"%char])%list 0 = [].
Proof.
  intros Hc Hw Hx Hws Hd Hds. unfold at_re.
  rewrite finditer_fail.
  2:{ rewrite (head_here at_tail deterministic_at).
      rewrite head_step by (try assumption; reflexivity).
      unfold at_tail. rewrite one_step. apply lit_fail, space_not_a, Hx. }
  rewrite (walk_inside at_tail deterministic_at)
    by (try assumption; apply (ident_start_word _ Hc)).
  rewrite finditer_fail
    by (apply (head_none_start at_tail deterministic_at); reflexivity).
  change (x :: ws ++ ?s)%list with ((x :: ws) ++ s)%list.
  rewrite (walk_outside at_tail deterministic_at)
    by (apply spaces_outside; simpl; rewrite Hx; assumption).
  rewrite finditer_fail.
  2:{ rewrite (head_here at_tail deterministic_at).
      change ("t"%char :: "("%char :: d :: ds ++ [")"%char])%list
        with (["t"%char] ++ "("%char :: d :: ds ++ [")"%char])%list.
      rewrite head_step; try reflexivity.
      apply last_char_outside; [reflexivity|].
      apply spaces_not_word. simpl; rewrite Hx; assumption. }
  rewrite finditer_fail
    by (apply (head_none_inside at_tail deterministic_at); reflexivity).
  rewrite finditer_fail
    by (apply (head_none_start at_tail deterministic_at); reflexivity).
  change (d :: ds ++ ?s)%list with ((d :: ds) ++ s)%list.
  rewrite (walk_outside at_tail deterministic_at)
    by (apply digits_outside; simpl; rewrite Hd; assumption).
  rewrite finditer_fail
    by (apply (head_none_start at_tail deterministic_at); reflexivity).
  apply finditer_end, (head_none_end at_tail deterministic_at).
Qed.

Lemma star_stop cs re marks prev s pos :
  stops (in_charset cs) s ->
  match_det (Star cs :: re) marks prev s pos = match_det re marks prev s (pos + 0).
Proof. intros H. apply (star_step cs re marks prev [] s pos eq_refl H). Qed.

(** Two texts cut at the first occurrence of a character. *)
Lemma first_occurrence (q : ascii) a : forall a' r r',
  ~ In q a -> ~ In q a' ->
  (a ++ q :: r = a' ++ q :: r')%list -> a = a' /\ r = r'.
Proof.
  induction a as [|x a IH]; intros a' r r' Ha Ha' H.
  - destruct a' as [|y a']; simpl in H.
    + injection H as ->. auto.
    + injection H as <- _. exfalso; apply Ha'; left; reflexivity.
  - destruct a' as [|y a']; simpl in H.
    + injection H as -> _. exfalso; apply Ha; left; reflexivity.
    + injection H as -> H.
      destruct (IH a' r r') as [-> ->]; auto;
        intros Hin; [apply Ha | apply Ha']; right; assumption.
Qed.

(** A text cannot have its first [q1] before any [q2] and its first [q2]
    before any [q1]. *)
Lemma crossing (q1 q2 : ascii) X : forall A rest tail,
  q1 <> q2 -> ~ In q2 X -> ~ In q1 A ->
  (X ++ q1 :: rest)%list <> (A ++ q2 :: tail)%list.
Proof.
  induction X as [|x X IH]; intros A rest tail Hq HX HA H.
  - destruct A as [|a A]; simpl in H.
    + injection H as H _. contradiction.
    + injection H as <- _. apply HA; left; reflexivity.
  - destruct A as [|a A]; simpl in H.
    + injection H as -> _. apply HX; left; reflexivity.
    + injection H as -> H. apply (IH A rest tail Hq); auto;
        intros Hin; [apply HX | apply HA]; right; assumption.
Qed.

Lemma space_not_close c : is_space c = true -> Ascii.eqb close_bracket c = false.
Proof. each_char c. Qed.

Lemma digit_not_close c : is_digit c = true -> Ascii.eqb close_bracket c = false.
Proof. each_char c. Qed.

Lemma word_not_close c : is_word c = true -> Ascii.eqb close_bracket c = false.
Proof. each_char c. Qed.

Lemma class_without (q : ascii) (p : ascii -> bool) l :
  (forall c, p c = true -> Ascii.eqb q c = false) ->
  forallb p l = true -> ~ In q l.
Proof.
  intros Hp H. apply not_in_eqb. revert H. apply forallb_impl.
  intros c Hc. rewrite (Hp c Hc). reflexivity.
Qed.

Lemma index_not_literal marks prev e rest pos :
  ~ In close_bracket e -> not_literal e ->
  match_det [Star CsSpace; GroupOpen; Plus CsDigit; GroupClose; Star CsSpace;
             lit close_bracket] marks prev (e ++ close_bracket :: rest)%list pos
  = None.
Proof.
  intros He Hn.
  destruct (match_det _ marks prev (e ++ close_bracket :: rest)%list pos) eqn:E;
    [|reflexivity].
  exfalso.
  apply star_inv in E as (ws2 & s1 & Es & H2 & E).
  rewrite open_step in E.
  apply plus_inv in E as (d & ds & s2 & -> & Hd & Hds & E).
  rewrite close_step in E.
  apply star_inv in E as (ws3 & s3 & -> & H3 & E).
  apply lit_inv in E as (rest' & -> & _).
  assert (Eq : ((ws2 ++ d :: ds ++ ws3) ++ close_bracket :: rest')%list
               = (e ++ close_bracket :: rest)%list).
  { rewrite Es. right_nested. }
  apply first_occurrence in Eq as [Eq _]; [|  |assumption].
  - apply (Hn ws2 d ds ws3 H2 Hd Hds H3). symmetry; exact Eq.
  - intros Hin. apply in_app_or in Hin as [Hin|[Hin|Hin]].
    + revert Hin. apply (class_without _ is_space); auto using space_not_close.
    + subst d. discriminate.
    + apply in_app_or in Hin as [Hin|Hin]; revert Hin.
      * apply (class_without _ is_digit); auto using digit_not_close.
      * apply (class_without _ is_space); auto using space_not_close.
Qed.

(** The text of a match of the indexed-access pattern up to its opening
    bracket. *)
Lemma access_shape prev s r :
  match_det access_re [] prev s 0 = Some r ->
  exists c w ws1 tail,
    s = (c :: w ++ ws1 ++ "["%char :: tail)%list
    /\ is_ident_start c = true /\ forallb is_word w = true
    /\ forallb is_space ws1 = true.
Proof.
  intros H. destruct r as [L ms]. unfold access_re in H.
  destruct (head_match _ _ _ _ _ H) as (c & s1 & extra & -> & Hc & Hb & _ & _ & Ht).
  unfold access_tail in Ht.
  apply star_inv in Ht as (ws1 & s2 & Es & H1 & Ht).
  apply lit_inv in Ht as (tail & -> & _).
  exists c, (take_while is_word s1), ws1, tail.
  repeat split; try assumption.
  - f_equal. rewrite <- (take_drop is_word s1) at 1. f_equal. assumption.
  - apply take_while_all.
Qed.

Lemma space_not_open c : is_space c = true -> Ascii.eqb open_bracket c = false.
Proof. each_char c. Qed.

(** Before a closing bracket, and with no opening bracket in between,
    no indexed access begins. *)
Lemma access_none_before_close prev X rest :
  ~ In open_bracket X ->
  match_here access_re prev (X ++ close_bracket :: rest)%list = None.
Proof.
  intros HX. rewrite (match_here_det _ _ _ deterministic_access).
  destruct (match_det access_re [] prev (X ++ close_bracket :: rest)%list 0) eqn:E;
    [|reflexivity].
  exfalso. destruct (access_shape _ _ _ E) as (c & w & ws1 & tail & Es & Hc & Hw & H1).
  apply (crossing close_bracket open_bracket X (c :: w ++ ws1) rest tail);
    [discriminate | assumption | | rewrite Es; right_nested].
  intros [Hin|Hin].
  - subst c. discriminate.
  - apply in_app_or in Hin as [Hin|Hin]; revert Hin.
    + apply (class_without _ is_word); auto using word_not_close.
    + apply (class_without _ is_space); auto using space_not_close.
Qed.

Lemma walk_before_close X : forall prev rest,
  ~ In open_bracket X ->
  finditer_from access_re prev (X ++ close_bracket :: rest)%list 0 =
  finditer_from access_re None rest 0.
Proof.
  induction X as [|x X IH]; intros prev rest HX.
  - simpl app. rewrite finditer_fail
      by (apply (head_none_start access_tail deterministic_access); reflexivity).
    apply finditer_prev. reflexivity.
  - simpl app.
    rewrite finditer_fail by (apply (access_none_before_close prev (x :: X)), HX).
    apply IH. intros Hin. apply HX. right; assumption.
Qed.

(** An identifier and brackets around something that is not a decimal
    index: no indexed access is found from the identifier to the closing
    bracket. *)
Lemma access_not_literal prev c w e rest :
  word_before prev = false ->
  is_ident_start c = true -> forallb is_word w = true ->
  ~ In open_bracket e -> ~ In close_bracket e -> not_literal e ->
  finditer_from access_re prev
    (c :: w ++ open_bracket :: e ++ close_bracket :: rest)%list 0 =
  finditer_from access_re None rest 0.
Proof.
  intros Hp Hc Hw Ho Hcl Hn. unfold access_re.
  rewrite finditer_fail.
  2:{ rewrite (head_here access_tail deterministic_access).
      rewrite head_step by (try assumption; reflexivity).
      unfold access_tail.
      rewrite star_stop by reflexivity.
      rewrite one_step. apply index_not_literal; assumption. }
  rewrite (walk_inside access_tail deterministic_access)
    by (try assumption; apply (ident_start_word _ Hc)).
  rewrite finditer_fail
    by (apply (head_none_start access_tail deterministic_access); reflexivity).
  apply walk_before_close, Ho.
Qed.

(** ** Lines given as strings *)

Lemma chars_identifier name :
  valid_identifier name ->
  exists c w, list_ascii_of_string name = c :: w
              /\ is_ident_start c = true /\ forallb is_word w = true.
Proof.
  unfold valid_identifier. destruct (list_ascii_of_string name) as [|c w]; simpl;
    [discriminate|]. intros H. apply andb_prop in H. eauto.
Qed.

Lemma chars_decimal idx :
  decimal idx ->
  exists d ds, list_ascii_of_string idx = d :: ds
               /\ is_digit d = true /\ forallb is_digit ds = true.
Proof.
  unfold decimal. destruct (list_ascii_of_string idx) as [|d ds]; [discriminate|].
  intros H. apply andb_prop in H. eauto.
Qed.

Lemma chars_blank ws :
  blank ws ->
  exists x r, list_ascii_of_string ws = x :: r
              /\ is_space x = true /\ forallb is_space r = true.
Proof.
  unfold blank. destruct (list_ascii_of_string ws) as [|x r]; [discriminate|].
  intros H. apply andb_prop in H. eauto.
Qed.

Lemma string_of_chars name l :
  list_ascii_of_string name = l -> string_of_list_ascii l = name.
Proof. intros <-. apply string_of_list_ascii_of_string. Qed.

Lemma lacks_not_in c s : lacks c s -> ~ In c (list_ascii_of_string s).
Proof. apply not_in_eqb. Qed.

Lemma lacks_app c a b : lacks c a -> lacks c b -> lacks c (a ++ b).
Proof.
  unfold lacks. intros Ha Hb. rewrite chars_app, forallb_app, Ha, Hb. reflexivity.
Qed.

Lemma lacks_class (p : ascii -> bool) q s :
  (forall c, p c = true -> negb (Ascii.eqb q c) = true) ->
  forallb p (list_ascii_of_string s) = true -> lacks q s.
Proof. intros Hp. apply forallb_impl, Hp. Qed.

Lemma word_apart q c : is_word q = false -> is_word c = true -> negb (Ascii.eqb q c) = true.
Proof.
  intros Hq Hc. apply negb_true_iff. destruct (Ascii.eqb_spec q c); [congruence | reflexivity].
Qed.

Lemma space_apart q c : is_space q = false -> is_space c = true -> negb (Ascii.eqb q c) = true.
Proof.
  intros Hq Hc. apply negb_true_iff. destruct (Ascii.eqb_spec q c); [congruence | reflexivity].
Qed.

Lemma digit_apart q c : is_digit q = false -> is_digit c = true -> negb (Ascii.eqb q c) = true.
Proof.
  intros Hq Hc. apply negb_true_iff. destruct (Ascii.eqb_spec q c); [congruence | reflexivity].
Qed.

Lemma lacks_identifier q name : is_word q = false -> valid_identifier name -> lacks q name.
Proof.
  intros Hq Hv. apply (lacks_class is_word); [intros; apply word_apart; assumption|].
  apply identifier_word, Hv.
Qed.

Lemma lacks_whitespace q ws : is_space q = false -> whitespace ws -> lacks q ws.
Proof. intros Hq Hw. apply (lacks_class is_space); [intros; apply space_apart; assumption | exact Hw]. Qed.

Lemma lacks_decimal q idx : is_digit q = false -> decimal idx -> lacks q idx.
Proof.
  intros Hq Hd. apply (lacks_class is_digit); [intros; apply digit_apart; assumption|].
  destruct (chars_decimal _ Hd) as (d & ds & -> & H1 & H2). simpl. rewrite H1, H2. reflexivity.
Qed.

Lemma blank_whitespace ws : blank ws -> whitespace ws.
Proof.
  intros H. destruct (chars_blank _ H) as (x & r & E & H1 & H2).
  unfold whitespace. rewrite E. simpl. rewrite H1, H2. reflexivity.
Qed.

Lemma accesses_without line : lacks "[" line -> accesses line = [].
Proof.
  intros H. apply (finditer_without "["%char).
  - right; right; right; right; right; right; left; reflexivity.
  - apply lacks_not_in, H.
Qed.

Lemma at_accesses_without line : lacks "(" line -> at_accesses line = [].
Proof.
  intros H. apply (finditer_without "("%char).
  - do 9 right; left; reflexivity.
  - apply lacks_not_in, H.
Qed.

(** The matches of the indexed-access pattern on a line that holds an
    identifier, optional whitespace and a bracketed decimal index: those
    of the text before it, the match of the token, those of the text after
    it. *)
Lemma accesses_token pre name ws1 ws2 idx ws3 post :
  ends_outside_word pre -> valid_identifier name ->
  whitespace ws1 -> whitespace ws2 -> whitespace ws3 -> decimal idx ->
  accesses (pre ++ name ++ ws1 ++ "[" ++ ws2 ++ idx ++ ws3 ++ "]" ++ post) =
  (accesses pre
   ++ mk_match (name ++ ws1 ++ "[" ++ ws2 ++ idx ++ ws3 ++ "]") [name; idx]
   :: accesses post)%list.
Proof.
  intros Hpre Hn H1 H2 H3 Hi.
  destruct (chars_identifier _ Hn) as (c & w & EN & Hc & Hw).
  destruct (chars_decimal _ Hi) as (d & ds & EI & Hd & Hds).
  assert (Etext : string_of_list_ascii
            (c :: w ++ list_ascii_of_string ws1 ++ "["%char
               :: list_ascii_of_string ws2 ++ d :: ds
               ++ list_ascii_of_string ws3 ++ ["]"%char])%list
          = name ++ ws1 ++ "[" ++ ws2 ++ idx ++ ws3 ++ "]").
  { apply chars_inj. rewrite list_ascii_of_string_of_list_ascii, !chars_app, EN, EI.
    reflexivity. }
  unfold accesses. rewrite !chars_app, EN, EI.
  change (list_ascii_of_string "[") with ["["%char].
  change (list_ascii_of_string "]") with ["]"%char].
  cbn [app].
  rewrite accesses_before by (simpl; try lia; assumption).
  rewrite access_token_scan by assumption.
  rewrite Etext, (string_of_chars _ _ EN), (string_of_chars _ _ EI). reflexivity.
Qed.

Lemma at_accesses_token name ws1 ws2 idx ws3 :
  valid_identifier name ->
  whitespace ws1 -> whitespace ws2 -> whitespace ws3 -> decimal idx ->
  at_accesses (name ++ ".at" ++ ws1 ++ "(" ++ ws2 ++ idx ++ ws3 ++ ")") =
  [mk_match (name ++ ".at" ++ ws1 ++ "(" ++ ws2 ++ idx ++ ws3 ++ ")") [name; idx]].
Proof.
  intros Hn H1 H2 H3 Hi.
  destruct (chars_identifier _ Hn) as (c & w & EN & Hc & Hw).
  destruct (chars_decimal _ Hi) as (d & ds & EI & Hd & Hds).
  assert (Etext : string_of_list_ascii
            (c :: w ++ "."%char :: "a"%char :: "t"%char
               :: list_ascii_of_string ws1 ++ "("%char
               :: list_ascii_of_string ws2 ++ d :: ds
               ++ list_ascii_of_string ws3 ++ [")"%char])%list
          = name ++ ".at" ++ ws1 ++ "(" ++ ws2 ++ idx ++ ws3 ++ ")").
  { apply chars_inj. rewrite list_ascii_of_string_of_list_ascii, !chars_app, EN, EI.
    reflexivity. }
  unfold at_accesses. rewrite !chars_app, EN, EI.
  change (list_ascii_of_string ".at") with ["."%char; "a"%char; "t"%char].
  change (list_ascii_of_string "(") with ["("%char].
  change (list_ascii_of_string ")") with [")"%char].
  cbn [app].
  rewrite at_token_scan by (try assumption; reflexivity).
  rewrite Etext, (string_of_chars _ _ EN), (string_of_chars _ _ EI).
  rewrite (finditer_end at_re None (head_none_end at_tail deterministic_at None)).
  reflexivity.
Qed.

Lemma at_accesses_spaced name ws idx :
  valid_identifier name -> blank ws -> decimal idx ->
  at_accesses (name ++ "." ++ ws ++ "at(" ++ idx ++ ")") = [].
Proof.
  intros Hn Hw Hi.
  destruct (chars_identifier _ Hn) as (c & w & EN & Hc & Hcw).
  destruct (chars_blank _ Hw) as (x & r & EW & Hx & Hr).
  destruct (chars_decimal _ Hi) as (d & ds & EI & Hd & Hds).
  unfold at_accesses. rewrite !chars_app, EN, EW, EI.
  change (list_ascii_of_string ".") with ["."%char].
  change (list_ascii_of_string "at(") with ["a"%char; "t"%char; "("%char].
  change (list_ascii_of_string ")") with [")"%char].
  cbn [app]. apply at_spaced; assumption.
Qed.

Lemma literal_index_false e :
  literal_index e = false -> not_literal (list_ascii_of_string e).
Proof.
  intros H ws2 d ds ws3 H2 Hd Hds H3 E. unfold literal_index in H.
  rewrite E in H.
  rewrite drop_while_run in H by (try assumption; apply stops_cons, digit_not_space, Hd).
  rewrite Hd in H.
  assert (Hstop : stops is_digit ws3).
  { destruct ws3 as [|x ws3]; simpl in *; [exact I|].
    apply andb_prop in H3 as [Hx _]. apply space_not_digit, Hx. }
  rewrite (drop_while_run is_digit ds ws3) in H by assumption.
  rewrite <- (app_nil_r ws3) in H.
  rewrite drop_while_run in H by (try assumption; exact I).
  discriminate.
Qed.

Lemma accesses_not_literal pre name e post :
  ends_outside_word pre -> valid_identifier name -> literal_index e = false ->
  lacks "[" e -> lacks "]" e ->
  accesses (pre ++ name ++ "[" ++ e ++ "]" ++ post) =
  (accesses pre ++ accesses post)%list.
Proof.
  intros Hpre Hn He Ho Hc.
  destruct (chars_identifier _ Hn) as (c & w & EN & Hc1 & Hw).
  unfold accesses. rewrite !chars_app, EN.
  change (list_ascii_of_string "[") with [open_bracket].
  change (list_ascii_of_string "]") with [close_bracket].
  cbn [app].
  rewrite accesses_before by (simpl; try lia; assumption).
  rewrite access_not_literal; try assumption; try reflexivity.
  - apply lacks_not_in, Ho.
  - apply lacks_not_in, Hc.
  - apply literal_index_false, He.
Qed.

(** ** The issues of one line among the others *)

Lemma enumerate_app {A} (a : list A) x b : forall k,
  enumerate k (a ++ x :: b)%list =
  (enumerate k a ++ (k + List.length a, x)
   :: enumerate (S (k + List.length a)) b)%list.
Proof.
  unfold enumerate. induction a as [|y a IH]; intros k; simpl.
  - rewrite Nat.add_0_r. reflexivity.
  - rewrite IH, Nat.add_succ_r. reflexivity.
Qed.

Lemma check_vector_access_line before line after :
  check_vector_access (before ++ line :: after)%list =
  Ok (first_pass before
      ++ line_issues (S (List.length before), line)
      ++ issues_from (S (S (List.length before))) after)%list.
Proof.
  rewrite check_vector_access_eq, enumerate_app, flat_map_app. reflexivity.
Qed.

Lemma check_vector_access_single line :
  check_vector_access [line] = Ok (warnings 1 line ++ infos 1 line)%list.
Proof.
  rewrite check_vector_access_eq. unfold enumerate.
  cbn [List.length seq combine flat_map]. rewrite app_nil_r. reflexivity.
Qed.

(** ** The vocabulary of the statements and the code *)

Lemma accessed_on_collected file_lines name n :
  accessed_on file_lines name n <-> In (name, n) (collected file_lines).
Proof.
  rewrite collected_in. unfold accessed_on. split.
  - intros (line & ms1 & ms2 & m & Hn & Hl & E1 & E2 & Hm & Hg).
    rewrite finditer_access in E1. rewrite finditer_at in E2.
    injection E1 as <-. injection E2 as <-.
    exists line, m. repeat split; try assumption.
    assert (Hg' : group m 1 = Ok (name_of m)).
    { apply in_app_iff in Hm as [Hm|Hm].
      - apply (accesses_groups _ _ Hm).
      - apply (at_accesses_groups _ _ Hm). }
    rewrite Hg' in Hg. injection Hg as ->. reflexivity.
  - intros (line & m & Hn & Hl & Hm & <-).
    exists line, (accesses line), (at_accesses line), m.
    repeat split; try assumption.
    apply in_app_iff in Hm as [Hm|Hm].
    + apply (accesses_groups _ _ Hm).
    + apply (at_accesses_groups _ _ Hm).
Qed.

Lemma has_empty_check_iff line name :
  has_empty_check line name <->
  exists m, In m (empty_checks line) /\ name_of m = name.
Proof.
  unfold has_empty_check. split.
  - intros (ms & m & E & Hm & Hg). rewrite finditer_empty in E. injection E as <-.
    exists m. split; [assumption|].
    destruct (head_name_valid empty_tail _ _ _ _ deterministic_empty Hm) as [_ Hg'].
    rewrite Hg' in Hg. injection Hg as ->. reflexivity.
  - intros (m & Hm & <-). exists (empty_checks line), m.
    repeat split; try assumption.
    apply (head_name_valid empty_tail _ _ _ _ deterministic_empty Hm).
Qed.

(** The search of the second loop against the [EmptyCheck] pattern. *)
Lemma search_has_empty_check name line :
  valid_identifier name ->
  (exists m, Re.search (empty_check_pattern_for name) line = Ok (Some m)) <->
  has_empty_check line name.
Proof.
  intros Hv. rewrite has_empty_check_iff, <- (empty_for_line name line Hv).
  rewrite search_for by (apply identifier_word, Hv).
  destruct (search_from _ _ _) as [m|]; simpl; split.
  - reflexivity.
  - intros _. exists m. reflexivity.
  - intros (m & H). discriminate.
  - discriminate.
Qed.

Lemma unchecked_iff file_lines a :
  valid_identifier (fst a) ->
  unchecked file_lines a = true <->
  forall line, In line file_lines -> ~ has_empty_check line (fst a).
Proof.
  intros Hv. unfold unchecked, empty_check_found. rewrite negb_true_iff. split.
  - intros H line Hin Hc.
    apply has_empty_check_iff, (empty_for_line _ _ Hv) in Hc.
    assert (existsb (fun line =>
              succeeds_search
                (search_from (empty_re_for (list_ascii_of_string (fst a))) None
                   (list_ascii_of_string line))) file_lines = true); [|congruence].
    apply existsb_exists. exists line. auto.
  - intros H. destruct (existsb _ file_lines) eqn:E; [|reflexivity].
    apply existsb_exists in E as (line & Hin & Hs). exfalso.
    apply (H line Hin), has_empty_check_iff, (empty_for_line _ _ Hv), Hs.
Qed.

Lemma second_pass_in order file_lines name n :
  In (missing_empty_check_warning name n) (second_pass order file_lines) <->
  In (name, n) (collected file_lines) /\ unchecked file_lines (name, n) = true.
Proof.
  unfold second_pass. rewrite in_map_iff. split.
  - intros ([name' n'] & Hm & Hin). apply filter_In in Hin as [Hin Hu].
    apply (Permutation_in _ (set_iter_perm order _)) in Hin.
    unfold missing in Hm; simpl in Hm. symmetry in Hm.
    apply missing_inj in Hm as [-> ->]; [auto|].
    apply (collected_valid _ _ Hin).
  - intros [Hin Hu]. exists (name, n). split; [reflexivity|].
    apply filter_In. split; [|assumption].
    apply (Permutation_in _ (Permutation_sym (set_iter_perm order _))), Hin.
Qed.

Lemma second_pass_nodup order file_lines : NoDup (second_pass order file_lines).
Proof.
  unfold second_pass. apply NoDup_map_in.
  - apply NoDup_filter.
    apply (Permutation_NoDup (Permutation_sym (set_iter_perm order _))).
    apply collected_nodup.
  - intros [x n] [y k] Hx Hy H. apply filter_In in Hy as [Hy _].
    apply (Permutation_in _ (set_iter_perm order _)) in Hy.
    unfold missing in H; simpl in H.
    apply missing_inj in H as [-> ->]; [reflexivity|].
    apply (collected_valid _ _ Hy).
Qed.

Lemma first_pass_in file_lines name n m line :
  1 <= n -> nth_error file_lines (n - 1) = Some line ->
  (In m (accesses line) ->
   In (out_of_range_warning name (index_of m) n) (first_pass file_lines)
   \/ name_of m <> name)
  /\ (In m (at_accesses line) ->
      In (safe_access_info name (index_of m) n) (first_pass file_lines)
      \/ name_of m <> name).
Proof.
  intros Hn Hl.
  assert (He : In (n, line) (enumerate 1 file_lines)) by (apply enumerate_in; auto).
  destruct (string_dec (name_of m) name) as [<-|Hne]; [|split; right; assumption].
  split; intros Hm; left; unfold first_pass, issues_from; apply in_flat_map;
    exists (n, line); (split; [assumption|]); unfold line_issues; apply in_or_app.
  - left. apply in_map_iff. exists m. auto.
  - right. apply in_map_iff. exists m. auto.
Qed.

(* ------------------------------------------------------------------ *)
(** * The claims of the specification *)

(** C1.  On the one-line file of the specification's end-to-end example
    (with or without a line terminator) the first pass gives the warning
    for [v[2]] and then the information for [v.at(0)], both at line 1;
    the second pass gives nothing, whatever the order of iteration,
    because [v.empty()] stands on the line; the report is the header and
    these two lines. *)
Theorem C1_end_to_end_example :
  forall (terminated : bool) (order : set_order) (file_path : string)
         (stdout : list string),
    check_vector_access (example_file terminated) =
      Ok ["Warning: Potential out-of-range access using 'v[2]' at line 1";
          "Info: Safe access found using 'v.at(0)' at line 1"]
    /\ check_empty_before_access order (example_file terminated) = Ok []
    /\ analyze_cpp_file order (fun _ => Ok (example_file terminated))
         file_path stdout =
       ((stdout ++
         [("Issues found in " ++ file_path ++ ":")%string;
          "  Warning: Potential out-of-range access using 'v[2]' at line 1";
          "  Info: Safe access found using 'v.at(0)' at line 1"])%list,
        Ok tt).
Proof.
  intros t order path out.
  assert (H1 : first_pass (example_file t) =
               ["Warning: Potential out-of-range access using 'v[2]' at line 1";
                "Info: Safe access found using 'v.at(0)' at line 1"])
    by (destruct t; vm_compute; reflexivity).
  assert (H2 : second_pass order (example_file t) = []).
  { unfold second_pass.
    assert (E : collected (example_file t) = [("v", 1)])
      by (destruct t; vm_compute; reflexivity).
    rewrite E.
    rewrite (Permutation_length_1_inv
               (Permutation_sym (set_iter_perm order [("v", 1)]))).
    destruct t; vm_compute; reflexivity. }
  split; [|split].
  - rewrite check_vector_access_eq. exact (f_equal Ok H1).
  - rewrite check_empty_before_access_eq. exact (f_equal Ok H2).
  - rewrite (analyze_cpp_file_eq order _ path out (example_file t) eq_refl).
    rewrite H1, H2. reflexivity.
Qed.

(** C2, as the code has it.  The claim says that whitespace between the
    identifier and the bracket prevents the match; the pattern has [\s*]
    there, and [v [3]] is reported (as [v[3]]). *)
Lemma C2_counterexample :
  Re.finditer vector_access_pattern "v [3]" = Ok [mk_match "v [3]" ["v"; "3"]]
  /\ check_vector_access ["v [3]"] =
     Ok ["Warning: Potential out-of-range access using 'v[3]' at line 1"].
Proof. split; reflexivity. Qed.

(** C2, amended.  Whitespace may stand between the identifier and the
    opening bracket: an identifier, any run of whitespace and a bracketed
    decimal index match the indexed-access pattern, and the line gives
    exactly one out-of-range warning, which names the access without the
    whitespace. *)
Theorem C2_whitespace_before_bracket :
  forall name ws idx : string,
    valid_identifier name -> whitespace ws -> decimal idx ->
    Re.finditer vector_access_pattern (name ++ ws ++ "[" ++ idx ++ "]") =
      Ok [mk_match (name ++ ws ++ "[" ++ idx ++ "]") [name; idx]]
    /\ check_vector_access [name ++ ws ++ "[" ++ idx ++ "]"] =
       Ok [out_of_range_warning name idx 1].
Proof.
  intros name ws idx Hn Hw Hi.
  assert (Ha : accesses (name ++ ws ++ "[" ++ idx ++ "]") =
               [mk_match (name ++ ws ++ "[" ++ idx ++ "]") [name; idx]]).
  { exact (accesses_token "" name ws "" idx "" "" eq_refl Hn Hw eq_refl eq_refl Hi). }
  split.
  - rewrite finditer_access, Ha. reflexivity.
  - rewrite check_vector_access_single. unfold warnings, infos.
    rewrite Ha, at_accesses_without; [reflexivity|].
    apply lacks_app; [apply lacks_identifier; [reflexivity | assumption]|].
    apply lacks_app; [apply lacks_whitespace; [reflexivity | assumption]|].
    apply lacks_app; [reflexivity|].
    apply lacks_app; [apply lacks_decimal; [reflexivity | assumption] | reflexivity].
Qed.

Lemma C2_whitespace_before_bracket_witness :
  valid_identifier "v" /\ whitespace " " /\ decimal "3"
  /\ check_vector_access ["v [3]"] = Ok [out_of_range_warning "v" "3" 1].
Proof.
  split; [reflexivity|]. split; [reflexivity|]. split; [reflexivity|].
  apply (C2_whitespace_before_bracket "v" " " "3"); reflexivity.
Defined.

(** C3, as the code has it.  The claim says that whitespace may stand
    between the dot and [at]; the pattern has [\.at] with nothing in
    between, and [v. at(3)] is not reported. *)
Lemma C3_counterexample :
  Re.finditer vector_at_pattern "v. at(3)" = Ok []
  /\ check_vector_access ["v. at(3)"] = Ok [].
Proof. split; reflexivity. Qed.

(** C3, amended.  No whitespace may stand between the dot and [at]: an
    identifier, a dot, whitespace and [at(idx)] do not match the
    safe-access pattern and the line gives no issue.  Whitespace may stand
    after [at] and around the index: there the pattern matches and one
    safe-access information is given. *)
Theorem C3_no_whitespace_after_dot :
  forall name ws ws1 ws2 ws3 idx : string,
    valid_identifier name -> blank ws ->
    whitespace ws1 -> whitespace ws2 -> whitespace ws3 -> decimal idx ->
    (Re.finditer vector_at_pattern (name ++ "." ++ ws ++ "at(" ++ idx ++ ")") = Ok []
     /\ check_vector_access [name ++ "." ++ ws ++ "at(" ++ idx ++ ")"] = Ok [])
    /\ (Re.finditer vector_at_pattern
          (name ++ ".at" ++ ws1 ++ "(" ++ ws2 ++ idx ++ ws3 ++ ")") =
          Ok [mk_match (name ++ ".at" ++ ws1 ++ "(" ++ ws2 ++ idx ++ ws3 ++ ")")
                [name; idx]]
        /\ check_vector_access
             [name ++ ".at" ++ ws1 ++ "(" ++ ws2 ++ idx ++ ws3 ++ ")"] =
           Ok [safe_access_info name idx 1]).
Proof.
  intros name ws ws1 ws2 ws3 idx Hn Hw H1 H2 H3 Hi.
  assert (Hb : forall q s, is_word q = false -> is_space q = false ->
               is_digit q = false -> lacks q "." -> lacks q "at(" ->
               lacks q ".at" -> lacks q "(" -> lacks q ")" ->
               (s = name ++ "." ++ ws ++ "at(" ++ idx ++ ")"
                \/ s = name ++ ".at" ++ ws1 ++ "(" ++ ws2 ++ idx ++ ws3 ++ ")") ->
               lacks q s).
  { intros q s Q1 Q2 Q3 L1 L2 L3 L4 L5 [->| ->];
      repeat (apply lacks_app;
              [first [ assumption
                     | apply lacks_identifier; assumption
                     | apply lacks_whitespace; [assumption|];
                       first [assumption | apply blank_whitespace; assumption]
                     | apply lacks_decimal; assumption ] |]);
      assumption. }
  split; split.
  - rewrite finditer_at, at_accesses_spaced by assumption. reflexivity.
  - rewrite check_vector_access_single. unfold warnings, infos.
    rewrite at_accesses_spaced by assumption.
    rewrite accesses_without; [reflexivity|].
    apply (Hb "["%char); auto; reflexivity.
  - rewrite finditer_at, at_accesses_token by assumption. reflexivity.
  - rewrite check_vector_access_single. unfold warnings, infos.
    rewrite at_accesses_token by assumption.
    rewrite accesses_without; [reflexivity|].
    apply (Hb "["%char); auto; reflexivity.
Qed.

Lemma C3_no_whitespace_after_dot_witness :
  valid_identifier "v" /\ blank " " /\ whitespace " " /\ whitespace ""
  /\ decimal "3"
  /\ check_vector_access ["v. at(3)"] = Ok []
  /\ check_vector_access ["v.at (3)"] = Ok [safe_access_info "v" "3" 1].
Proof.
  do 5 (split; [reflexivity|]).
  split.
  - apply (C3_no_whitespace_after_dot "v" " " " " "" "" "3"); reflexivity.
  - apply (C3_no_whitespace_after_dot "v" " " " " "" "" "3"); reflexivity.
Defined.

(** C4.  The second pass never raises, its issues are all warnings of a
    missing empty check, no warning occurs twice, and the warning for
    (name, line) is among them exactly when some match of the
    indexed-access or the safe-access pattern on that line captures the
    name and no line of the file has an occurrence of the empty-check
    pattern that captures it. *)
Theorem C4_missing_empty_check_warnings :
  forall (order : set_order) (file_lines : list string),
  exists issues,
    check_empty_before_access order file_lines = Ok issues
    /\ NoDup issues
    /\ (forall issue, In issue issues ->
          exists name n, issue = missing_empty_check_warning name n)
    /\ forall name n,
         In (missing_empty_check_warning name n) issues <->
         accessed_on file_lines name n
         /\ forall line, In line file_lines -> ~ has_empty_check line name.
Proof.
  intros order file_lines. exists (second_pass order file_lines).
  split; [apply check_empty_before_access_eq|].
  split; [apply second_pass_nodup|]. split.
  - intros issue H. unfold second_pass in H. apply in_map_iff in H as ([name n] & <- & _).
    exists name, n. reflexivity.
  - intros name n. rewrite second_pass_in, accessed_on_collected. split.
    + intros [Hin Hu]. split; [assumption|].
      apply (unchecked_iff file_lines (name, n)); [|assumption].
      apply (collected_valid _ _ Hin).
    + intros [Hin Hu]. split; [assumption|].
      apply (unchecked_iff file_lines (name, n)); [|assumption].
      apply (collected_valid _ _ Hin).
Qed.

(** C5.  A bracketed decimal index after an identifier that begins at a
    word boundary gives exactly one out-of-range warning, in the format of
    the specification, with the name, the index and the number of the
    line: the warnings of the line are those of the text before the
    access, this one, and those of the text after it.  An identifier and
    brackets around something that is not a decimal index (and holds no
    bracket or parenthesis of its own) match neither pattern, add no
    warning to those of the text before and after them, and alone on a
    line give no issue. *)
Theorem C5_literal_indices_only :
  forall (before after : list string) (pre name idx post e : string),
    valid_identifier name -> decimal idx -> ends_outside_word pre ->
    literal_index e = false -> lacks "[" e -> lacks "]" e -> lacks "(" e ->
    check_vector_access
      (before ++ (pre ++ name ++ "[" ++ idx ++ "]" ++ post)%string :: after)%list =
      Ok (first_pass before
          ++ (warnings (S (List.length before)) pre
              ++ out_of_range_warning name idx (S (List.length before))
              :: warnings (S (List.length before)) post
              ++ infos (S (List.length before))
                   (pre ++ name ++ "[" ++ idx ++ "]" ++ post)%string)
          ++ issues_from (S (S (List.length before))) after)%list
    /\ out_of_range_warning name idx (S (List.length before)) =
       "Warning: Potential out-of-range access using '" ++ name ++ "[" ++ idx
       ++ "]' at line " ++ str (S (List.length before))
    /\ Re.finditer vector_access_pattern (name ++ "[" ++ e ++ "]") = Ok []
    /\ Re.finditer vector_at_pattern (name ++ "[" ++ e ++ "]") = Ok []
    /\ check_vector_access
         (before ++ (pre ++ name ++ "[" ++ e ++ "]" ++ post)%string :: after)%list =
       Ok (first_pass before
           ++ (warnings (S (List.length before)) pre
               ++ warnings (S (List.length before)) post
               ++ infos (S (List.length before))
                    (pre ++ name ++ "[" ++ e ++ "]" ++ post)%string)
           ++ issues_from (S (S (List.length before))) after)%list
    /\ check_vector_access (before ++ (name ++ "[" ++ e ++ "]")%string :: after)%list =
       Ok (first_pass before
           ++ issues_from (S (S (List.length before))) after)%list.
Proof.
  intros before after pre name idx post e Hn Hi Hpre He Lo Lc Lp.
  assert (Ha : accesses (name ++ "[" ++ e ++ "]") = []).
  { exact (accesses_not_literal "" name e "" eq_refl Hn He Lo Lc). }
  assert (Hat : at_accesses (name ++ "[" ++ e ++ "]") = []).
  { apply at_accesses_without.
    apply lacks_app; [apply lacks_identifier; [reflexivity | assumption]|].
    apply lacks_app; [reflexivity|].
    apply lacks_app; [assumption | reflexivity]. }
  split; [|split; [|split; [|split; [|split]]]].
  - rewrite check_vector_access_line.
    apply f_equal, f_equal, (f_equal (fun l => (l ++ _)%list)).
    unfold line_issues; cbn [fst snd].
    rewrite (accesses_token pre name "" "" idx "" post Hpre Hn eq_refl eq_refl
               eq_refl Hi
             : accesses (pre ++ name ++ "[" ++ idx ++ "]" ++ post) =
               (accesses pre
                ++ mk_match (name ++ "[" ++ idx ++ "]") [name; idx]
                :: accesses post)%list).
    rewrite map_app. simpl map. unfold warnings, infos.
    rewrite <- !app_assoc. reflexivity.
  - reflexivity.
  - rewrite finditer_access, Ha. reflexivity.
  - rewrite finditer_at, Hat. reflexivity.
  - rewrite check_vector_access_line.
    apply f_equal, f_equal, (f_equal (fun l => (l ++ _)%list)).
    unfold line_issues; cbn [fst snd].
    rewrite accesses_not_literal by assumption.
    rewrite map_app. unfold warnings, infos.
    rewrite <- !app_assoc. reflexivity.
  - rewrite check_vector_access_line. apply f_equal, f_equal.
    change (issues_from (S (S (List.length before))) after)
      with ([] ++ issues_from (S (S (List.length before))) after)%list at 2.
    apply (f_equal (fun l => (l ++ _)%list)).
    unfold line_issues; cbn [fst snd].
    rewrite Ha, Hat. reflexivity.
Qed.

Lemma C5_literal_indices_only_witness :
  valid_identifier "data" /\ decimal "3" /\ ends_outside_word "x = "
  /\ literal_index "x+1" = false
  /\ lacks "[" "x+1" /\ lacks "]" "x+1" /\ lacks "(" "x+1"
  /\ check_vector_access ["int x;"; "x = data[3];"] =
     Ok ["Warning: Potential out-of-range access using 'data[3]' at line 2"]
  /\ check_vector_access ["int x;"; "x = data[x+1];"] = Ok []
  /\ check_vector_access ["int x;"; "data[x+1]"] = Ok [].
Proof.
  do 7 (split; [reflexivity|]).
  destruct (C5_literal_indices_only ["int x;"] [] "x = " "data" "3" ";" "x+1"
              eq_refl eq_refl eq_refl eq_refl eq_refl eq_refl eq_refl)
    as (H1 & _ & _ & _ & H2 & H3).
  split; [exact H1 | split; [exact H2 | exact H3]].
Defined.

(** C6, as the code has it.  The order of the warnings of the second pass
    is the order in which the interpreter iterates over the set, which
    the lines do not determine: on the line [v[0] w[1]] the two warnings
    come in either order. *)
Lemma C6_counterexample :
  fst (analyze_cpp_file insertion_order (fun _ => Ok ["v[0] w[1]"]) "a.cpp" []) =
    ["Issues found in a.cpp:";
     "  Warning: Potential out-of-range access using 'v[0]' at line 1";
     "  Warning: Potential out-of-range access using 'w[1]' at line 1";
     "  Warning: No empty() check found before accessing 'v' at line 1";
     "  Warning: No empty() check found before accessing 'w' at line 1"]
  /\ fst (analyze_cpp_file reverse_order (fun _ => Ok ["v[0] w[1]"]) "a.cpp" []) =
    ["Issues found in a.cpp:";
     "  Warning: Potential out-of-range access using 'v[0]' at line 1";
     "  Warning: Potential out-of-range access using 'w[1]' at line 1";
     "  Warning: No empty() check found before accessing 'w' at line 1";
     "  Warning: No empty() check found before accessing 'v' at line 1"]
  /\ analyze_cpp_file insertion_order (fun _ => Ok ["v[0] w[1]"]) "a.cpp" [] <>
     analyze_cpp_file reverse_order (fun _ => Ok ["v[0] w[1]"]) "a.cpp" [].
Proof.
  split; [reflexivity|]. split; [reflexivity|].
  vm_compute. intros H. discriminate H.
Qed.

(** C6, amended.  The report is determined by the lines and by the order
    in which the set is iterated: under two orders of iteration the two
    runs print the same header and the same issues of the first pass, in
    the same order, and then warnings of the second pass that are
    rearrangements of one another. *)
Theorem C6_determined_up_to_set_order :
  forall (order1 order2 : set_order) (fs : filesystem) (file_path : string)
         (stdout file_lines : list string),
    fs file_path = Ok file_lines ->
    exists issues1 issues2 issues2',
      check_vector_access file_lines = Ok issues1
      /\ check_empty_before_access order1 file_lines = Ok issues2
      /\ check_empty_before_access order2 file_lines = Ok issues2'
      /\ Permutation issues2 issues2'
      /\ analyze_cpp_file order1 fs file_path stdout =
         ((stdout ++ report file_path (issues1 ++ issues2))%list, Ok tt)
      /\ analyze_cpp_file order2 fs file_path stdout =
         ((stdout ++ report file_path (issues1 ++ issues2'))%list, Ok tt).
Proof.
  intros order1 order2 fs path out file_lines Hfs.
  exists (first_pass file_lines), (second_pass order1 file_lines),
    (second_pass order2 file_lines).
  split; [apply check_vector_access_eq|].
  split; [apply check_empty_before_access_eq|].
  split; [apply check_empty_before_access_eq|].
  split; [|split; apply analyze_cpp_file_eq; assumption].
  unfold second_pass. apply Permutation_map, Permutation_filter.
  eapply Permutation_trans; [apply set_iter_perm|].
  apply Permutation_sym, set_iter_perm.
Qed.

Lemma C6_determined_up_to_set_order_witness :
  (fun _ : string => Ok ["v[0] w[1]"]) "a.cpp" = Ok ["v[0] w[1]"]
  /\ exists issues1 issues2 issues2',
       check_vector_access ["v[0] w[1]"] = Ok issues1
       /\ check_empty_before_access insertion_order ["v[0] w[1]"] = Ok issues2
       /\ check_empty_before_access reverse_order ["v[0] w[1]"] = Ok issues2'
       /\ Permutation issues2 issues2'
       /\ analyze_cpp_file insertion_order (fun _ => Ok ["v[0] w[1]"]) "a.cpp" [] =
          (([] ++ report "a.cpp" (issues1 ++ issues2))%list, Ok tt)
       /\ analyze_cpp_file reverse_order (fun _ => Ok ["v[0] w[1]"]) "a.cpp" [] =
          (([] ++ report "a.cpp" (issues1 ++ issues2'))%list, Ok tt).
Proof.
  split; [reflexivity|].
  apply (C6_determined_up_to_set_order insertion_order reverse_order
           (fun _ => Ok ["v[0] w[1]"]) "a.cpp" [] ["v[0] w[1]"]).
  reflexivity.
Defined.

(** C7.  The two passes return a list of issues for every sequence of
    lines and every order of iteration: the patterns compile (the one
    built from a captured name too), every match has the groups that are
    read, and text that matches nothing gives no issue, as on the empty
    file and on lines with unmatched or malformed brackets. *)
Theorem C7_analysis_is_total :
  forall (order : set_order) (file_lines : list string),
    (exists issues, check_vector_access file_lines = Ok issues)
    /\ (exists issues, check_empty_before_access order file_lines = Ok issues)
    /\ check_vector_access [] = Ok []
    /\ check_empty_before_access order [] = Ok []
    /\ check_vector_access malformed_lines = Ok []
    /\ check_empty_before_access order malformed_lines = Ok [].
Proof.
  intros order file_lines.
  assert (Hnil : forall lines, collected lines = [] ->
                 check_empty_before_access order lines = Ok []).
  { intros lines E. rewrite check_empty_before_access_eq, E.
    rewrite (Permutation_nil (Permutation_sym (set_iter_perm order []))).
    reflexivity. }
  split; [eexists; apply check_vector_access_eq|].
  split; [eexists; apply check_empty_before_access_eq|].
  split; [reflexivity|]. split; [apply Hnil; reflexivity|].
  split; [reflexivity|]. apply Hnil. reflexivity.
Qed.

(** C8, as the code has it.  The claim says that the operation fails with
    an [IOError] also when the file cannot be decoded; [readlines] then
    raises [UnicodeDecodeError], which is a [ValueError] and no
    [IOError], and this is the exception that reaches the caller. *)
Lemma C8_counterexample :
  analyze_cpp_file insertion_order (open_readlines (fun _ => Undecodable))
    "a.cpp" [] = ([], Raise UnicodeDecodeError)
  /\ is_IOError UnicodeDecodeError = false.
Proof. split; reflexivity. Qed.

(** C8, amended.  The operation fails with the exception of [open] or
    [readlines], which goes to the caller as it is: an [OSError] (that
    is, an [IOError]) when the file cannot be opened, a
    [UnicodeDecodeError] (not an [IOError]) when its bytes are not UTF-8;
    in both cases nothing is printed.  When the file is read, the
    operation prints the report, which has at least one line, and returns
    nothing.  Whatever exception the reading raises reaches the caller
    unchanged, with nothing printed. *)
Theorem C8_exception_of_open_or_readlines :
  forall (order : set_order) (disk : string -> file_content)
         (file_path : string) (stdout : list string),
    match disk file_path with
    | NoAccess =>
        analyze_cpp_file order (open_readlines disk) file_path stdout =
          (stdout, Raise OSError)
        /\ is_IOError OSError = true
    | Undecodable =>
        analyze_cpp_file order (open_readlines disk) file_path stdout =
          (stdout, Raise UnicodeDecodeError)
        /\ is_IOError UnicodeDecodeError = false
    | Text file_lines =>
        exists printed,
          printed <> []
          /\ analyze_cpp_file order (open_readlines disk) file_path stdout =
             ((stdout ++ printed)%list, Ok tt)
    end
    /\ forall (fs : filesystem) (e : exn),
         fs file_path = Raise e ->
         analyze_cpp_file order fs file_path stdout = (stdout, Raise e).
Proof.
  intros order disk path out. split.
  - destruct (disk path) as [| |file_lines] eqn:E.
    + split; [|reflexivity].
      unfold analyze_cpp_file, open_readlines. rewrite E. reflexivity.
    + split; [|reflexivity].
      unfold analyze_cpp_file, open_readlines. rewrite E. reflexivity.
    + exists (report path
                (first_pass file_lines ++ second_pass order file_lines)%list).
      split; [unfold report; destruct (is_empty _); discriminate|].
      apply analyze_cpp_file_eq. unfold open_readlines. rewrite E. reflexivity.
  - intros fs e E. unfold analyze_cpp_file. rewrite E. reflexivity.
Qed.

(** C9.  Every name that the first loop of the second pass collects is an
    identifier, and for such a name the pattern that the second loop
    builds matches a line exactly when the line has an occurrence of the
    empty-check pattern that captures this very name.  An empty check on
    [xv] or on [v2] is not one on [v]. *)
Theorem C9_suppression_pattern :
  forall (file_lines : list string) (vectors_accessed : list access)
         (name : string) (n : nat) (line : string),
    for_each (enumerate 1 file_lines) [] collect_line = Ok vectors_accessed ->
    In (name, n) vectors_accessed ->
    valid_identifier name
    /\ ((exists m, Re.search (empty_check_pattern_for name) line = Ok (Some m))
        <-> has_empty_check line name)
    /\ Re.search (empty_check_pattern_for "v") "xv.empty()" = Ok None
    /\ Re.search (empty_check_pattern_for "v") "v2.empty()" = Ok None.
Proof.
  intros file_lines S name n line Hc Hin.
  rewrite collect_eq in Hc. injection Hc as <-.
  assert (Hv : valid_identifier name) by apply (collected_valid _ _ Hin).
  split; [assumption|]. split; [apply search_has_empty_check; assumption|].
  split; reflexivity.
Qed.

Lemma C9_suppression_pattern_witness :
  for_each (enumerate 1 ["v[0]"]) [] collect_line = Ok [("v", 1)]
  /\ In ("v", 1) [("v", 1)]
  /\ ((exists m, Re.search (empty_check_pattern_for "v") "if (!v.empty())"
                 = Ok (Some m))
      <-> has_empty_check "if (!v.empty())" "v").
Proof.
  split; [reflexivity|]. split; [left; reflexivity|].
  apply (C9_suppression_pattern ["v[0]"] [("v", 1)] "v" 1 "if (!v.empty())");
    [reflexivity | left; reflexivity].
Defined.

(** C10.  A warning of the second pass for (name, line) comes with an
    issue of the first pass, an out-of-range warning or a safe-access
    information, for the same name on the same line. *)
Theorem C10_passes_agree :
  forall (order : set_order) (file_lines issues2 : list string)
         (name : string) (n : nat),
    check_empty_before_access order file_lines = Ok issues2 ->
    In (missing_empty_check_warning name n) issues2 ->
    exists issues1 index,
      check_vector_access file_lines = Ok issues1
      /\ (In (out_of_range_warning name index n) issues1
          \/ In (safe_access_info name index n) issues1).
Proof.
  intros order file_lines issues2 name n H Hin.
  rewrite check_empty_before_access_eq in H. injection H as <-.
  apply second_pass_in in Hin as [Hin _].
  apply collected_in in Hin as (line & m & Hn & Hl & Hm & Hname).
  exists (first_pass file_lines), (index_of m).
  split; [apply check_vector_access_eq|].
  destruct (first_pass_in file_lines name n m line Hn Hl) as [Ha Hb].
  apply in_app_iff in Hm as [Hm|Hm].
  - left. destruct (Ha Hm); [assumption | contradiction].
  - right. destruct (Hb Hm); [assumption | contradiction].
Qed.

Lemma C10_passes_agree_witness :
  check_empty_before_access insertion_order ["v[0]"] =
    Ok [missing_empty_check_warning "v" 1]
  /\ In (missing_empty_check_warning "v" 1) [missing_empty_check_warning "v" 1]
  /\ exists issues1 index,
       check_vector_access ["v[0]"] = Ok issues1
       /\ (In (out_of_range_warning "v" index 1) issues1
           \/ In (safe_access_info "v" index 1) issues1).
Proof.
  split; [reflexivity|]. split; [left; reflexivity|].
  apply (C10_passes_agree insertion_order ["v[0]"]
           [missing_empty_check_warning "v" 1] "v" 1);
    [reflexivity | left; reflexivity].
Defined.

(* ------------------------------------------------------------------ *)
(** * Beyond the specification: lemmas

    What follows is not in the specification: the walk over a directory,
    the texts that the patterns match, what the messages tell, and how
    the two passes behave when a file grows. *)

(** ** Loops that print *)

Lemma for_each_io_app {A} (a b : list A) body : forall stdout,
  for_each_io (a ++ b)%list body stdout =
  match for_each_io a body stdout with
  | (out, Ok _) => for_each_io b body out
  | (out, Raise e) => (out, Raise e)
  end.
Proof.
  induction a as [|x a IH]; intros stdout; simpl; [reflexivity|].
  destruct (body x stdout) as [out [u|e]]; [apply IH | reflexivity].
Qed.

Lemma for_each_io_filter {A} (p : A -> bool) (f : A -> string) body l :
  forall stdout,
    for_each_io l (fun x out => if p x then body (f x) out else (out, Ok tt)) stdout =
    for_each_io (map f (filter p l)) body stdout.
Proof.
  induction l as [|x l IH]; intros stdout; simpl; [reflexivity|].
  destruct (p x); simpl; [|apply IH].
  destruct (body (f x) stdout) as [out [u|e]]; [apply IH | reflexivity].
Qed.

Lemma directory_selected order walk fs directory_path stdout :
  analyze_cpp_directory order walk fs directory_path stdout =
  for_each_io (selected walk directory_path) (analyze_cpp_file order fs) stdout.
Proof.
  unfold analyze_cpp_directory, selected.
  generalize (walk directory_path) as entries. intros entries. revert stdout.
  induction entries as [|[[root dirs] files] entries IH]; intros stdout;
    [reflexivity|].
  cbn [for_each_io flat_map]. rewrite for_each_io_app.
  change (for_each_io files _ stdout) with
    (for_each_io files
       (fun file out => if is_cpp_source file
                        then analyze_cpp_file order fs (path_join root file) out
                        else (out, Ok tt)) stdout).
  rewrite (for_each_io_filter is_cpp_source (path_join root)
             (analyze_cpp_file order fs) files stdout).
  destruct (for_each_io (map (path_join root) (filter is_cpp_source files))
              (analyze_cpp_file order fs) stdout) as [out [u|e]];
    [apply IH | reflexivity].
Qed.

Lemma analyze_cpp_file_appends order fs file_path stdout :
  analyze_cpp_file order fs file_path stdout =
  ((stdout ++ file_report order fs file_path)%list,
   snd (analyze_cpp_file order fs file_path [])).
Proof.
  unfold file_report. destruct (fs file_path) as [file_lines|e] eqn:Hfs.
  - rewrite !(analyze_cpp_file_eq order fs file_path _ file_lines Hfs).
    reflexivity.
  - unfold analyze_cpp_file. rewrite Hfs. simpl. rewrite app_nil_r. reflexivity.
Qed.

Lemma analyze_readable order fs file_path :
  readable fs file_path -> snd (analyze_cpp_file order fs file_path []) = Ok tt.
Proof.
  intros [file_lines Hfs].
  rewrite (analyze_cpp_file_eq order fs file_path _ file_lines Hfs). reflexivity.
Qed.

Lemma analyze_unreadable order fs file_path e stdout :
  fs file_path = Raise e ->
  analyze_cpp_file order fs file_path stdout = (stdout, Raise e).
Proof. intros Hfs. unfold analyze_cpp_file. rewrite Hfs. reflexivity. Qed.

Lemma for_each_io_readable order fs paths : forall stdout,
  (forall p, In p paths -> readable fs p) ->
  for_each_io paths (analyze_cpp_file order fs) stdout =
  ((stdout ++ flat_map (file_report order fs) paths)%list, Ok tt).
Proof.
  induction paths as [|p paths IH]; intros stdout Hall; simpl.
  - rewrite app_nil_r. reflexivity.
  - rewrite analyze_cpp_file_appends.
    rewrite (analyze_readable order fs p (Hall p (or_introl eq_refl))).
    rewrite IH by (intros q Hq; apply Hall; right; exact Hq).
    rewrite <- app_assoc. reflexivity.
Qed.

Lemma for_each_io_ext {A} (l : list A) body body' : forall stdout,
  (forall x out, In x l -> body x out = body' x out) ->
  for_each_io l body stdout = for_each_io l body' stdout.
Proof.
  induction l as [|x l IH]; intros stdout Hext; simpl; [reflexivity|].
  rewrite <- (Hext x stdout (or_introl eq_refl)).
  destruct (body x stdout) as [out [u|e]]; [|reflexivity].
  apply IH. intros y o Hy. apply Hext. right. exact Hy.
Qed.

Lemma analyze_cpp_file_reads order fs fs' file_path stdout :
  fs file_path = fs' file_path ->
  analyze_cpp_file order fs file_path stdout =
  analyze_cpp_file order fs' file_path stdout.
Proof. intros H. unfold analyze_cpp_file. rewrite H. reflexivity. Qed.

Lemma endswith_iff suffix s :
  endswith s suffix = true <-> exists base, s = base ++ suffix.
Proof.
  induction s as [|c s IH].
  - destruct suffix as [|x suffix]; simpl.
    + split; [intros _; exists ""; reflexivity | reflexivity].
    + split; [discriminate|]. intros [base Hb].
      destruct base; simpl in Hb; discriminate.
  - cbn [endswith].
    destruct (String.eqb_spec (String c s) suffix) as [<-|Hne].
    + split; [intros _; exists ""; reflexivity | reflexivity].
    + rewrite IH. split.
      * intros [base ->]. exists (String c base). reflexivity.
      * intros [base Hb]. destruct base as [|b base]; simpl in Hb.
        -- exfalso. apply Hne. exact Hb.
        -- injection Hb as _ ->. exists base. reflexivity.
Qed.

Lemma selected_in walk directory_path p :
  In p (selected walk directory_path) <->
  exists root dirs files file,
    In (root, dirs, files) (walk directory_path) /\ In file files
    /\ is_cpp_source file = true /\ p = path_join root file.
Proof.
  unfold selected. rewrite in_flat_map. split.
  - intros [[[root dirs] files] [Hin Hp]]. apply in_map_iff in Hp.
    destruct Hp as [file [<- Hf]]. apply filter_In in Hf. destruct Hf as [Hf Hs].
    exists root, dirs, files, file. repeat split; assumption.
  - intros (root & dirs & files & file & Hin & Hf & Hs & ->).
    exists (root, dirs, files). split; [exact Hin|].
    apply in_map. apply filter_In. split; assumption.
Qed.

(** ** The texts that the access patterns match *)

Lemma reaches_split prev s prev' s' :
  reaches prev s prev' s' ->
  exists P, s = (P ++ s')%list /\ prev' = last_char prev P.
Proof.
  induction 1 as [prev s | prev c s prev' s' _ IH].
  - exists []. split; reflexivity.
  - destruct IH as [P [-> ->]]. exists (c :: P). split; reflexivity.
Qed.

Lemma reaches_app P : forall prev s, reaches prev (P ++ s)%list (last_char prev P) s.
Proof.
  induction P as [|c P IH]; intros prev s; simpl.
  - apply reach_here.
  - apply reach_next. apply IH.
Qed.

Lemma string_app a b :
  string_of_list_ascii (a ++ b)%list =
  string_of_list_ascii a ++ string_of_list_ascii b.
Proof. induction a as [|c a IH]; simpl; [reflexivity | rewrite IH; reflexivity]. Qed.

Lemma cons_head {A} (x y : A) l l' : x :: l = y :: l' -> x = y.
Proof. intros H. injection H as H _. exact H. Qed.

Lemma bracket_shape o c marks prev s pos r :
  match_det (bracket_tail o c) marks prev s pos = Some r ->
  exists ws1 ws2 d ds ws3 rest,
    s = (ws1 ++ o :: ws2 ++ d :: ds ++ ws3 ++ c :: rest)%list
    /\ forallb is_space ws1 = true /\ forallb is_space ws2 = true
    /\ forallb is_space ws3 = true
    /\ is_digit d = true /\ forallb is_digit ds = true.
Proof.
  unfold bracket_tail. intros H.
  apply star_inv in H. destruct H as (ws1 & s1 & -> & Hws1 & H).
  apply lit_inv in H. destruct H as (s2 & -> & H).
  apply star_inv in H. destruct H as (ws2 & s3 & -> & Hws2 & H).
  rewrite open_step in H.
  apply plus_inv in H. destruct H as (d & ds & s4 & -> & Hd & Hds & H).
  rewrite close_step in H.
  apply star_inv in H. destruct H as (ws3 & s5 & -> & Hws3 & H).
  apply lit_inv in H. destruct H as (rest & -> & _).
  exists ws1, ws2, d, ds, ws3, rest. repeat split; assumption.
Qed.

(** A match of the indexed-access pattern is an identifier at a word
    boundary, whitespace, and a decimal index between brackets, with
    whitespace around it. *)
Lemma access_match prev s r :
  match_here access_re prev s = Some r ->
  exists c w ws1 ws2 d ds ws3 rest,
    s = (c :: w ++ ws1 ++ "["%char :: ws2 ++ d :: ds ++ ws3 ++ "]"%char :: rest)%list
    /\ word_before prev = false
    /\ is_ident_start c = true /\ forallb is_word w = true
    /\ forallb is_space ws1 = true /\ forallb is_space ws2 = true
    /\ forallb is_space ws3 = true
    /\ is_digit d = true /\ forallb is_digit ds = true
    /\ match_object s r =
       mk_match
         (string_of_list_ascii
            (c :: w ++ ws1 ++ "["%char :: ws2 ++ d :: ds ++ ws3 ++ ["]"%char])%list)
         [string_of_list_ascii (c :: w); string_of_list_ascii (d :: ds)].
Proof.
  intros Hm. pose proof Hm as H.
  rewrite (match_here_det _ _ _ deterministic_access) in H.
  destruct r as [L ms].
  apply (head_match access_tail) in H.
  destruct H as (c & s1 & extra & -> & Hc & Hb & _ & _ & H).
  change access_tail with (bracket_tail "[" "]") in H.
  apply bracket_shape in H.
  destruct H as (ws1 & ws2 & d & ds & ws3 & rest & Hs & H1 & H2 & H3 & Hd & Hds).
  assert (Hwb : word_before prev = false).
  { apply (boundary_before prev c s1); [apply ident_start_word; exact Hc | exact Hb]. }
  assert (Hw : forallb is_word (take_while is_word s1) = true)
    by apply take_while_all.
  assert (Hs1 : s1 = (take_while is_word s1 ++ ws1 ++ "["%char :: ws2 ++ d :: ds
                        ++ ws3 ++ "]"%char :: rest)%list).
  { rewrite <- Hs. symmetry. apply take_drop. }
  exists c, (take_while is_word s1), ws1, ws2, d, ds, ws3, rest.
  split; [f_equal; exact Hs1|].
  repeat (split; [assumption|]).
  pose proof (access_token_scan prev c (take_while is_word s1) ws1 ws2 d ds ws3
                rest Hwb Hc Hw H1 H2 H3 Hd Hds) as Hscan.
  rewrite <- Hs1 in Hscan. rewrite finditer_here, Hm in Hscan.
  exact (cons_head _ _ _ _ Hscan).
Qed.

Lemma at_match prev s r :
  match_here at_re prev s = Some r ->
  exists c w ws1 ws2 d ds ws3 rest,
    s = (c :: w ++ "."%char :: "a"%char :: "t"%char
           :: ws1 ++ "("%char :: ws2 ++ d :: ds ++ ws3 ++ ")"%char :: rest)%list
    /\ word_before prev = false
    /\ is_ident_start c = true /\ forallb is_word w = true
    /\ forallb is_space ws1 = true /\ forallb is_space ws2 = true
    /\ forallb is_space ws3 = true
    /\ is_digit d = true /\ forallb is_digit ds = true
    /\ match_object s r =
       mk_match
         (string_of_list_ascii
            (c :: w ++ "."%char :: "a"%char :: "t"%char
               :: ws1 ++ "("%char :: ws2 ++ d :: ds ++ ws3 ++ [")"%char])%list)
         [string_of_list_ascii (c :: w); string_of_list_ascii (d :: ds)].
Proof.
  intros Hm. pose proof Hm as H.
  rewrite (match_here_det _ _ _ deterministic_at) in H.
  destruct r as [L ms].
  apply (head_match at_tail) in H.
  destruct H as (c & s1 & extra & -> & Hc & Hb & _ & _ & H).
  change at_tail with (lit "." :: lit "a" :: lit "t" :: bracket_tail "(" ")") in H.
  apply lit_inv in H. destruct H as (sa & Hs & H).
  apply lit_inv in H. destruct H as (sb & -> & H).
  apply lit_inv in H. destruct H as (sc & -> & H).
  apply bracket_shape in H.
  destruct H as (ws1 & ws2 & d & ds & ws3 & rest & -> & H1 & H2 & H3 & Hd & Hds).
  assert (Hwb : word_before prev = false).
  { apply (boundary_before prev c s1); [apply ident_start_word; exact Hc | exact Hb]. }
  assert (Hw : forallb is_word (take_while is_word s1) = true)
    by apply take_while_all.
  assert (Hs1 : s1 = (take_while is_word s1 ++ "."%char :: "a"%char :: "t"%char
                        :: ws1 ++ "("%char :: ws2 ++ d :: ds
                        ++ ws3 ++ ")"%char :: rest)%list).
  { rewrite <- Hs. symmetry. apply take_drop. }
  exists c, (take_while is_word s1), ws1, ws2, d, ds, ws3, rest.
  split; [f_equal; exact Hs1|].
  repeat (split; [assumption|]).
  pose proof (at_token_scan prev c (take_while is_word s1) ws1 ws2 d ds ws3
                rest Hwb Hc Hw H1 H2 H3 Hd Hds) as Hscan.
  rewrite <- Hs1 in Hscan. rewrite finditer_here, Hm in Hscan.
  exact (cons_head _ _ _ _ Hscan).
Qed.

Lemma chars_string l : list_ascii_of_string (string_of_list_ascii l) = l.
Proof. apply list_ascii_of_string_of_list_ascii. Qed.

(** The same for the lines of a file, as strings. *)
Lemma accesses_sound line m :
  In m (accesses line) ->
  exists pre name ws1 ws2 idx ws3 post,
    line = pre ++ name ++ ws1 ++ "[" ++ ws2 ++ idx ++ ws3 ++ "]" ++ post
    /\ ends_outside_word pre /\ valid_identifier name
    /\ whitespace ws1 /\ whitespace ws2 /\ whitespace ws3 /\ decimal idx
    /\ m = mk_match (name ++ ws1 ++ "[" ++ ws2 ++ idx ++ ws3 ++ "]") [name; idx].
Proof.
  unfold accesses. intros Hin. apply finditer_reaches in Hin.
  destruct Hin as (prev' & s' & r & Hr & Hm & ->).
  apply reaches_split in Hr. destruct Hr as (P & Hline & ->).
  apply access_match in Hm.
  destruct Hm as (c & w & ws1 & ws2 & d & ds & ws3 & rest & -> & Hwb & Hc & Hw
                  & H1 & H2 & H3 & Hd & Hds & Ho).
  exists (string_of_list_ascii P), (string_of_list_ascii (c :: w)),
    (string_of_list_ascii ws1), (string_of_list_ascii ws2),
    (string_of_list_ascii (d :: ds)), (string_of_list_ascii ws3),
    (string_of_list_ascii rest).
  split.
  { apply chars_inj. repeat rewrite chars_app. repeat rewrite chars_string.
    rewrite Hline. right_nested. }
  unfold ends_outside_word, valid_identifier, whitespace, decimal.
  repeat rewrite chars_string.
  split; [exact Hwb|].
  split; [simpl; rewrite Hc, Hw; reflexivity|].
  split; [exact H1|]. split; [exact H2|]. split; [exact H3|].
  split; [rewrite Hd, Hds; reflexivity|].
  rewrite Ho. f_equal. apply chars_inj.
  repeat rewrite chars_app. repeat rewrite chars_string. right_nested.
Qed.

Lemma at_accesses_sound line m :
  In m (at_accesses line) ->
  exists pre name ws1 ws2 idx ws3 post,
    line = pre ++ name ++ ".at" ++ ws1 ++ "(" ++ ws2 ++ idx ++ ws3 ++ ")" ++ post
    /\ ends_outside_word pre /\ valid_identifier name
    /\ whitespace ws1 /\ whitespace ws2 /\ whitespace ws3 /\ decimal idx
    /\ m = mk_match (name ++ ".at" ++ ws1 ++ "(" ++ ws2 ++ idx ++ ws3 ++ ")")
           [name; idx].
Proof.
  unfold at_accesses. intros Hin. apply finditer_reaches in Hin.
  destruct Hin as (prev' & s' & r & Hr & Hm & ->).
  apply reaches_split in Hr. destruct Hr as (P & Hline & ->).
  apply at_match in Hm.
  destruct Hm as (c & w & ws1 & ws2 & d & ds & ws3 & rest & -> & Hwb & Hc & Hw
                  & H1 & H2 & H3 & Hd & Hds & Ho).
  exists (string_of_list_ascii P), (string_of_list_ascii (c :: w)),
    (string_of_list_ascii ws1), (string_of_list_ascii ws2),
    (string_of_list_ascii (d :: ds)), (string_of_list_ascii ws3),
    (string_of_list_ascii rest).
  split.
  { apply chars_inj. repeat rewrite chars_app. repeat rewrite chars_string.
    rewrite Hline. right_nested. }
  unfold ends_outside_word, valid_identifier, whitespace, decimal.
  repeat rewrite chars_string.
  split; [exact Hwb|].
  split; [simpl; rewrite Hc, Hw; reflexivity|].
  split; [exact H1|]. split; [exact H2|]. split; [exact H3|].
  split; [rewrite Hd, Hds; reflexivity|].
  rewrite Ho. f_equal. apply chars_inj.
  repeat rewrite chars_app. repeat rewrite chars_string. right_nested.
Qed.

(** ** The text of an empty check *)

Lemma boundary_step re marks prev s pos :
  match_det (Boundary :: re) marks prev s pos =
  if at_boundary prev s then match_det re marks prev s pos else None.
Proof. reflexivity. Qed.

Lemma empty_tail_shape marks prev s pos r :
  match_det empty_tail marks prev s pos = Some r ->
  exists ws1 ws2 rest,
    s = ("."%char :: "e"%char :: "m"%char :: "p"%char :: "t"%char :: "y"%char
           :: ws1 ++ "("%char :: ws2 ++ ")"%char :: rest)%list
    /\ forallb is_space ws1 = true /\ forallb is_space ws2 = true.
Proof.
  unfold empty_tail. intros H.
  apply lit_inv in H. destruct H as (s1 & -> & H).
  apply lit_inv in H. destruct H as (s2 & -> & H).
  apply lit_inv in H. destruct H as (s3 & -> & H).
  apply lit_inv in H. destruct H as (s4 & -> & H).
  apply lit_inv in H. destruct H as (s5 & -> & H).
  apply lit_inv in H. destruct H as (s6 & -> & H).
  apply star_inv in H. destruct H as (ws1 & s7 & -> & Hws1 & H).
  apply lit_inv in H. destruct H as (s8 & -> & H).
  apply star_inv in H. destruct H as (ws2 & s9 & -> & Hws2 & H).
  apply lit_inv in H. destruct H as (rest & -> & _).
  exists ws1, ws2, rest. repeat split; assumption.
Qed.

Lemma empty_tail_token marks prev ws1 ws2 rest pos :
  forallb is_space ws1 = true -> forallb is_space ws2 = true ->
  succeeds
    (match_det empty_tail marks prev
       ("."%char :: "e"%char :: "m"%char :: "p"%char :: "t"%char :: "y"%char
          :: ws1 ++ "("%char :: ws2 ++ ")"%char :: rest)%list pos) = true.
Proof.
  intros H1 H2. unfold empty_tail. rewrite !one_step.
  rewrite (star_step CsSpace _ _ _ ws1) by (auto; apply stops_cons; reflexivity).
  rewrite one_step.
  rewrite (star_step CsSpace _ _ _ ws2) by (auto; apply stops_cons; reflexivity).
  rewrite one_step, end_step. reflexivity.
Qed.

(** The pattern of the second loop finds a match on a line exactly when
    the line holds the name at a word boundary, followed by [.empty], an
    opening and a closing parenthesis, with optional whitespace before and
    after the opening one. *)
Lemma empty_for_text name line :
  valid_identifier name ->
  succeeds_search
    (search_from (empty_re_for (list_ascii_of_string name)) None
       (list_ascii_of_string line)) = true <->
  exists pre ws1 ws2 post,
    ends_outside_word pre /\ whitespace ws1 /\ whitespace ws2
    /\ line = pre ++ name ++ ".empty" ++ ws1 ++ "(" ++ ws2 ++ ")" ++ post.
Proof.
  intros Hv. destruct (chars_identifier name Hv) as (c & w & Hn & Hc & Hw).
  rewrite search_reaches. split.
  - intros (prev' & s' & Hr & Hs).
    apply reaches_split in Hr. destruct Hr as (P & Hline & ->).
    rewrite (match_here_det _ _ _ (deterministic_for _)) in Hs.
    unfold empty_re_for in Hs. rewrite boundary_step in Hs.
    destruct (at_boundary (last_char None P) s') eqn:Hb; [|discriminate].
    destruct (match_det _ [] (last_char None P) s' 0) as [r|] eqn:Hm;
      [|discriminate].
    destruct (lits_inv _ _ _ _ _ _ _ Hm) as [s'' ->].
    rewrite lits_step in Hm. apply empty_tail_shape in Hm.
    destruct Hm as (ws1 & ws2 & rest & -> & H1 & H2).
    exists (string_of_list_ascii P), (string_of_list_ascii ws1),
      (string_of_list_ascii ws2), (string_of_list_ascii rest).
    unfold ends_outside_word, whitespace. rewrite !chars_string.
    split.
    { rewrite Hn in Hb. simpl in Hb.
      apply (boundary_before _ c (w ++ "."%char :: "e"%char :: "m"%char
                                    :: "p"%char :: "t"%char :: "y"%char
                                    :: ws1 ++ "("%char :: ws2 ++ ")"%char :: rest)%list);
        [apply ident_start_word; exact Hc | exact Hb]. }
    split; [exact H1|]. split; [exact H2|].
    apply chars_inj. repeat rewrite chars_app. repeat rewrite chars_string.
    rewrite Hline. right_nested.
  - intros (pre & ws1 & ws2 & post & Hpre & H1 & H2 & ->).
    exists (last_char None (list_ascii_of_string pre)),
      (list_ascii_of_string name
       ++ "."%char :: "e"%char :: "m"%char :: "p"%char :: "t"%char :: "y"%char
       :: list_ascii_of_string ws1 ++ "("%char :: list_ascii_of_string ws2
       ++ ")"%char :: list_ascii_of_string post)%list.
    split.
    + repeat rewrite chars_app.
      replace (list_ascii_of_string name ++ list_ascii_of_string ".empty"
               ++ list_ascii_of_string ws1 ++ list_ascii_of_string "("
               ++ list_ascii_of_string ws2 ++ list_ascii_of_string ")"
               ++ list_ascii_of_string post)%list
        with (list_ascii_of_string name
              ++ "."%char :: "e"%char :: "m"%char :: "p"%char :: "t"%char
              :: "y"%char :: list_ascii_of_string ws1
              ++ "("%char :: list_ascii_of_string ws2
              ++ ")"%char :: list_ascii_of_string post)%list
        by reflexivity.
      apply reaches_app.
    + rewrite (match_here_det _ _ _ (deterministic_for _)).
      unfold empty_re_for. rewrite boundary_step.
      replace (at_boundary _ _) with true.
      * rewrite lits_step. apply empty_tail_token; assumption.
      * symmetry. rewrite Hn. simpl.
        apply (boundary_before _ c); [apply ident_start_word; exact Hc|].
        exact Hpre.
Qed.

(** The same in the words of the program. *)
Lemma search_empty_text name line :
  valid_identifier name ->
  (exists m, Re.search (empty_check_pattern_for name) line = Ok (Some m)) <->
  exists pre ws1 ws2 post,
    ends_outside_word pre /\ whitespace ws1 /\ whitespace ws2
    /\ line = pre ++ name ++ ".empty" ++ ws1 ++ "(" ++ ws2 ++ ")" ++ post.
Proof.
  intros Hv. rewrite <- (empty_for_text name line Hv).
  rewrite (search_for name line (identifier_word _ Hv)).
  destruct (search_from _ None (list_ascii_of_string line)) as [m|]; simpl.
  - split; [reflexivity | intros _; exists m; reflexivity].
  - split; [intros [m H]; discriminate | discriminate].
Qed.

Lemma empty_check_suppresses order before after pre name ws1 ws2 post n :
  ends_outside_word pre -> whitespace ws1 -> whitespace ws2 ->
  ~ In (missing_empty_check_warning name n)
      (second_pass order
         (before
          ++ (pre ++ name ++ ".empty" ++ ws1 ++ "(" ++ ws2 ++ ")" ++ post)%string
          :: after)%list).
Proof.
  intros Hpre H1 H2 Hin. apply second_pass_in in Hin. destruct Hin as [Hc Hu].
  pose proof (collected_valid _ _ Hc) as Hv. simpl in Hv.
  unfold unchecked in Hu. cbn [fst] in Hu. apply negb_true_iff in Hu.
  assert (Hf : empty_check_found
                 (before
                  ++ (pre ++ name ++ ".empty" ++ ws1 ++ "(" ++ ws2 ++ ")" ++ post)%string
                  :: after)%list name = true).
  { unfold empty_check_found. apply existsb_exists.
    exists (pre ++ name ++ ".empty" ++ ws1 ++ "(" ++ ws2 ++ ")" ++ post).
    split; [apply in_or_app; right; left; reflexivity|].
    apply (empty_for_text name _ Hv).
    exists pre, ws1, ws2, post. repeat split; assumption. }
  rewrite Hf in Hu. discriminate.
Qed.

(** ** Reading the messages back *)

Lemma class_apart (p : ascii -> bool) (q : ascii) :
  p q = false -> forall c, p c = true -> Ascii.eqb q c = false.
Proof.
  intros Hq c Hc. destruct (Ascii.eqb_spec q c) as [->|]; [congruence | reflexivity].
Qed.

Lemma word_without (q : ascii) name :
  is_word q = false -> valid_identifier name ->
  ~ In q (list_ascii_of_string name).
Proof.
  intros Hq Hv. apply (class_without q is_word); [apply class_apart; exact Hq|].
  apply identifier_word. exact Hv.
Qed.

Lemma decimal_digits idx :
  decimal idx -> forallb is_digit (list_ascii_of_string idx) = true.
Proof.
  intros H. destruct (chars_decimal idx H) as (d & ds & -> & Hd & Hds).
  simpl. rewrite Hd, Hds. reflexivity.
Qed.

Lemma digits_without (q : ascii) l :
  is_digit q = false -> forallb is_digit l = true -> ~ In q l.
Proof.
  intros Hq. apply (class_without q is_digit). apply class_apart. exact Hq.
Qed.

(** Where a message ends: the index, a closing character, [' at line ]
    and the number of the line. *)
Lemma tail_inj (q : ascii) idx idx' n n' :
  is_digit q = false ->
  ~ In q (list_ascii_of_string "' at line ") ->
  decimal idx' ->
  (list_ascii_of_string idx ++ q :: list_ascii_of_string "' at line "
     ++ list_ascii_of_string (str n)
   = list_ascii_of_string idx' ++ q :: list_ascii_of_string "' at line "
     ++ list_ascii_of_string (str n'))%list ->
  idx = idx' /\ n = n'.
Proof.
  intros Hq Hlit Hd H. apply split_unique in H.
  - destruct H as [H1 H2]. apply app_inv_head in H2.
    split; [apply chars_inj, H1 | apply str_inj, chars_inj, H2].
  - apply digits_without; [exact Hq | apply decimal_digits; exact Hd].
  - intros Hin. apply in_app_or in Hin as [Hin|Hin]; [exact (Hlit Hin)|].
    revert Hin. apply digits_without; [exact Hq | apply str_digits].
Qed.

Lemma warning_inj name idx n name' idx' n' :
  valid_identifier name' -> decimal idx' ->
  out_of_range_warning name idx n = out_of_range_warning name' idx' n' ->
  name = name' /\ idx = idx' /\ n = n'.
Proof.
  intros Hv Hd H. unfold out_of_range_warning in H.
  apply (f_equal list_ascii_of_string) in H.
  repeat rewrite chars_app in H. apply app_inv_head in H.
  change (list_ascii_of_string "[") with ["["%char] in H.
  change (list_ascii_of_string "]' at line ")
    with ("]"%char :: list_ascii_of_string "' at line ") in H.
  cbn [app] in H.
  apply split_unique in H.
  - destruct H as [H1 H2]. apply tail_inj in H2.
    + destruct H2 as [-> ->]. split; [apply chars_inj, H1 | split; reflexivity].
    + reflexivity.
    + apply not_in_eqb. reflexivity.
    + exact Hd.
  - apply word_without; [reflexivity | exact Hv].
  - intros Hin. apply in_app_or in Hin as [Hin|Hin].
    + revert Hin. apply digits_without; [reflexivity | apply decimal_digits, Hd].
    + destruct Hin as [Hin|Hin]; [discriminate|].
      apply in_app_or in Hin as [Hin|Hin].
      * revert Hin. apply not_in_eqb. reflexivity.
      * revert Hin. apply digits_without; [reflexivity | apply str_digits].
Qed.

Lemma info_inj name idx n name' idx' n' :
  valid_identifier name' -> decimal idx' ->
  safe_access_info name idx n = safe_access_info name' idx' n' ->
  name = name' /\ idx = idx' /\ n = n'.
Proof.
  intros Hv Hd H. unfold safe_access_info in H.
  apply (f_equal list_ascii_of_string) in H.
  repeat rewrite chars_app in H. apply app_inv_head in H.
  change (list_ascii_of_string ".at(")
    with ("."%char :: list_ascii_of_string "at(") in H.
  change (list_ascii_of_string ")' at line ")
    with (")"%char :: list_ascii_of_string "' at line ") in H.
  rewrite <- !app_comm_cons in H.
  apply split_unique in H.
  - destruct H as [H1 H2]. apply app_inv_head in H2. apply tail_inj in H2.
    + destruct H2 as [-> ->]. split; [apply chars_inj, H1 | split; reflexivity].
    + reflexivity.
    + apply not_in_eqb. reflexivity.
    + exact Hd.
  - apply word_without; [reflexivity | exact Hv].
  - intros Hin. apply in_app_or in Hin as [Hin|Hin].
    + revert Hin. apply not_in_eqb. reflexivity.
    + apply in_app_or in Hin as [Hin|Hin].
      * revert Hin. apply digits_without; [reflexivity | apply decimal_digits, Hd].
      * destruct Hin as [Hin|Hin]; [discriminate|].
        apply in_app_or in Hin as [Hin|Hin].
        -- revert Hin. apply not_in_eqb. reflexivity.
        -- revert Hin. apply digits_without; [reflexivity | apply str_digits].
Qed.

Lemma warning_not_info name idx n name' idx' n' :
  out_of_range_warning name idx n <> safe_access_info name' idx' n'.
Proof. unfold out_of_range_warning, safe_access_info. simpl. discriminate. Qed.

Lemma warning_not_missing name idx n name' n' :
  out_of_range_warning name idx n <> missing_empty_check_warning name' n'.
Proof.
  unfold out_of_range_warning, missing_empty_check_warning. simpl. discriminate.
Qed.

Lemma info_not_missing name idx n name' n' :
  safe_access_info name idx n <> missing_empty_check_warning name' n'.
Proof.
  unfold safe_access_info, missing_empty_check_warning. simpl. discriminate.
Qed.

(** ** Where the issues come from *)

Lemma first_pass_from file_lines issue :
  In issue (first_pass file_lines) ->
  exists n line,
    1 <= n /\ nth_error file_lines (n - 1) = Some line
    /\ ((exists m, In m (accesses line)
                   /\ issue = out_of_range_warning (name_of m) (index_of m) n)
        \/ (exists m, In m (at_accesses line)
                      /\ issue = safe_access_info (name_of m) (index_of m) n)).
Proof.
  unfold first_pass, issues_from. intros H. apply in_flat_map in H.
  destruct H as [[n line] [He Hi]].
  apply enumerate_in in He. destruct He as [Hn Hl].
  exists n, line. split; [exact Hn|]. split; [exact Hl|].
  unfold line_issues in Hi. cbn [fst snd] in Hi. apply in_app_or in Hi.
  destruct Hi as [Hi|Hi]; apply in_map_iff in Hi; destruct Hi as [m [<- Hm]];
    [left|right]; exists m; split; auto.
Qed.

Lemma first_pass_sound file_lines issue :
  In issue (first_pass file_lines) ->
  exists n line pre name ws1 ws2 idx ws3 post,
    1 <= n /\ nth_error file_lines (n - 1) = Some line
    /\ ends_outside_word pre /\ valid_identifier name
    /\ whitespace ws1 /\ whitespace ws2 /\ whitespace ws3 /\ decimal idx
    /\ ((line = pre ++ name ++ ws1 ++ "[" ++ ws2 ++ idx ++ ws3 ++ "]" ++ post
         /\ issue = out_of_range_warning name idx n)
        \/ (line = pre ++ name ++ ".at" ++ ws1 ++ "(" ++ ws2 ++ idx ++ ws3
                   ++ ")" ++ post
            /\ issue = safe_access_info name idx n)).
Proof.
  intros H. apply first_pass_from in H.
  destruct H as (n & line & Hn & Hl & [[m [Hm ->]] | [m [Hm ->]]]).
  - apply accesses_sound in Hm.
    destruct Hm as (pre & name & ws1 & ws2 & idx & ws3 & post & Hline & Hpre & Hv
                    & H1 & H2 & H3 & Hd & ->).
    exists n, line, pre, name, ws1, ws2, idx, ws3, post.
    repeat (split; [assumption|]). left. split; [exact Hline | reflexivity].
  - apply at_accesses_sound in Hm.
    destruct Hm as (pre & name & ws1 & ws2 & idx & ws3 & post & Hline & Hpre & Hv
                    & H1 & H2 & H3 & Hd & ->).
    exists n, line, pre, name, ws1, ws2, idx, ws3, post.
    repeat (split; [assumption|]). right. split; [exact Hline | reflexivity].
Qed.

(** An issue of the first pass for a name on a line puts the pair into
    the set of the second pass. *)
Lemma first_pass_collected file_lines name idx n :
  In (out_of_range_warning name idx n) (first_pass file_lines)
  \/ In (safe_access_info name idx n) (first_pass file_lines) ->
  In (name, n) (collected file_lines).
Proof.
  intros [H|H]; apply first_pass_from in H;
    destruct H as (n' & line & Hn & Hl & [[m [Hm He]] | [m [Hm He]]]).
  - pose proof Hm as Hs. apply accesses_sound in Hs.
    destruct Hs as (pre & name' & ws1 & ws2 & idx' & ws3 & post & _ & _ & Hv
                    & _ & _ & _ & Hd & Hmk).
    rewrite Hmk in He. change (name_of (mk_match _ [name'; idx'])) with name' in He.
    change (index_of (mk_match _ [name'; idx'])) with idx' in He.
    apply warning_inj in He; [|exact Hv|exact Hd]. destruct He as (-> & -> & ->).
    apply collected_in. exists line, m. split; [exact Hn|]. split; [exact Hl|].
    split; [apply in_or_app; left; exact Hm|]. rewrite Hmk. reflexivity.
  - exfalso. exact (warning_not_info _ _ _ _ _ _ He).
  - exfalso. symmetry in He. exact (warning_not_info _ _ _ _ _ _ He).
  - pose proof Hm as Hs. apply at_accesses_sound in Hs.
    destruct Hs as (pre & name' & ws1 & ws2 & idx' & ws3 & post & _ & _ & Hv
                    & _ & _ & _ & Hd & Hmk).
    rewrite Hmk in He. change (name_of (mk_match _ [name'; idx'])) with name' in He.
    change (index_of (mk_match _ [name'; idx'])) with idx' in He.
    apply info_inj in He; [|exact Hv|exact Hd]. destruct He as (-> & -> & ->).
    apply collected_in. exists line, m. split; [exact Hn|]. split; [exact Hl|].
    split; [apply in_or_app; right; exact Hm|]. rewrite Hmk. reflexivity.
Qed.

(** ** Files without issues *)

Lemma no_element {A} (l : list A) : (forall x, ~ In x l) -> l = [].
Proof.
  destruct l as [|x l]; [reflexivity|]. intros H. exfalso.
  apply (H x). left. reflexivity.
Qed.

Lemma report_single file_path issues :
  report file_path issues = ["No issues found in " ++ file_path] <-> issues = [].
Proof.
  split; [|intros ->; reflexivity].
  destruct issues as [|x issues]; [reflexivity|].
  unfold report. simpl. intros H. injection H as _ H. discriminate.
Qed.

Lemma first_pass_nil file_lines :
  first_pass file_lines = [] <->
  forall line, In line file_lines -> accesses line = [] /\ at_accesses line = [].
Proof.
  split.
  - intros H line Hin. apply In_nth_error in Hin. destruct Hin as [k Hk].
    assert (He : In (S k, line) (enumerate 1 file_lines)).
    { apply enumerate_in. split; [lia|].
      replace (S k - 1) with k by lia. exact Hk. }
    assert (Hi : line_issues (S k, line) = []).
    { apply no_element. intros x Hx.
      assert (Hf : In x (first_pass file_lines)).
      { unfold first_pass, issues_from. apply in_flat_map.
        exists (S k, line). split; assumption. }
      rewrite H in Hf. destruct Hf. }
    unfold line_issues in Hi. cbn [fst snd] in Hi.
    apply app_eq_nil in Hi. destruct Hi as [Ha Hb].
    apply map_eq_nil in Ha. apply map_eq_nil in Hb. split; assumption.
  - intros H. apply no_element. intros x Hx. apply first_pass_from in Hx.
    destruct Hx as (n & line & Hn & Hl & Hm).
    apply nth_error_In in Hl. destruct (H line Hl) as [Ha Hb].
    rewrite Ha, Hb in Hm. destruct Hm as [[m [[] _]] | [m [[] _]]].
Qed.

Lemma second_pass_nil order file_lines :
  first_pass file_lines = [] -> second_pass order file_lines = [].
Proof.
  intros H. apply no_element. intros x Hx. unfold second_pass in Hx.
  apply in_map_iff in Hx. destruct Hx as [[name n] [_ Hx]].
  apply filter_In in Hx. destruct Hx as [Hx _].
  apply (Permutation_in _ (set_iter_perm order _)) in Hx.
  apply collected_in in Hx. destruct Hx as (line & m & _ & Hl & Hm & _).
  apply nth_error_In in Hl.
  destruct (proj1 (first_pass_nil file_lines) H line Hl) as [Ha Hb].
  rewrite Ha, Hb in Hm. destruct Hm.
Qed.

(** ** Files that grow *)

Lemma issues_from_cons k line file_lines :
  issues_from k (line :: file_lines) =
  (line_issues (k, line) ++ issues_from (S k) file_lines)%list.
Proof. reflexivity. Qed.

Lemma issues_from_app a : forall k b,
  issues_from k (a ++ b)%list =
  (issues_from k a ++ issues_from (k + List.length a) b)%list.
Proof.
  induction a as [|x a IH]; intros k b.
  - simpl. rewrite Nat.add_0_r. reflexivity.
  - change ((x :: a) ++ b)%list with (x :: (a ++ b))%list.
    rewrite !issues_from_cons, IH, <- app_assoc. simpl List.length.
    rewrite Nat.add_succ_r. reflexivity.
Qed.

(** The number of issues of some lines does not depend on where the
    lines stand. *)
Lemma issues_from_length file_lines : forall k k',
  List.length (issues_from k file_lines) = List.length (issues_from k' file_lines).
Proof.
  induction file_lines as [|x l IH]; intros k k'; [reflexivity|].
  rewrite !issues_from_cons, !length_app, (IH (S k) (S k')).
  unfold line_issues. cbn [fst snd]. rewrite !length_app, !length_map.
  reflexivity.
Qed.

Lemma empty_check_found_app a b name :
  empty_check_found (a ++ b)%list name =
  empty_check_found a name || empty_check_found b name.
Proof. unfold empty_check_found. apply existsb_app. Qed.

Lemma collected_prefix before after name n :
  n <= List.length before ->
  In (name, n) (collected (before ++ after)%list) ->
  In (name, n) (collected before).
Proof.
  intros Hn H. apply collected_in in H. apply collected_in.
  destruct H as (line & m & H1 & Hl & Hm & He).
  exists line, m. split; [exact H1|]. split; [|split; assumption].
  rewrite nth_error_app1 in Hl by lia. exact Hl.
Qed.

Lemma second_pass_prefix order order' before after name n :
  n <= List.length before ->
  In (missing_empty_check_warning name n)
     (second_pass order' (before ++ after)%list) ->
  In (missing_empty_check_warning name n) (second_pass order before).
Proof.
  intros Hn H. apply second_pass_in in H. apply second_pass_in.
  destruct H as [Hc Hu]. split; [exact (collected_prefix _ _ _ _ Hn Hc)|].
  unfold unchecked in *. cbn [fst] in *.
  rewrite empty_check_found_app in Hu. apply negb_true_iff in Hu.
  apply orb_false_iff in Hu. destruct Hu as [Hu _]. rewrite Hu. reflexivity.
Qed.

(** ** A safe access in the middle of a line *)

Lemma lit_cons c re marks prev y s pos :
  match_det (lit c :: re) marks prev (y :: s) pos =
  if in_charset (CsChar c) y then match_det re marks (Some y) s (S pos) else None.
Proof. reflexivity. Qed.

Lemma lit_nil c re marks prev pos : match_det (lit c :: re) marks prev [] pos = None.
Proof. reflexivity. Qed.

Lemma word_not_space c : is_word c = true -> is_space c = false.
Proof.
  intros H. destruct (is_space c) eqn:E; [|reflexivity].
  rewrite (space_not_word c E) in H. discriminate.
Qed.

(** The bracketed part of a pattern does not begin in a name or at a
    dot. *)
Lemma bracket_none o c marks prev x s pos :
  is_space x = false -> Ascii.eqb o x = false ->
  match_det (bracket_tail o c) marks prev (x :: s) pos = None.
Proof.
  intros Hx Ho. unfold bracket_tail.
  rewrite star_stop by (apply stops_cons; exact Hx).
  apply lit_fail. exact Ho.
Qed.

Lemma bracket_none_name marks prev w T pos :
  forallb is_word w = true ->
  match_det (bracket_tail "(" ")") marks prev (w ++ "."%char :: T)%list pos = None.
Proof.
  intros Hw. destruct w as [|x w]; cbn [app].
  - apply bracket_none; reflexivity.
  - simpl in Hw. apply andb_prop in Hw. destruct Hw as [Hx _].
    apply bracket_none; [apply word_not_space; exact Hx|].
    apply (class_apart is_word); [reflexivity | exact Hx].
Qed.

Lemma start_avoids_call t :
  is_ident_start t = true -> avoids t (bracket_tail "(" ")") = true.
Proof. each_char t. Qed.

(** What follows the name in the safe-access pattern, at the end of a
    text or before a name and a dot. *)
Lemma at_tail_context marks prev Y t w T pos :
  Y <> [] -> is_ident_start t = true -> forallb is_word w = true ->
  match_det at_tail marks prev (Y ++ t :: w ++ "."%char :: T)%list pos =
  match_det at_tail marks prev Y pos.
Proof.
  intros HY Ht Hw.
  change at_tail with (lit "." :: lit "a" :: lit "t" :: bracket_tail "(" ")").
  destruct Y as [|y1 Y]; [congruence|]. cbn [app]. rewrite !lit_cons.
  destruct (in_charset (CsChar ".") y1); [|reflexivity].
  destruct Y as [|y2 Y]; cbn [app].
  - rewrite lit_nil, lit_cons.
    destruct (in_charset (CsChar "a") t); [|reflexivity].
    destruct w as [|x w]; cbn [app]; [reflexivity|].
    rewrite lit_cons. destruct (in_charset (CsChar "t") x); [|reflexivity].
    simpl in Hw. apply andb_prop in Hw. destruct Hw as [_ Hw].
    apply bracket_none_name. exact Hw.
  - rewrite !lit_cons.
    destruct (in_charset (CsChar "a") y2); [|reflexivity].
    destruct Y as [|y3 Y]; cbn [app].
    + rewrite lit_nil, lit_cons.
      destruct (in_charset (CsChar "t") t); [|reflexivity].
      apply bracket_none_name. exact Hw.
    + rewrite !lit_cons.
      destruct (in_charset (CsChar "t") y3); [|reflexivity].
      apply avoids_context, start_avoids_call, Ht.
Qed.

(** An attempt of the safe-access pattern in text that ends outside a
    word does not depend on a name and a dot that follow the text. *)
Lemma at_context prev c X t w T :
  word_before (last_char (Some c) X) = false ->
  is_ident_start t = true -> forallb is_word w = true ->
  match_det at_re [] prev (c :: X ++ t :: w ++ "."%char :: T)%list 0 =
  match_det at_re [] prev (c :: X) 0.
Proof.
  intros Hlast Ht Hw. unfold at_re. rewrite !head_det.
  change (at_boundary prev (c :: X ++ t :: w ++ "."%char :: T)%list)
    with (at_boundary prev (c :: X)).
  destruct (at_boundary prev (c :: X)); [|reflexivity].
  destruct (is_ident_start c) eqn:Hc; [|reflexivity].
  assert (Hd : drop_while is_word X <> []).
  { intros E. destruct (drop_while_nil_last is_word X c E (ident_start_word _ Hc))
      as (d & Hd1 & Hd2). rewrite Hd1 in Hlast. simpl in Hlast. congruence. }
  cbv zeta. rewrite take_while_inside, drop_while_inside by assumption.
  apply at_tail_context; assumption.
Qed.

Section Before.

Variable re : regex.
Variable following : list ascii.
Hypothesis det_re : deterministic re = true.
Hypothesis none_end : forall prev, match_here re prev [] = None.
Hypothesis context : forall prev c X,
  word_before (last_char (Some c) X) = false ->
  match_det re [] prev (c :: X ++ following)%list 0 =
  match_det re [] prev (c :: X) 0.

(** The matches in a text that ends outside a word, and then those of
    what follows it. *)
Lemma scan_before P : forall prev skip,
  skip <= List.length P ->
  word_before (last_char prev P) = false ->
  finditer_from re prev (P ++ following)%list skip =
  (finditer_from re prev P skip
   ++ finditer_from re (last_char prev P) following 0)%list.
Proof.
  induction P as [|c X IH]; intros prev skip Hs Hl.
  - destruct skip; [|simpl in Hs; lia].
    rewrite (finditer_end re prev (none_end prev)). reflexivity.
  - destruct skip as [|k].
    + change ((c :: X) ++ following)%list with (c :: (X ++ following))%list.
      rewrite (finditer_here re prev c (X ++ following)%list).
      rewrite (finditer_here re prev c X).
      rewrite !(match_here_det re _ _ det_re).
      rewrite context by assumption.
      destruct (match_det re [] prev (c :: X) 0) as [[L ms]|] eqn:E.
      * destruct (match_det_result _ _ _ _ _ _ _ E) as [_ HL].
        pose proof (match_det_marks _ _ _ _ _ _ _ E (Forall_nil _)) as Hm.
        change (c :: (X ++ following)%list) with ((c :: X) ++ following)%list.
        rewrite (match_object_prefix (c :: X) following L ms)
          by (simpl in *; auto; lia).
        simpl fst. rewrite <- app_comm_cons. f_equal.
        apply IH; simpl in *; auto; lia.
      * apply IH; simpl in *; auto; lia.
    + simpl. apply IH; simpl in *; auto; lia.
Qed.

End Before.

Lemma at_accesses_before P prev t w T :
  word_before (last_char prev P) = false ->
  is_ident_start t = true -> forallb is_word w = true ->
  finditer_from at_re prev (P ++ t :: w ++ "."%char :: T)%list 0 =
  (finditer_from at_re prev P 0
   ++ finditer_from at_re (last_char prev P) (t :: w ++ "."%char :: T) 0)%list.
Proof.
  intros Hl Ht Hw.
  apply (scan_before at_re (t :: w ++ "."%char :: T)%list deterministic_at
           (head_none_end at_tail deterministic_at)); [|lia|exact Hl].
  intros prev' c X Hlast. apply at_context; assumption.
Qed.

Lemma step_outside prev c s :
  is_ident_start c = false ->
  finditer_from access_re prev (c :: s) 0 = finditer_from access_re (Some c) s 0.
Proof.
  intros Hc. apply finditer_fail.
  apply (head_none_start access_tail deterministic_access). exact Hc.
Qed.

Lemma step_inside prev c s :
  word_before prev = true -> is_word c = true ->
  finditer_from access_re prev (c :: s) 0 = finditer_from access_re (Some c) s 0.
Proof.
  intros Hp Hc. apply finditer_fail.
  apply (head_none_inside access_tail deterministic_access); assumption.
Qed.

(** The indexed-access pattern finds nothing in a safe access. *)
Lemma access_none_in_call prev c w ws1 tail post :
  word_before prev = false -> is_ident_start c = true ->
  forallb is_word w = true -> forallb is_space ws1 = true ->
  forallb (fun x => negb (is_ident_start x)) tail = true ->
  finditer_from access_re prev
    (c :: w ++ "."%char :: "a"%char :: "t"%char :: ws1 ++ "("%char :: tail ++ post)%list 0 =
  finditer_from access_re (last_char (Some "("%char) tail) post 0.
Proof.
  intros Hp Hc Hw H1 Ht.
  rewrite finditer_fail.
  2:{ rewrite (match_here_det _ _ _ deterministic_access). unfold access_re.
      rewrite head_step by (auto; apply stops_cons; reflexivity).
      unfold access_tail. rewrite star_stop by (apply stops_cons; reflexivity).
      apply lit_fail. reflexivity. }
  rewrite (walk_inside access_tail deterministic_access w)
    by (auto; simpl; apply ident_start_word; exact Hc).
  rewrite step_outside by reflexivity.
  rewrite finditer_fail.
  2:{ rewrite (match_here_det _ _ _ deterministic_access). unfold access_re.
      change ("a"%char :: "t"%char :: ws1 ++ "("%char :: tail ++ post)%list
        with ("a"%char :: ["t"%char] ++ ws1 ++ "("%char :: tail ++ post)%list.
      rewrite (head_step access_tail [] (Some "."%char) "a"%char ["t"%char])
        by first [reflexivity
                 | apply word_stops_bracket; [reflexivity | exact H1]].
      unfold access_tail.
      rewrite (star_step CsSpace _ _ _ ws1) by (auto; apply stops_cons; reflexivity).
      apply lit_fail. reflexivity. }
  rewrite step_inside by reflexivity.
  rewrite (walk_outside access_tail deterministic_access ws1)
    by (apply spaces_outside; exact H1).
  rewrite step_outside by reflexivity.
  rewrite (walk_outside access_tail deterministic_access tail) by exact Ht.
  reflexivity.
Qed.

Lemma forallb_snoc {A} (p : A -> bool) l x :
  forallb p l = true -> p x = true -> forallb p (l ++ [x])%list = true.
Proof. intros Hl Hx. rewrite forallb_app, Hl. simpl. rewrite Hx. reflexivity. Qed.

(** The matches of the safe-access pattern on a line that holds a safe
    access: those of the text before it, the match of the access, those
    of the text after it. *)
Lemma at_accesses_in_line pre name ws1 ws2 idx ws3 post :
  ends_outside_word pre -> valid_identifier name ->
  whitespace ws1 -> whitespace ws2 -> whitespace ws3 -> decimal idx ->
  at_accesses (pre ++ name ++ ".at" ++ ws1 ++ "(" ++ ws2 ++ idx ++ ws3 ++ ")"
               ++ post) =
  (at_accesses pre
   ++ mk_match (name ++ ".at" ++ ws1 ++ "(" ++ ws2 ++ idx ++ ws3 ++ ")") [name; idx]
   :: at_accesses post)%list.
Proof.
  intros Hpre Hn H1 H2 H3 Hi.
  destruct (chars_identifier _ Hn) as (c & w & EN & Hc & Hw).
  destruct (chars_decimal _ Hi) as (d & ds & EI & Hd & Hds).
  assert (Etext : string_of_list_ascii
            (c :: w ++ "."%char :: "a"%char :: "t"%char
               :: list_ascii_of_string ws1 ++ "("%char
               :: list_ascii_of_string ws2 ++ d :: ds
               ++ list_ascii_of_string ws3 ++ [")"%char])%list
          = name ++ ".at" ++ ws1 ++ "(" ++ ws2 ++ idx ++ ws3 ++ ")").
  { apply chars_inj. rewrite list_ascii_of_string_of_list_ascii, !chars_app, EN, EI.
    reflexivity. }
  unfold at_accesses. rewrite !chars_app, EN, EI.
  change (list_ascii_of_string ".at") with ["."%char; "a"%char; "t"%char].
  change (list_ascii_of_string "(") with ["("%char].
  change (list_ascii_of_string ")") with [")"%char].
  cbn [app].
  rewrite at_accesses_before by assumption.
  rewrite at_token_scan by assumption.
  rewrite Etext, (string_of_chars _ _ EN), (string_of_chars _ _ EI). reflexivity.
Qed.

(** The indexed-access pattern on such a line: the matches of the text
    before the safe access and those of the text after it. *)
Lemma accesses_around_call pre name ws1 ws2 idx ws3 post :
  ends_outside_word pre -> valid_identifier name ->
  whitespace ws1 -> whitespace ws2 -> whitespace ws3 -> decimal idx ->
  accesses (pre ++ name ++ ".at" ++ ws1 ++ "(" ++ ws2 ++ idx ++ ws3 ++ ")"
            ++ post) =
  (accesses pre ++ accesses post)%list.
Proof.
  intros Hpre Hn H1 H2 H3 Hi.
  destruct (chars_identifier _ Hn) as (c & w & EN & Hc & Hw).
  destruct (chars_decimal _ Hi) as (d & ds & EI & Hd & Hds).
  unfold accesses. rewrite !chars_app, EN, EI.
  change (list_ascii_of_string ".at") with ["."%char; "a"%char; "t"%char].
  change (list_ascii_of_string "(") with ["("%char].
  change (list_ascii_of_string ")") with [")"%char].
  cbn [app].
  rewrite accesses_before by (simpl; try lia; assumption).
  f_equal.
  replace (list_ascii_of_string ws2 ++ d :: ds ++ list_ascii_of_string ws3
           ++ ")"%char :: list_ascii_of_string post)%list
    with (((list_ascii_of_string ws2 ++ d :: ds ++ list_ascii_of_string ws3)
           ++ [")"%char]) ++ list_ascii_of_string post)%list
    by right_nested.
  rewrite access_none_in_call; try assumption.
  - rewrite last_char_snoc. apply finditer_prev. reflexivity.
  - apply forallb_snoc; [|reflexivity].
    rewrite forallb_app, (spaces_outside _ H2). simpl.
    rewrite (digit_not_start d Hd), forallb_app, (digits_outside _ Hds),
      (spaces_outside _ H3). reflexivity.
Qed.

(** ** Counting the issues *)







(** ** A safe access whose index is not a literal *)

Lemma index_not_literal_to (q : ascii) marks prev e rest pos :
  is_space q = false -> is_digit q = false ->
  ~ In q e -> not_literal e ->
  match_det [Star CsSpace; GroupOpen; Plus CsDigit; GroupClose; Star CsSpace;
             lit q] marks prev (e ++ q :: rest)%list pos
  = None.
Proof.
  intros Hqs Hqd He Hn.
  destruct (match_det _ marks prev (e ++ q :: rest)%list pos) eqn:E;
    [|reflexivity].
  exfalso.
  apply star_inv in E. destruct E as (ws2 & s1 & Es & H2 & E).
  rewrite open_step in E.
  apply plus_inv in E. destruct E as (d & ds & s2 & -> & Hd & Hds & E).
  rewrite close_step in E.
  apply star_inv in E. destruct E as (ws3 & s3 & -> & H3 & E).
  apply lit_inv in E. destruct E as (rest' & -> & _).
  assert (Eq : ((ws2 ++ d :: ds ++ ws3) ++ q :: rest')%list
               = (e ++ q :: rest)%list).
  { rewrite Es. right_nested. }
  apply first_occurrence in Eq; [| |assumption].
  - destruct Eq as [Eq _]. apply (Hn ws2 d ds ws3 H2 Hd Hds H3).
    symmetry; exact Eq.
  - intros Hin. apply in_app_or in Hin. destruct Hin as [Hin|[Hin|Hin]].
    + revert Hin. apply (class_without _ is_space); [|exact H2].
      apply class_apart. exact Hqs.
    + subst d. simpl in Hd. congruence.
    + apply in_app_or in Hin. destruct Hin as [Hin|Hin]; revert Hin.
      * apply (class_without _ is_digit); [|exact Hds].
        apply class_apart. exact Hqd.
      * apply (class_without _ is_space); [|exact H3].
        apply class_apart. exact Hqs.
Qed.

(** Before a closing parenthesis, and with no opening one in between, no
    safe access begins. *)
Lemma at_none_before_close prev X rest :
  ~ In "("%char X ->
  match_here at_re prev (X ++ ")"%char :: rest)%list = None.
Proof.
  intros HX.
  destruct (match_here at_re prev (X ++ ")"%char :: rest)%list) eqn:E;
    [|reflexivity].
  exfalso. apply at_match in E.
  destruct E as (c & w & ws1 & ws2 & d & ds & ws3 & rest' & Es & _ & Hc & Hw
                 & H1 & _).
  apply (crossing ")" "(" X (c :: w ++ "."%char :: "a"%char :: "t"%char :: ws1)
           rest (ws2 ++ d :: ds ++ ws3 ++ ")"%char :: rest')%list);
    [discriminate | assumption | | rewrite Es; right_nested].
  intros [Hin|Hin].
  - subst c. discriminate.
  - apply in_app_or in Hin. destruct Hin as [Hin|Hin].
    + revert Hin. apply (class_without _ is_word); [|exact Hw].
      apply class_apart. reflexivity.
    + destruct Hin as [Hin|[Hin|[Hin|Hin]]]; try discriminate.
      revert Hin. apply (class_without _ is_space); [|exact H1].
      apply class_apart. reflexivity.
Qed.

Lemma walk_before_paren X : forall prev rest,
  ~ In "("%char X ->
  finditer_from at_re prev (X ++ ")"%char :: rest)%list 0 =
  finditer_from at_re None rest 0.
Proof.
  induction X as [|x X IH]; intros prev rest HX.
  - simpl app. rewrite finditer_fail
      by (apply (head_none_start at_tail deterministic_at); reflexivity).
    apply finditer_prev. reflexivity.
  - simpl app.
    rewrite finditer_fail by (apply (at_none_before_close prev (x :: X)), HX).
    apply IH. intros Hin. apply HX. right; assumption.
Qed.

(** An identifier, [.at] and parentheses around something that is not a
    decimal index: no safe access is found from the identifier to the
    closing parenthesis. *)
Lemma at_not_literal prev c w ws1 e rest :
  word_before prev = false ->
  is_ident_start c = true -> forallb is_word w = true ->
  forallb is_space ws1 = true ->
  ~ In "("%char e -> ~ In ")"%char e -> not_literal e ->
  finditer_from at_re prev
    (c :: w ++ "."%char :: "a"%char :: "t"%char
       :: ws1 ++ "("%char :: e ++ ")"%char :: rest)%list 0 =
  finditer_from at_re None rest 0.
Proof.
  intros Hp Hc Hw H1 Ho Hcl Hn.
  rewrite finditer_fail.
  2:{ rewrite (match_here_det _ _ _ deterministic_at). unfold at_re.
      rewrite head_step by (auto; apply stops_cons; reflexivity).
      change at_tail with (lit "." :: lit "a" :: lit "t" :: bracket_tail "(" ")").
      rewrite !one_step. unfold bracket_tail.
      rewrite (star_step CsSpace _ _ _ ws1) by (auto; apply stops_cons; reflexivity).
      rewrite one_step. apply index_not_literal_to; auto. }
  rewrite (walk_inside at_tail deterministic_at w)
    by (auto; simpl; apply ident_start_word; exact Hc).
  rewrite finditer_fail
    by (apply (head_none_start at_tail deterministic_at); reflexivity).
  rewrite finditer_fail.
  2:{ rewrite (match_here_det _ _ _ deterministic_at). unfold at_re.
      change ("a"%char :: "t"%char :: ws1 ++ "("%char :: e ++ ")"%char :: rest)%list
        with ("a"%char :: ["t"%char] ++ ws1 ++ "("%char :: e ++ ")"%char :: rest)%list.
      rewrite (head_step at_tail [] (Some "."%char) "a"%char ["t"%char])
        by first [reflexivity
                 | apply word_stops_bracket; [reflexivity | exact H1]].
      destruct ws1 as [|x ws1]; cbn [app].
      - apply lit_fail. reflexivity.
      - apply lit_fail. simpl in H1. apply andb_prop in H1.
        destruct H1 as [Hx _]. apply space_not_dot. exact Hx. }
  rewrite finditer_fail
    by (apply (head_none_inside at_tail deterministic_at); reflexivity).
  rewrite (walk_outside at_tail deterministic_at ws1)
    by (apply spaces_outside; exact H1).
  rewrite finditer_fail
    by (apply (head_none_start at_tail deterministic_at); reflexivity).
  apply walk_before_paren. exact Ho.
Qed.

Lemma at_accesses_not_literal pre name ws1 e post :
  ends_outside_word pre -> valid_identifier name -> whitespace ws1 ->
  literal_index e = false -> lacks "(" e -> lacks ")" e ->
  at_accesses (pre ++ name ++ ".at" ++ ws1 ++ "(" ++ e ++ ")" ++ post) =
  (at_accesses pre ++ at_accesses post)%list.
Proof.
  intros Hpre Hn H1 He Ho Hc.
  destruct (chars_identifier _ Hn) as (c & w & EN & Hcs & Hw).
  unfold at_accesses. rewrite !chars_app, EN.
  change (list_ascii_of_string ".at") with ["."%char; "a"%char; "t"%char].
  change (list_ascii_of_string "(") with ["("%char].
  change (list_ascii_of_string ")") with [")"%char].
  cbn [app].
  rewrite at_accesses_before by assumption.
  f_equal. apply at_not_literal; try assumption.
  - apply lacks_not_in, Ho.
  - apply lacks_not_in, Hc.
  - apply literal_index_false, He.
Qed.

(** Alone on a line, such a text gives nothing to either pattern. *)
Lemma call_not_literal_alone name ws1 e :
  valid_identifier name -> whitespace ws1 ->
  literal_index e = false -> lacks "(" e -> lacks ")" e -> lacks "[" e ->
  accesses (name ++ ".at" ++ ws1 ++ "(" ++ e ++ ")") = []
  /\ at_accesses (name ++ ".at" ++ ws1 ++ "(" ++ e ++ ")") = [].
Proof.
  intros Hn H1 He Ho Hc Hb. split.
  - apply accesses_without.
    apply lacks_app; [apply lacks_identifier; [reflexivity | exact Hn]|].
    apply lacks_app; [reflexivity|].
    apply lacks_app; [apply lacks_whitespace; [reflexivity | exact H1]|].
    apply lacks_app; [reflexivity|].
    apply lacks_app; [exact Hb | reflexivity].
  - pose proof (at_accesses_not_literal "" name ws1 e "" eq_refl Hn H1 He Ho Hc)
      as H.
    simpl in H.
    replace (name ++ ".at" ++ ws1 ++ "(" ++ e ++ ")" ++ "")
      with (name ++ ".at" ++ ws1 ++ "(" ++ e ++ ")") in H; [exact H|].
    apply chars_inj. repeat rewrite chars_app. simpl. reflexivity.
Qed.

(* ------------------------------------------------------------------ *)
(** * Beyond the specification: the properties *)

(** X1.  When every file that the walk selects can be read, the analysis
    of a directory goes through all of them and returns normally: it
    prints, after what was printed before, the report of each selected
    file, in the order of the walk. *)
Theorem X1_directory_reports_every_file :
  forall (order : set_order) (walk : walker) (fs : filesystem)
         (directory_path : string) (stdout : list string),
    (forall p, In p (selected walk directory_path) -> readable fs p) ->
    analyze_cpp_directory order walk fs directory_path stdout =
    ((stdout ++ flat_map (file_report order fs) (selected walk directory_path))%list,
     Ok tt).
Proof.
  intros order walk fs directory_path stdout Hall.
  rewrite directory_selected. apply for_each_io_readable. exact Hall.
Qed.

Lemma X1_directory_reports_every_file_witness :
  (forall p, In p (selected example_walk "src") -> readable example_fs p)
  /\ analyze_cpp_directory insertion_order example_walk example_fs "src" [] =
     (["Issues found in src/a.cpp:";
       "  Warning: Potential out-of-range access using 'v[0]' at line 1";
       "  Warning: No empty() check found before accessing 'v' at line 1";
       "No issues found in src/b.h";
       "Issues found in src/sub/c.hpp:";
       "  Info: Safe access found using 'w.at(1)' at line 2"],
      Ok tt).
Proof.
  assert (H : forall p, In p (selected example_walk "src") -> readable example_fs p).
  { intros p Hp. vm_compute in Hp.
    destruct Hp as [<-|[<-|[<-|[]]]]; eexists; reflexivity. }
  split; [exact H|].
  exact (X1_directory_reports_every_file insertion_order example_walk example_fs
           "src" [] H).
Defined.

(** X2.  The analysis of a directory stops at the first selected file
    that cannot be read: the exception of [open] or [readlines] goes to
    the caller, the reports of the files before it have been printed, and
    the files after it are neither read nor reported. *)
Theorem X2_directory_stops_at_unreadable_file :
  forall (order : set_order) (walk : walker) (fs : filesystem)
         (directory_path : string) (stdout earlier later : list string)
         (file_path : string) (e : exn),
    selected walk directory_path = (earlier ++ file_path :: later)%list ->
    (forall p, In p earlier -> readable fs p) ->
    fs file_path = Raise e ->
    analyze_cpp_directory order walk fs directory_path stdout =
    ((stdout ++ flat_map (file_report order fs) earlier)%list, Raise e).
Proof.
  intros order walk fs directory_path stdout earlier later file_path e Hs Hr He.
  rewrite directory_selected, Hs, for_each_io_app.
  rewrite (for_each_io_readable order fs earlier stdout Hr).
  cbn [for_each_io]. rewrite (analyze_unreadable order fs file_path e _ He).
  reflexivity.
Qed.

Lemma X2_directory_stops_at_unreadable_file_witness :
  selected example_walk "src" = (["src/a.cpp"] ++ "src/b.h" :: ["src/sub/c.hpp"])%list
  /\ (forall p, In p ["src/a.cpp"] -> readable example_fs_broken p)
  /\ example_fs_broken "src/b.h" = Raise UnicodeDecodeError
  /\ analyze_cpp_directory insertion_order example_walk example_fs_broken "src" [] =
     (["Issues found in src/a.cpp:";
       "  Warning: Potential out-of-range access using 'v[0]' at line 1";
       "  Warning: No empty() check found before accessing 'v' at line 1"],
      Raise UnicodeDecodeError).
Proof.
  assert (H : forall p, In p ["src/a.cpp"] -> readable example_fs_broken p).
  { intros p [<-|[]]. eexists. reflexivity. }
  split; [reflexivity|]. split; [exact H|]. split; [reflexivity|].
  exact (X2_directory_stops_at_unreadable_file insertion_order example_walk
           example_fs_broken "src" [] ["src/a.cpp"] ["src/sub/c.hpp"] "src/b.h"
           UnicodeDecodeError eq_refl H eq_refl).
Defined.

(** X3.  The analysis of a directory reads only the files whose names end
    in [.cpp], [.hpp] or [.h] (the comparison is exact, so [.CPP] does not
    count): two file systems that agree on these files of the walk, each
    under the path that joins its directory and its name, give the same
    output and the same result. *)
Theorem X3_directory_reads_only_cpp_sources :
  forall (order : set_order) (walk : walker) (fs fs' : filesystem)
         (directory_path : string) (stdout : list string),
    (forall root dirs files file base,
        In (root, dirs, files) (walk directory_path) -> In file files ->
        file = base ++ ".cpp" \/ file = base ++ ".hpp" \/ file = base ++ ".h" ->
        fs (path_join root file) = fs' (path_join root file)) ->
    analyze_cpp_directory order walk fs directory_path stdout =
    analyze_cpp_directory order walk fs' directory_path stdout.
Proof.
  intros order walk fs fs' directory_path stdout Hagree.
  rewrite !directory_selected. apply for_each_io_ext.
  intros p out Hp. apply analyze_cpp_file_reads.
  apply selected_in in Hp.
  destruct Hp as (root & dirs & files & file & Hin & Hf & Hs & ->).
  unfold is_cpp_source in Hs.
  apply orb_true_iff in Hs. destruct Hs as [Hs|Hs];
    [apply orb_true_iff in Hs; destruct Hs as [Hs|Hs]|];
    apply endswith_iff in Hs; destruct Hs as [base Hb];
    apply (Hagree root dirs files file base Hin Hf); auto.
Qed.

Lemma X3_directory_reads_only_cpp_sources_witness :
  example_fs "src/notes.txt" <> example_fs_notes "src/notes.txt"
  /\ analyze_cpp_directory insertion_order example_walk example_fs "src" [] =
     analyze_cpp_directory insertion_order example_walk example_fs_notes "src" [].
Proof.
  split; [discriminate|].
  apply (X3_directory_reads_only_cpp_sources insertion_order example_walk
           example_fs example_fs_notes "src" []).
  intros root dirs files file base Hin Hf Hb.
  assert (Hs : is_cpp_source file = true).
  { unfold is_cpp_source.
    destruct Hb as [Hb|[Hb|Hb]];
      [replace (endswith file ".cpp") with true
      |replace (endswith file ".hpp") with true
      |replace (endswith file ".h") with true];
      try (symmetry; apply endswith_iff; exists base; exact Hb);
      repeat rewrite orb_true_r; reflexivity. }
  destruct Hin as [E|[E|[]]]; injection E as <- <- <-;
    repeat (destruct Hf as [<-|Hf]; [first [discriminate Hs | reflexivity]|]);
    destruct Hf.
Defined.

(** X4.  For a file that can be read, the report is the single line
    [No issues found in] followed by the path exactly when neither the
    indexed-access pattern nor the safe-access pattern matches anywhere
    on any line of the file. *)
Theorem X4_no_issues_report :
  forall (order : set_order) (fs : filesystem) (file_path : string)
         (stdout file_lines : list string),
    fs file_path = Ok file_lines ->
    (analyze_cpp_file order fs file_path stdout =
       ((stdout ++ [("No issues found in " ++ file_path)%string])%list, Ok tt)
     <-> forall line, In line file_lines ->
           Re.finditer vector_access_pattern line = Ok []
           /\ Re.finditer vector_at_pattern line = Ok []).
Proof.
  intros order fs file_path stdout file_lines Hfs.
  rewrite (analyze_cpp_file_eq order fs file_path stdout file_lines Hfs).
  split.
  - intros H line Hin. injection H as H. apply app_inv_head in H.
    apply report_single in H. apply app_eq_nil in H. destruct H as [H _].
    destruct (proj1 (first_pass_nil file_lines) H line Hin) as [Ha Hb].
    rewrite finditer_access, finditer_at, Ha, Hb. split; reflexivity.
  - intros H.
    assert (H1 : first_pass file_lines = []).
    { apply first_pass_nil. intros line Hin. destruct (H line Hin) as [Ha Hb].
      rewrite finditer_access in Ha. rewrite finditer_at in Hb.
      injection Ha as Ha. injection Hb as Hb. split; assumption. }
    rewrite H1, (second_pass_nil order file_lines H1). reflexivity.
Qed.

Lemma X4_no_issues_report_witness :
  (fun _ : string => Ok ["int x;"; "x = f(2);"]) "a.cpp" = Ok ["int x;"; "x = f(2);"]
  /\ (analyze_cpp_file insertion_order (fun _ => Ok ["int x;"; "x = f(2);"])
        "a.cpp" [] = (([] ++ [("No issues found in " ++ "a.cpp")%string])%list, Ok tt)
      <-> forall line, In line ["int x;"; "x = f(2);"] ->
            Re.finditer vector_access_pattern line = Ok []
            /\ Re.finditer vector_at_pattern line = Ok []).
Proof.
  split; [reflexivity|].
  exact (X4_no_issues_report insertion_order (fun _ => Ok ["int x;"; "x = f(2);"])
           "a.cpp" [] ["int x;"; "x = f(2);"] eq_refl).
Defined.

(** X5.  Every issue of the first pass points at an access that stands on
    the line it names: the line exists, and it holds, after text that
    does not end in a word character, an identifier and a decimal index,
    either between brackets (an out-of-range warning) or after [.at]
    between parentheses (a safe-access information), with optional
    whitespace only where the patterns allow it; the issue names this
    identifier, this index and this line. *)
Theorem X5_first_pass_issues_point_at_accesses :
  forall (file_lines issues : list string) (issue : string),
    check_vector_access file_lines = Ok issues ->
    In issue issues ->
    exists n line pre name ws1 ws2 idx ws3 post,
      1 <= n /\ nth_error file_lines (n - 1) = Some line
      /\ ends_outside_word pre /\ valid_identifier name
      /\ whitespace ws1 /\ whitespace ws2 /\ whitespace ws3 /\ decimal idx
      /\ ((line = pre ++ name ++ ws1 ++ "[" ++ ws2 ++ idx ++ ws3 ++ "]" ++ post
           /\ issue = out_of_range_warning name idx n)
          \/ (line = pre ++ name ++ ".at" ++ ws1 ++ "(" ++ ws2 ++ idx ++ ws3
                     ++ ")" ++ post
              /\ issue = safe_access_info name idx n)).
Proof.
  intros file_lines issues issue H Hin.
  rewrite check_vector_access_eq in H. injection H as <-.
  apply first_pass_sound. exact Hin.
Qed.

Lemma X5_first_pass_issues_point_at_accesses_witness :
  check_vector_access ["int x;"; "x = v [ 3 ];"] = Ok [out_of_range_warning "v" "3" 2]
  /\ In (out_of_range_warning "v" "3" 2) [out_of_range_warning "v" "3" 2]
  /\ exists n line pre name ws1 ws2 idx ws3 post,
       1 <= n /\ nth_error ["int x;"; "x = v [ 3 ];"] (n - 1) = Some line
       /\ ends_outside_word pre /\ valid_identifier name
       /\ whitespace ws1 /\ whitespace ws2 /\ whitespace ws3 /\ decimal idx
       /\ ((line = pre ++ name ++ ws1 ++ "[" ++ ws2 ++ idx ++ ws3 ++ "]" ++ post
            /\ out_of_range_warning "v" "3" 2 = out_of_range_warning name idx n)
           \/ (line = pre ++ name ++ ".at" ++ ws1 ++ "(" ++ ws2 ++ idx ++ ws3
                      ++ ")" ++ post
               /\ out_of_range_warning "v" "3" 2 = safe_access_info name idx n)).
Proof.
  split; [reflexivity|]. split; [left; reflexivity|].
  apply (X5_first_pass_issues_point_at_accesses ["int x;"; "x = v [ 3 ];"]
           [out_of_range_warning "v" "3" 2]);
    [reflexivity | left; reflexivity].
Defined.

(** X6.  A safe access anywhere on a line, after text that does not end
    in a word character, gives exactly one safe-access information, with
    the name, the index and the number of the line, and no out-of-range
    warning: the issues of the line are the warnings of the text before
    and after the access, then the informations of the text before it,
    this one, and those of the text after it. *)
Theorem X6_safe_access_in_context :
  forall (before after : list string) (pre name ws1 ws2 idx ws3 post : string),
    ends_outside_word pre -> valid_identifier name ->
    whitespace ws1 -> whitespace ws2 -> whitespace ws3 -> decimal idx ->
    check_vector_access
      (before
       ++ (pre ++ name ++ ".at" ++ ws1 ++ "(" ++ ws2 ++ idx ++ ws3 ++ ")"
           ++ post)%string :: after)%list =
      Ok (first_pass before
          ++ (warnings (S (List.length before)) pre
              ++ warnings (S (List.length before)) post
              ++ infos (S (List.length before)) pre
              ++ safe_access_info name idx (S (List.length before))
              :: infos (S (List.length before)) post)
          ++ issues_from (S (S (List.length before))) after)%list
    /\ safe_access_info name idx (S (List.length before)) =
       "Info: Safe access found using '" ++ name ++ ".at(" ++ idx
       ++ ")' at line " ++ str (S (List.length before)).
Proof.
  intros before after pre name ws1 ws2 idx ws3 post Hpre Hn H1 H2 H3 Hi.
  split; [|reflexivity].
  rewrite check_vector_access_line. do 3 f_equal.
  unfold line_issues, warnings, infos. cbn [fst snd].
  rewrite (accesses_around_call pre name ws1 ws2 idx ws3 post Hpre Hn H1 H2 H3 Hi).
  rewrite (at_accesses_in_line pre name ws1 ws2 idx ws3 post Hpre Hn H1 H2 H3 Hi).
  rewrite !map_app, <- app_assoc. reflexivity.
Qed.

Lemma X6_safe_access_in_context_witness :
  ends_outside_word "y = w[1] + " /\ valid_identifier "v"
  /\ whitespace " " /\ whitespace "" /\ decimal "3"
  /\ check_vector_access ["int y;"; "y = w[1] + v.at (3) + u.at(0);"] =
     Ok ["Warning: Potential out-of-range access using 'w[1]' at line 2";
         "Info: Safe access found using 'v.at(3)' at line 2";
         "Info: Safe access found using 'u.at(0)' at line 2"].
Proof.
  do 5 (split; [reflexivity|]).
  destruct (X6_safe_access_in_context ["int y;"] [] "y = w[1] + " "v" " " "" "3"
              "" " + u.at(0);" eq_refl eq_refl eq_refl eq_refl eq_refl eq_refl)
    as [H _].
  exact H.
Defined.

(** X7.  For a name that is an identifier, the search of the second pass
    finds an empty check on a line exactly when the line holds, after text
    that does not end in a word character, the name, [.empty], optional
    whitespace, an opening parenthesis, optional whitespace and a closing
    parenthesis. *)
Theorem X7_empty_check_text :
  forall name line : string,
    valid_identifier name ->
    ((exists m, Re.search (empty_check_pattern_for name) line = Ok (Some m))
     <-> exists pre ws1 ws2 post,
           ends_outside_word pre /\ whitespace ws1 /\ whitespace ws2
           /\ line = pre ++ name ++ ".empty" ++ ws1 ++ "(" ++ ws2 ++ ")" ++ post).
Proof. intros name line Hv. apply search_empty_text. exact Hv. Qed.

Lemma X7_empty_check_text_witness :
  valid_identifier "v"
  /\ ((exists m, Re.search (empty_check_pattern_for "v") "if (!v.empty ( ))"
                 = Ok (Some m))
      <-> exists pre ws1 ws2 post,
            ends_outside_word pre /\ whitespace ws1 /\ whitespace ws2
            /\ "if (!v.empty ( ))" =
               pre ++ "v" ++ ".empty" ++ ws1 ++ "(" ++ ws2 ++ ")" ++ post).
Proof.
  split; [reflexivity|].
  exact (X7_empty_check_text "v" "if (!v.empty ( ))" eq_refl).
Defined.

(** X8.  One empty check anywhere in the file, before or after the
    accesses, silences the second pass for its name: when some line
    holds the name at a word boundary followed by [.empty()] (with the
    optional whitespace), no warning of a missing empty check names it,
    on any line. *)
Theorem X8_empty_check_suppresses :
  forall (order : set_order) (before after issues : list string)
         (pre name ws1 ws2 post : string) (n : nat),
    ends_outside_word pre -> whitespace ws1 -> whitespace ws2 ->
    check_empty_before_access order
      (before
       ++ (pre ++ name ++ ".empty" ++ ws1 ++ "(" ++ ws2 ++ ")" ++ post)%string
       :: after)%list = Ok issues ->
    ~ In (missing_empty_check_warning name n) issues.
Proof.
  intros order before after issues pre name ws1 ws2 post n Hpre H1 H2 H.
  rewrite check_empty_before_access_eq in H. injection H as <-.
  apply (empty_check_suppresses order before after pre name ws1 ws2 post n);
    assumption.
Qed.

Lemma X8_empty_check_suppresses_witness :
  ends_outside_word "bool b = " /\ whitespace "" /\ whitespace ""
  /\ check_empty_before_access insertion_order ["x = v[0] + w[1];"; "bool b = v.empty();"] =
     Ok [missing_empty_check_warning "w" 1]
  /\ ~ In (missing_empty_check_warning "v" 1) [missing_empty_check_warning "w" 1].
Proof.
  do 3 (split; [reflexivity|]). split; [reflexivity|].
  apply (X8_empty_check_suppresses insertion_order ["x = v[0] + w[1];"] []
           [missing_empty_check_warning "w" 1] "bool b = " "v" "" "" ";" 1);
    reflexivity.
Defined.

(** X9.  The second pass misses no access that the first pass reports:
    when the first pass gives an out-of-range warning or a safe-access
    information for a name on a line, the second pass warns of a missing
    empty check for this name on this line exactly when no line of the
    file has an empty check that captures the name. *)
Theorem X9_second_pass_covers_first_pass :
  forall (order : set_order) (file_lines issues1 issues2 : list string)
         (name index : string) (n : nat),
    check_vector_access file_lines = Ok issues1 ->
    check_empty_before_access order file_lines = Ok issues2 ->
    In (out_of_range_warning name index n) issues1
    \/ In (safe_access_info name index n) issues1 ->
    (In (missing_empty_check_warning name n) issues2
     <-> forall line, In line file_lines -> ~ has_empty_check line name).
Proof.
  intros order file_lines issues1 issues2 name index n H1 H2 Hin.
  rewrite check_vector_access_eq in H1. injection H1 as <-.
  rewrite check_empty_before_access_eq in H2. injection H2 as <-.
  fold (second_pass order file_lines).
  pose proof (first_pass_collected file_lines name index n Hin) as Hc.
  pose proof (collected_valid _ _ Hc) as Hv.
  pose proof (unchecked_iff file_lines (name, n) Hv) as Hu. cbn [fst] in Hu.
  rewrite second_pass_in, <- Hu.
  split; [intros [_ H]; exact H | intros H; split; assumption].
Qed.

Lemma X9_second_pass_covers_first_pass_witness :
  check_vector_access ["y = v.at(0);"] = Ok [safe_access_info "v" "0" 1]
  /\ check_empty_before_access insertion_order ["y = v.at(0);"] =
     Ok [missing_empty_check_warning "v" 1]
  /\ (In (missing_empty_check_warning "v" 1) [missing_empty_check_warning "v" 1]
      <-> forall line, In line ["y = v.at(0);"] -> ~ has_empty_check line "v").
Proof.
  split; [reflexivity|]. split; [reflexivity|].
  apply (X9_second_pass_covers_first_pass insertion_order ["y = v.at(0);"]
           [safe_access_info "v" "0" 1] [missing_empty_check_warning "v" 1]
           "v" "0" 1);
    [reflexivity | reflexivity | right; left; reflexivity].
Defined.

(** X10.  The messages can be read back: an out-of-range warning, a
    safe-access information or a warning of a missing empty check for an
    identifier (and a decimal index) is the message of no other name,
    index or line, and no message of one kind is a message of another
    kind. *)
Theorem X10_messages_read_back :
  forall (name idx name' idx' : string) (n n' : nat),
    valid_identifier name' -> decimal idx' ->
    (out_of_range_warning name idx n = out_of_range_warning name' idx' n' ->
     name = name' /\ idx = idx' /\ n = n')
    /\ (safe_access_info name idx n = safe_access_info name' idx' n' ->
        name = name' /\ idx = idx' /\ n = n')
    /\ (missing_empty_check_warning name n = missing_empty_check_warning name' n' ->
        name = name' /\ n = n')
    /\ out_of_range_warning name idx n <> safe_access_info name' idx' n'
    /\ out_of_range_warning name idx n <> missing_empty_check_warning name' n'
    /\ safe_access_info name idx n <> missing_empty_check_warning name' n'.
Proof.
  intros name idx name' idx' n n' Hv Hd.
  split; [apply warning_inj; assumption|].
  split; [apply info_inj; assumption|].
  split; [apply missing_inj; assumption|].
  split; [apply warning_not_info|].
  split; [apply warning_not_missing | apply info_not_missing].
Qed.

Lemma X10_messages_read_back_witness :
  valid_identifier "v" /\ decimal "12"
  /\ (out_of_range_warning "v" "12" 3 = out_of_range_warning "v" "12" 3 ->
      "v" = "v" /\ "12" = "12" /\ 3 = 3)
  /\ (safe_access_info "v" "12" 3 = safe_access_info "v" "12" 3 ->
      "v" = "v" /\ "12" = "12" /\ 3 = 3)
  /\ (missing_empty_check_warning "v" 3 = missing_empty_check_warning "v" 3 ->
      "v" = "v" /\ 3 = 3)
  /\ out_of_range_warning "v" "12" 3 <> safe_access_info "v" "12" 3
  /\ out_of_range_warning "v" "12" 3 <> missing_empty_check_warning "v" 3
  /\ safe_access_info "v" "12" 3 <> missing_empty_check_warning "v" 3.
Proof.
  split; [reflexivity|]. split; [reflexivity|].
  exact (X10_messages_read_back "v" "12" "v" "12" 3 3 eq_refl eq_refl).
Defined.

(** X11.  The first pass works line by line: lines added at the end of a
    file leave the issues of the lines before them as they were, in the
    same order, and add after them as many issues as the added lines
    give on their own (with other line numbers). *)
Theorem X11_first_pass_keeps_prefix :
  forall before after issues issues_after : list string,
    check_vector_access before = Ok issues ->
    check_vector_access after = Ok issues_after ->
    exists rest,
      check_vector_access (before ++ after)%list = Ok (issues ++ rest)%list
      /\ List.length rest = List.length issues_after.
Proof.
  intros before after issues issues_after H1 H2.
  rewrite check_vector_access_eq in H1. injection H1 as <-.
  rewrite check_vector_access_eq in H2. injection H2 as <-.
  exists (issues_from (1 + List.length before) after).
  split; [|apply issues_from_length].
  rewrite check_vector_access_eq.
  fold (issues_from 1 (before ++ after)%list). rewrite issues_from_app.
  reflexivity.
Qed.

Lemma X11_first_pass_keeps_prefix_witness :
  check_vector_access ["x = v[0];"] = Ok [out_of_range_warning "v" "0" 1]
  /\ check_vector_access ["y = w.at(1);"] = Ok [safe_access_info "w" "1" 1]
  /\ exists rest,
       check_vector_access (["x = v[0];"] ++ ["y = w.at(1);"])%list =
         Ok ([out_of_range_warning "v" "0" 1] ++ rest)%list
       /\ List.length rest = List.length [safe_access_info "w" "1" 1].
Proof.
  split; [reflexivity|]. split; [reflexivity|].
  apply (X11_first_pass_keeps_prefix ["x = v[0];"] ["y = w.at(1);"]
           [out_of_range_warning "v" "0" 1] [safe_access_info "w" "1" 1]);
    reflexivity.
Defined.

(** X12.  The second pass looks at the whole file: lines added at the end
    can take away warnings for the lines before them (by an empty check)
    and never add one.  A warning of a missing empty check for a line of
    the file before the addition was already given for that file. *)
Theorem X12_second_pass_never_grows_for_old_lines :
  forall (order order' : set_order) (before after issues issues' : list string)
         (name : string) (n : nat),
    check_empty_before_access order before = Ok issues ->
    check_empty_before_access order' (before ++ after)%list = Ok issues' ->
    n <= List.length before ->
    In (missing_empty_check_warning name n) issues' ->
    In (missing_empty_check_warning name n) issues.
Proof.
  intros order order' before after issues issues' name n H1 H2 Hn Hin.
  rewrite check_empty_before_access_eq in H1. injection H1 as <-.
  rewrite check_empty_before_access_eq in H2. injection H2 as <-.
  apply (second_pass_prefix order order' before after name n Hn). exact Hin.
Qed.

Lemma X12_second_pass_never_grows_for_old_lines_witness :
  check_empty_before_access insertion_order ["x = v[0] + w[1];"] =
    Ok [missing_empty_check_warning "v" 1; missing_empty_check_warning "w" 1]
  /\ check_empty_before_access reverse_order
       (["x = v[0] + w[1];"] ++ ["if (v.empty()) x = u[2];"])%list =
     Ok [missing_empty_check_warning "u" 2; missing_empty_check_warning "w" 1]
  /\ 1 <= List.length ["x = v[0] + w[1];"]
  /\ In (missing_empty_check_warning "w" 1)
        [missing_empty_check_warning "u" 2; missing_empty_check_warning "w" 1]
  /\ In (missing_empty_check_warning "w" 1)
        [missing_empty_check_warning "v" 1; missing_empty_check_warning "w" 1].
Proof.
  split; [reflexivity|]. split; [reflexivity|]. split; [simpl; lia|].
  split; [right; left; reflexivity|].
  apply (X12_second_pass_never_grows_for_old_lines insertion_order reverse_order
           ["x = v[0] + w[1];"] ["if (v.empty()) x = u[2];"]
           [missing_empty_check_warning "v" 1; missing_empty_check_warning "w" 1]
           [missing_empty_check_warning "u" 2; missing_empty_check_warning "w" 1]
           "w" 1);
    [reflexivity | reflexivity | simpl; lia | right; left; reflexivity].
Defined.



(** X14.  A safe access is seen only when its index is a decimal
    literal: an identifier and [.at] with parentheses around anything
    else (and no parenthesis or bracket inside) match neither pattern,
    add no safe-access information to those of the text before and after
    them, and alone on a line give no issue of the first pass and no
    warning of the second pass for that line. *)
Theorem X14_safe_access_needs_literal_index :
  forall (order : set_order) (before after : list string)
         (pre name ws1 e post : string),
    ends_outside_word pre -> valid_identifier name -> whitespace ws1 ->
    literal_index e = false -> lacks "(" e -> lacks ")" e -> lacks "[" e ->
    Re.finditer vector_at_pattern (name ++ ".at" ++ ws1 ++ "(" ++ e ++ ")") = Ok []
    /\ Re.finditer vector_access_pattern (name ++ ".at" ++ ws1 ++ "(" ++ e ++ ")")
       = Ok []
    /\ check_vector_access
         (before
          ++ (pre ++ name ++ ".at" ++ ws1 ++ "(" ++ e ++ ")" ++ post)%string
          :: after)%list =
       Ok (first_pass before
           ++ (warnings (S (List.length before))
                 (pre ++ name ++ ".at" ++ ws1 ++ "(" ++ e ++ ")" ++ post)%string
               ++ infos (S (List.length before)) pre
               ++ infos (S (List.length before)) post)
           ++ issues_from (S (S (List.length before))) after)%list
    /\ check_vector_access
         (before ++ (name ++ ".at" ++ ws1 ++ "(" ++ e ++ ")")%string :: after)%list =
       Ok (first_pass before
           ++ issues_from (S (S (List.length before))) after)%list
    /\ forall issues2 name',
         check_empty_before_access order
           (before ++ (name ++ ".at" ++ ws1 ++ "(" ++ e ++ ")")%string :: after)%list
         = Ok issues2 ->
         ~ In (missing_empty_check_warning name' (S (List.length before))) issues2.
Proof.
  intros order before after pre name ws1 e post Hpre Hn H1 He Ho Hc Hb.
  destruct (call_not_literal_alone name ws1 e Hn H1 He Ho Hc Hb) as [Ha Hat].
  split; [rewrite finditer_at, Hat; reflexivity|].
  split; [rewrite finditer_access, Ha; reflexivity|].
  split; [|split].
  - rewrite check_vector_access_line. do 3 f_equal.
    unfold line_issues, warnings, infos. cbn [fst snd]. f_equal.
    rewrite (at_accesses_not_literal pre name ws1 e post Hpre Hn H1 He Ho Hc).
    apply map_app.
  - rewrite check_vector_access_line. do 2 f_equal.
    unfold line_issues. cbn [fst snd]. rewrite Ha, Hat. reflexivity.
  - intros issues2 name'.
    set (line' := (name ++ ".at" ++ ws1 ++ "(" ++ e ++ ")")%string) in *.
    clearbody line'. intros H Hin.
    rewrite check_empty_before_access_eq in H. injection H as <-.
    apply second_pass_in in Hin. destruct Hin as [Hin _].
    apply collected_in in Hin. destruct Hin as (line & m & _ & Hl & Hm & _).
    replace (S (List.length before) - 1) with (List.length before + 0) in Hl by lia.
    rewrite nth_error_app2 in Hl by lia.
    replace (List.length before + 0 - List.length before) with 0 in Hl by lia.
    cbn [nth_error] in Hl. injection Hl as <-. rewrite Ha, Hat in Hm. destruct Hm.
Qed.

Lemma X14_safe_access_needs_literal_index_witness :
  ends_outside_word "y = " /\ valid_identifier "v" /\ whitespace ""
  /\ literal_index "i" = false /\ lacks "(" "i" /\ lacks ")" "i" /\ lacks "[" "i"
  /\ check_vector_access ["int y;"; "y = v.at(i) + w.at(2);"] =
     Ok ["Info: Safe access found using 'w.at(2)' at line 2"]
  /\ check_vector_access ["int y;"; "v.at(i)"] = Ok []
  /\ forall issues2 name',
       check_empty_before_access insertion_order ["int y;"; "v.at(i)"] = Ok issues2 ->
       ~ In (missing_empty_check_warning name' 2) issues2.
Proof.
  do 7 (split; [reflexivity|]).
  destruct (X14_safe_access_needs_literal_index insertion_order ["int y;"] []
              "y = " "v" "" "i" " + w.at(2);"
              eq_refl eq_refl eq_refl eq_refl eq_refl eq_refl eq_refl)
    as (_ & _ & H1 & H2 & H3).
  split; [exact H1 | split; [exact H2 | exact H3]].
Defined.
